(** * ugrid: a uniform spatial grid with index-based slot arenas

    A shallow embedding of [ugrid.hpp] (the slot arena [UGridList], the grid
    [UGrid] with [PosToCell], [Insert], [Optimize] and [Tick]) and the
    properties of it that the specification states.

    Conventions.
    - [uint32_t] values are integers in [Z]; every operation that can wrap is
      written with [wrap32].
    - [float] values are IEEE 754 binary32 numbers, given by the Standard
      Library's [spec_float] at precision 24 and maximal exponent 128.
    - Raw storage handed out by [std::allocator] is a function from slot
      index to slot content; a slot is uninitialised, holds an object, or
      holds the free-list word that [Ret] writes over it.
    - A computation returns [None] when the C++ program has no defined
      result there: a read of uninitialised storage, a conversion of a
      float that does not fit [uint32_t], an access to a cell word other
      than those of the table and the one right after it, or a loop that
      does not end.
    - [operator[]] of an arena is unchecked in the source and in the
      model: [Size] is carried along as the code updates it, a slot
      beyond the slots that were written reads as uninitialised, and a
      write beyond [Size] (which the program has no defined result for) is
      not refused.  The statements about what a call returns are
      therefore made for runs on which [Used] stays within [Size]: the
      [bounded] grids and the [arena_ok] arenas, on which every slot that
      the code touches lies in the block it has allocated, so that the
      program and the model agree.  From [2^31] slots on this fails in
      the program: [Used * 2] of the copy constructor and
      [(Size << 1) | 1] of [Get] wrap, and the new block is too small. *)

From Stdlib Require Import String ZArith List Lia Bool.
From Stdlib Require Import Floats.SpecFloat.
From Stdlib Require DecimalString.
Import ListNotations.
Open Scope Z_scope.

(** ** Machine integers and floats *)

Definition wrap32 (z : Z) : Z := z mod 2 ^ 32.

Definition float32 : Type := spec_float.

Definition f32_add : float32 -> float32 -> float32 := SFadd 24 128.
Definition f32_sub : float32 -> float32 -> float32 := SFsub 24 128.
Definition f32_mul : float32 -> float32 -> float32 := SFmul 24 128.
Definition f32_div : float32 -> float32 -> float32 := SFdiv 24 128.
Definition f32_ltb : float32 -> float32 -> bool := SFltb.

(** The float nearest to an integer, and the literals the code uses. *)
Definition f32_of_Z (z : Z) : float32 := binary_normalize 24 128 z 0 false.
Definition f32_zero : float32 := S754_zero false.
Definition f32_one : float32 := f32_of_Z 1.

(** [std::max(a, b)] is [(a < b) ? b : a]; [std::min(a, b)] is
    [(b < a) ? b : a]. *)
Definition std_max_f32 (a b : float32) : float32 := if f32_ltb a b then b else a.
Definition std_max_u32 (a b : Z) : Z := if a <? b then b else a.
Definition std_min_u32 (a b : Z) : Z := if b <? a then b else a.

(** The integral part of a float, towards zero; infinities and NaN have
    none. *)
Definition f32_trunc (f : float32) : option Z :=
  match f with
  | S754_zero _ => Some 0
  | S754_finite s m e =>
      let mag := match e with
                 | Z0 => Zpos m
                 | Zpos _ => Zpos m * 2 ^ e
                 | Zneg _ => Zpos m / 2 ^ (- e)
                 end in
      Some (if s then - mag else mag)
  | S754_infinity _ | S754_nan => None
  end.

(** [static_cast<uint32_t>(f)]: defined only when the truncated value is
    representable. *)
Definition f32_to_u32 (f : float32) : option Z :=
  match f32_trunc f with
  | Some z => if (0 <=? z) && (z <? 2 ^ 32) then Some z else None
  | None => None
  end.

(** ** Results that may be undefined *)

Definition bind {A B : Type} (m : option A) (k : A -> option B) : option B :=
  match m with
  | Some a => k a
  | None => None
  end.

Notation "x <- m ;; k" := (bind m (fun x => k))
  (at level 61, m at next level, right associativity).
Notation "' p <- m ;; k" := (bind m (fun x => match x with p => k end))
  (at level 61, p pattern, m at next level, right associativity).

Fixpoint foldM {A S : Type} (f : S -> A -> option S) (l : list A) (s : S)
  : option S :=
  match l with
  | [] => Some s
  | a :: l' => s' <- f s a ;; foldM f l' s'
  end.

(** ** Plain data *)

Record UGridPos : Type := { X : float32; Y : float32 }.
Record UGridDim : Type := { W : float32; H : float32 }.
Record UGridCell : Type := { CX : Z; CY : Z }.

Record UGridEntity : Type := {
  Pos : UGridPos;
  Dim : UGridDim;
  Copied : Z
}.

Record UGridReference : Type := {
  Next : Z;
  Ref : Z
}.

Definition set_Copied (c : Z) (e : UGridEntity) : UGridEntity :=
  {| Pos := Pos e; Dim := Dim e; Copied := c |}.

(** ** UGridList: the slot arena *)

Inductive slot (T : Type) : Type :=
| Uninit
| Full (v : T)
| Link (w : Z).

Arguments Uninit {T}.
Arguments Full {T} v.
Arguments Link {T} w.

(** What [*reinterpret_cast<uint32_t*>(p)] reads when [p] points to a live
    object of type [T]: the first member when that is a [uint32_t], nothing
    defined otherwise. *)
Class Overlay (T : Type) : Type := first_word : T -> option Z.

#[export] Instance Overlay_Reference : Overlay UGridReference :=
  fun r => Some (Next r).
#[export] Instance Overlay_Entity : Overlay UGridEntity :=
  fun _ => None.

Definition upd {T : Type} (f : Z -> T) (i : Z) (v : T) : Z -> T :=
  fun j => if j =? i then v else f j.

Record UGridList (T : Type) : Type := {
  List : Z -> slot T;
  Used : Z;
  Size : Z;
  Free : Z
}.

Arguments List {T} _ _.
Arguments Used {T} _.
Arguments Size {T} _.
Arguments Free {T} _.

Section Arena.
Context {T : Type} `{Overlay T}.

(** [UGridList() = default]: no storage, [Used = 1], [Size = 1],
    [Free = 0]. *)
Definition UGridList_new : UGridList T :=
  {| List := fun _ => Uninit; Used := 1; Size := 1; Free := 0 |}.

(** The copy constructor copies no element: it allocates fresh storage of
    [min(Other.Size, Other.Used * 2)] slots and keeps the default [Used]
    and [Free].  The product wraps from [Other.Used = 2^31] on, and the
    block is then too small for what [Optimize] writes; the statements
    about [Optimize] take [Used < 2^31]. *)
Definition UGridList_copy (Other : UGridList T) : UGridList T :=
  {| List := fun _ => Uninit;
     Used := 1;
     Size := std_min_u32 (Size Other) (wrap32 (Used Other * 2));
     Free := 0 |}.

Definition SetEnd (l : UGridList T) (End : Z) : UGridList T :=
  {| List := List l; Used := wrap32 End; Size := Size l; Free := Free l |}.

(** [operator[]] used as a value / as an assignment target.  As in the
    source, neither looks at [Size]: that the index lies in the block is
    the caller's business, and is what [bounded] and [arena_ok] establish
    where a statement depends on it. *)
Definition load (l : UGridList T) (i : Z) : option T :=
  match List l i with
  | Full v => Some v
  | Uninit | Link _ => None
  end.

Definition store (l : UGridList T) (i : Z) (v : T) : UGridList T :=
  {| List := upd (List l) i (Full v);
     Used := Used l; Size := Size l; Free := Free l |}.

Definition load_link (l : UGridList T) (i : Z) : option Z :=
  match List l i with
  | Link w => Some w
  | Full v => first_word v
  | Uninit => None
  end.

(** Growth: [Size = (Size << 1) | 1], fresh storage, the first [Used]
    slots copied.  The new [Size] holds them as long as the old one is
    below [2^31]; beyond that the shift wraps and the [memcpy] of the source
    overruns the new block, which the statements exclude. *)
Definition grow (l : UGridList T) : UGridList T :=
  {| List := fun i => if (0 <=? i) && (i <? Used l) then List l i else Uninit;
     Used := Used l;
     Size := Z.lor (wrap32 (Z.shiftl (Size l) 1)) 1;
     Free := Free l |}.

Definition Get (l : UGridList T) : option (Z * UGridList T) :=
  if negb (Free l =? 0) then
    w <- load_link l (Free l) ;;
    Some (Free l,
          {| List := List l; Used := Used l; Size := Size l; Free := w |})
  else
    let l1 := if Used l =? Size l then grow l else l in
    Some (Used l1,
          {| List := List l1; Used := wrap32 (Used l1 + 1);
             Size := Size l1; Free := Free l1 |}).

(** [Ret] does not look at [Index] either: the statements about it take
    [1 <= Index < Used]. *)
Definition Ret (l : UGridList T) (Index : Z) : UGridList T :=
  {| List := upd (List l) Index (Link (Free l));
     Used := Used l; Size := Size l; Free := Index |}.
End Arena.

(** ** UGrid *)

(** [Cells] is the table of [CellsNum] head words that the constructor
    allocates; [CellsEnd] is the offset of the pointer of that name, one past
    the table; [Past] is the word of memory found at [CellsEnd]. *)
Record UGrid : Type := {
  Entities : UGridList UGridEntity;
  References : UGridList UGridReference;
  Cells : list Z;
  CellsEnd : Z;
  Past : Z;
  GridCells : UGridCell;
  CellDim : UGridDim;
  InverseCellDim : UGridDim
}.

Definition set_Entities (g : UGrid) (l : UGridList UGridEntity) : UGrid :=
  {| Entities := l; References := References g; Cells := Cells g;
     CellsEnd := CellsEnd g; Past := Past g; GridCells := GridCells g;
     CellDim := CellDim g; InverseCellDim := InverseCellDim g |}.

Definition set_References (g : UGrid) (l : UGridList UGridReference) : UGrid :=
  {| Entities := Entities g; References := l; Cells := Cells g;
     CellsEnd := CellsEnd g; Past := Past g; GridCells := GridCells g;
     CellDim := CellDim g; InverseCellDim := InverseCellDim g |}.

Definition set_Cells (g : UGrid) (c : list Z) : UGrid :=
  {| Entities := Entities g; References := References g; Cells := c;
     CellsEnd := CellsEnd g; Past := Past g; GridCells := GridCells g;
     CellDim := CellDim g; InverseCellDim := InverseCellDim g |}.

Definition set_Past (g : UGrid) (p : Z) : UGrid :=
  {| Entities := Entities g; References := References g; Cells := Cells g;
     CellsEnd := CellsEnd g; Past := p; GridCells := GridCells g;
     CellDim := CellDim g; InverseCellDim := InverseCellDim g |}.

Fixpoint set_nth {A : Type} (n : nat) (v : A) (l : list A) : list A :=
  match l, n with
  | [], _ => []
  | _ :: l', O => v :: l'
  | a :: l', S n' => a :: set_nth n' v l'
  end.

(** [*Cell] for [Cell = this->Cells + k]: a word of the table, the word at
    [CellsEnd], or storage the model knows nothing about. *)
Definition read_cell (g : UGrid) (k : Z) : option Z :=
  if (0 <=? k) && (k <? Z.of_nat (length (Cells g))) then
    nth_error (Cells g) (Z.to_nat k)
  else if k =? Z.of_nat (length (Cells g)) then Some (Past g)
  else None.

Definition write_cell (g : UGrid) (k : Z) (v : Z) : option UGrid :=
  if (0 <=? k) && (k <? Z.of_nat (length (Cells g))) then
    Some (set_Cells g (set_nth (Z.to_nat k) v (Cells g)))
  else if k =? Z.of_nat (length (Cells g)) then Some (set_Past g v)
  else None.

(** The constructor.  [allocate] does not initialise: [raw k] is the word
    that the fresh block holds at offset [k]. *)
Definition UGrid_new (GridCells0 : UGridCell) (CellDim0 : UGridDim)
    (raw : Z -> Z) : UGrid :=
  let CellsNum := wrap32 (CX GridCells0 * CY GridCells0) in
  {| Entities := UGridList_new;
     References := UGridList_new;
     Cells := map (fun k => raw (Z.of_nat k)) (seq 0 (Z.to_nat CellsNum));
     CellsEnd := CellsNum;
     Past := raw CellsNum;
     GridCells := GridCells0;
     CellDim := CellDim0;
     InverseCellDim := {| W := f32_div f32_one (W CellDim0);
                          H := f32_div f32_one (H CellDim0) |} |}.

Definition PosToCell (g : UGrid) (P : UGridPos) : option UGridCell :=
  x <- f32_to_u32 (f32_mul (std_max_f32 (X P) f32_zero) (W (InverseCellDim g))) ;;
  y <- f32_to_u32 (f32_mul (std_max_f32 (Y P) f32_zero) (H (InverseCellDim g))) ;;
  Some {| CX := std_min_u32 (wrap32 (CX (GridCells g) - 1)) x;
          CY := std_min_u32 (wrap32 (CY (GridCells g) - 1)) y |}.

(** The private [Insert(Cell, EntityIndex)]: prepend a link record. *)
Definition Insert_link (g : UGrid) (Cell : Z) (EntityIndex : Z) : option UGrid :=
  '(Index, refs) <- Get (References g) ;;
  head <- read_cell g Cell ;;
  write_cell
    (set_References g (store refs Index {| Next := head; Ref := EntityIndex |}))
    Cell Index.

(** [for(uint32_t Y = Start.Y; Y <= End.Y; ++Y)]: [n] bounds the number of
    passes; the test comes first, so a loop that ends within [n] passes has a
    result.  In [this->Cells + X * this->GridCells.Y + Y] the product is a
    32-bit one and the two additions are pointer arithmetic. *)
Fixpoint Insert_Y (n : nat) (g : UGrid) (Xc Yc EndY Index : Z) : option UGrid :=
  if Yc <=? EndY then
    match n with
    | O => None
    | S n' =>
        g' <- Insert_link g (wrap32 (Xc * CY (GridCells g)) + Yc) Index ;;
        Insert_Y n' g' Xc (wrap32 (Yc + 1)) EndY Index
    end
  else Some g.

Fixpoint Insert_X (n : nat) (g : UGrid) (Xc EndX StartY EndY Index : Z)
  : option UGrid :=
  if Xc <=? EndX then
    match n with
    | O => None
    | S n' =>
        g' <- Insert_Y (Z.to_nat (EndY - StartY + 1)) g Xc StartY EndY Index ;;
        Insert_X n' g' (wrap32 (Xc + 1)) EndX StartY EndY Index
    end
  else Some g.

(** The public [Insert(Entity)].  A counter that starts at [Start] and is
    still [<= End] after [End - Start + 1] passes has wrapped around, and
    the loop never ends. *)
Definition Insert (g : UGrid) (Entity : UGridEntity) : option UGrid :=
  '(Index, ents) <- Get (Entities g) ;;
  let g1 := set_Entities g (store ents Index Entity) in
  Start <- PosToCell g1 {| X := f32_sub (X (Pos Entity)) (W (Dim Entity));
                           Y := f32_sub (Y (Pos Entity)) (H (Dim Entity)) |} ;;
  End <- PosToCell g1 {| X := f32_add (X (Pos Entity)) (W (Dim Entity));
                         Y := f32_add (Y (Pos Entity)) (H (Dim Entity)) |} ;;
  Insert_X (Z.to_nat (CX End - CX Start + 1)) g1
           (CX Start) (CX End) (CY Start) (CY End) Index.

(** The addresses [Cell = Cells; Cell <= CellsEnd; ++Cell] as offsets. *)
Definition cell_addrs (g : UGrid) : list Z :=
  map Z.of_nat (seq 0 (S (Z.to_nat (CellsEnd g)))).

(** *** Optimize *)

Record OptLocals : Type := {
  NewEntities : UGridList UGridEntity;
  CurrentEntity : Z;
  NewReferences : UGridList UGridReference;
  CurrentReference : Z
}.

(** The [if(!Entity.Copied)] block, for the entity at index [e] of
    [this->Entities]: the copy into the new storage is made before the old
    record's [Copied] is assigned.  The third component is [Entity] as the
    rest of the loop body sees it. *)
Definition Optimize_copy (g : UGrid) (L : OptLocals) (e : Z)
    (Entity : UGridEntity) : UGrid * OptLocals * UGridEntity :=
  if Copied Entity =? 0 then
    let Entity' := set_Copied (wrap32 (CurrentEntity L)) Entity in
    (set_Entities g (store (Entities g) e Entity'),
     {| NewEntities := store (NewEntities L) (CurrentEntity L) Entity;
        CurrentEntity := CurrentEntity L + 1;
        NewReferences := NewReferences L;
        CurrentReference := CurrentReference L |},
     Entity')
  else (g, L, Entity).

(** The [while(i)] loop of [Optimize] for one cell; [fuel] bounds the number
    of passes. *)
Fixpoint Optimize_chain (fuel : nat) (Cell : Z) (First : bool) (i : Z)
    (st : UGrid * OptLocals) : option (UGrid * OptLocals) :=
  if i =? 0 then Some st
  else
    match fuel with
    | O => None
    | S fuel' =>
        let (g, L) := st in
        Reference <- load (References g) i ;;
        let i' := Next Reference in
        Entity <- load (Entities g) (Ref Reference) ;;
        let '(g1, L1, Entity1) := Optimize_copy g L (Ref Reference) Entity in
        g2 <- (if First then write_cell g1 Cell (wrap32 (CurrentReference L1))
               else Some g1) ;;
        let NextReference := CurrentReference L1 + 1 in
        let L2 :=
          {| NewEntities := NewEntities L1;
             CurrentEntity := CurrentEntity L1;
             NewReferences :=
               store (NewReferences L1) (CurrentReference L1)
                 {| Next := if i' =? 0 then 0 else wrap32 NextReference;
                    Ref := Copied Entity1 |};
             CurrentReference := NextReference |} in
        Optimize_chain fuel' Cell false i' (g2, L2)
    end.

Definition Optimize_cell (fuel : nat) (st : UGrid * OptLocals) (Cell : Z)
  : option (UGrid * OptLocals) :=
  i <- read_cell (fst st) Cell ;;
  Optimize_chain fuel Cell true i st.

Definition Optimize (fuel : nat) (g : UGrid) : option UGrid :=
  let L0 := {| NewEntities := UGridList_copy (Entities g);
               CurrentEntity := 1;
               NewReferences := UGridList_copy (References g);
               CurrentReference := 1 |} in
  '(g1, L) <- foldM (Optimize_cell fuel) (cell_addrs g) (g, L0) ;;
  Some (set_References
          (set_Entities g1 (SetEnd (NewEntities L) (CurrentEntity L)))
          (SetEnd (NewReferences L) (CurrentReference L))).

(** *** Tick *)

(** The inner [while(j)] loop. *)
Fixpoint Tick_inner (fuel : nat) (g : UGrid) (GlobalMaxEntityIndex : Z)
    (j : Z) (Collisions : Z) : option Z :=
  if j =? 0 then Some Collisions
  else
    match fuel with
    | O => None
    | S fuel' =>
        OtherReference <- load (References g) j ;;
        let j' := Next OtherReference in
        if Ref OtherReference <? GlobalMaxEntityIndex then
          Tick_inner fuel' g GlobalMaxEntityIndex j' Collisions
        else
          Tick_inner fuel' g GlobalMaxEntityIndex j' (wrap32 (Collisions + 1))
    end.

(** The outer [while(i)] loop; the state is
    [(LocalMaxEntityIndex, Collisions)]. *)
Fixpoint Tick_chain (fuel : nat) (g : UGrid) (GlobalMaxEntityIndex : Z)
    (i : Z) (st : Z * Z) : option (Z * Z) :=
  if i =? 0 then Some st
  else
    match fuel with
    | O => None
    | S fuel' =>
        let (LocalMaxEntityIndex, Collisions) := st in
        Reference <- load (References g) i ;;
        let i' := Next Reference in
        let LocalMax' := std_max_u32 LocalMaxEntityIndex (Ref Reference) in
        if Ref Reference <=? GlobalMaxEntityIndex then
          Tick_chain fuel' g GlobalMaxEntityIndex i' (LocalMax', Collisions)
        else
          c <- Tick_inner fuel g GlobalMaxEntityIndex i' Collisions ;;
          Tick_chain fuel' g GlobalMaxEntityIndex i' (LocalMax', c)
    end.

(** One pass of the cell loop; the state is
    [(GlobalMaxEntityIndex, Collisions)]. *)
Definition Tick_cell (fuel : nat) (g : UGrid) (st : Z * Z) (Cell : Z)
  : option (Z * Z) :=
  let (GlobalMaxEntityIndex, Collisions) := st in
  i <- read_cell g Cell ;;
  '(LocalMaxEntityIndex, c) <-
    Tick_chain fuel g GlobalMaxEntityIndex i (0, Collisions) ;;
  Some (std_max_u32 GlobalMaxEntityIndex LocalMaxEntityIndex, c).

(** The value of [Collisions] when the cell loop of [Tick] ends. *)
Definition Tick_scan (fuel : nat) (g : UGrid) : option Z :=
  '(_, c) <- foldM (Tick_cell fuel g) (cell_addrs g) (0, 0) ;;
  Some c.

(** [std::cout << Collisions << " registered broad collisions" << std::endl] *)
Definition cout_line (Collisions : Z) : string :=
  (DecimalString.NilZero.string_of_uint (N.to_uint (Z.to_N Collisions))
     ++ " registered broad collisions" ++ String (Ascii.ascii_of_nat 10) EmptyString)%string.

(** [Tick] is a [void] method: what it leaves behind is the compacted grid
    and one line on the standard output. *)
Record TickEffect : Type := {
  grid_after : UGrid;
  printed : string
}.

Definition Tick (fuel : nat) (g : UGrid) : option (unit * TickEffect) :=
  g1 <- Optimize fuel g ;;
  Collisions <- Tick_scan fuel g1 ;;
  Some (tt, {| grid_after := g1; printed := cout_line Collisions |}).

(** ** Observations used to state the properties *)

(** The referents along the chain that starts at slot [i], read off the
    storage; the walk stops after [fuel] links or at a slot that holds no
    record. *)
Fixpoint chain_refs (fuel : nat) (l : UGridList UGridReference) (i : Z)
  : list Z :=
  match fuel with
  | O => []
  | S fuel' =>
      if i =? 0 then []
      else match load l i with
           | Some r => Ref r :: chain_refs fuel' l (Next r)
           | None => []
           end
  end.

(** The view of a grid: for each cell of the table, in table order, the
    entity indices its chain names, in chain order. *)
Definition view (g : UGrid) : list (list Z) :=
  map (chain_refs (Z.to_nat (Used (References g))) (References g)) (Cells g).

Definition grid_zero : Z -> Z := fun _ => 0.

(** The caller's side of the contract: geometry that the 32-bit cell
    arithmetic can hold, and room left in both arenas. *)
Definition geometry_ok (gc : UGridCell) : Prop :=
  1 <= CX gc /\ 1 <= CY gc /\ CX gc * CY gc < 2 ^ 32.

Definition has_room (g : UGrid) : Prop :=
  Used (Entities g) + 1 < 2 ^ 32 /\
  Used (References g) + CellsEnd g < 2 ^ 32.

(** Grids that a caller can reach: constructed over storage that holds
    zeros (the table, which the constructor does not initialise, and the
    word after it, which both cell loops read), then any sequence of
    [Insert] (of an entity whose scratch field has its default value,
    while there is room) and [Tick]. *)
Inductive reachable : UGrid -> Prop :=
| reach_new : forall gc cd,
    geometry_ok gc -> reachable (UGrid_new gc cd grid_zero)
| reach_Insert : forall g e g',
    reachable g -> Copied e = 0 -> has_room g ->
    Insert g e = Some g' -> reachable g'
| reach_Tick : forall fuel g r,
    reachable g -> Tick fuel g = Some r -> reachable (grid_after (snd r)).

(** ** Chains as list segments *)

(** [lseg mem i j c]: following [Next] from slot [i] visits the slots
    [map fst c], whose records name the entities [map snd c], and arrives
    at [j]. *)
Fixpoint lseg (mem : Z -> slot UGridReference) (i j : Z) (c : list (Z * Z))
  : Prop :=
  match c with
  | [] => i = j
  | (k, e) :: c' =>
      i = k /\ k <> 0 /\
      exists nx, mem k = Full {| Next := nx; Ref := e |} /\ lseg mem nx j c'
  end.

Definition chain (mem : Z -> slot UGridReference) (i : Z) (c : list (Z * Z))
  : Prop := lseg mem i 0 c.

(** The invariant of reachable grids, over the slot-level chains [sv]. *)
Record wf (g : UGrid) (sv : list (list (Z * Z))) : Prop := {
  wf_end : CellsEnd g = Z.of_nat (length (Cells g));
  wf_past : Past g = 0;
  wf_geom : geometry_ok (GridCells g);
  wf_cells : Z.of_nat (length (Cells g)) = CX (GridCells g) * CY (GridCells g);
  wf_chains : Forall2 (chain (List (References g))) (Cells g) sv;
  wf_freeE : Free (Entities g) = 0;
  wf_freeR : Free (References g) = 0;
  wf_slots : forall k e, In (k, e) (concat sv) -> 1 <= k < Used (References g);
  wf_nodup : NoDup (map fst (concat sv));
  wf_count : Used (References g) = 1 + Z.of_nat (length (concat sv));
  wf_usedR : Used (References g) < 2 ^ 32;
  wf_usedE : 1 <= Used (Entities g) < 2 ^ 32;
  wf_refs : forall k e, In (k, e) (concat sv) -> 1 <= e < Used (Entities g);
  wf_ents : forall e, 1 <= e < Used (Entities g) ->
            exists ent, load (Entities g) e = Some ent;
  wf_chain_nodup : Forall (fun c => NoDup (map snd c)) sv
}.

(** Between compaction passes every stored entity has its scratch field at
    zero. *)
Definition scratch_clear (g : UGrid) : Prop :=
  forall e ent, 1 <= e < Used (Entities g) ->
    load (Entities g) e = Some ent -> Copied ent = 0.

(** ** Definitions used by the statements and the proofs *)

Ltac conj := repeat match goal with |- _ /\ _ => split end.

Ltac grid_simpl :=
  cbn [Entities References Cells CellsEnd Past GridCells CellDim
       InverseCellDim List Used Size Free fst snd] in *.

(** [linked U0 Index V sv0 sv]: [sv] is [sv0] with one record, in a slot
    not below [U0] and naming [Index], put in front of the chain of every
    cell in [V]. *)
Definition linked (U0 Index : Z) (V : Z -> Prop)
    (sv0 sv : list (list (Z * Z))) : Prop :=
  length sv = length sv0 /\
  forall k : nat, (k < length sv0)%nat ->
    (V (Z.of_nat k) ->
       exists s, U0 <= s /\ nth k sv [] = (s, Index) :: nth k sv0 []) /\
    (~ V (Z.of_nat k) -> nth k sv [] = nth k sv0 []).

(** The cells that [Insert] visits for the corner cells [Start] and [End]. *)
Definition in_span (g : UGrid) (Start End : UGridCell) (k : Z) : Prop :=
  exists x y, CX Start <= x <= CX End /\ CY Start <= y <= CY End /\
              k = x * CY (GridCells g) + y.

Definition lower_corner (e : UGridEntity) : UGridPos :=
  {| X := f32_sub (X (Pos e)) (W (Dim e));
     Y := f32_sub (Y (Pos e)) (H (Dim e)) |}.

Definition upper_corner (e : UGridEntity) : UGridPos :=
  {| X := f32_add (X (Pos e)) (W (Dim e));
     Y := f32_add (Y (Pos e)) (H (Dim e)) |}.

(** [rank seen e]: the position, counted from 1, of [e] in [seen]; 0 when
    [e] is not there.  This is the value of [Copied] during a pass. *)
Fixpoint rank (seen : list Z) (e : Z) : Z :=
  match seen with
  | [] => 0
  | x :: seen' =>
      if e =? x then 1
      else if rank seen' e =? 0 then 0 else rank seen' e + 1
  end.

(** The entities in the order in which a walk over the referents [c]
    first meets them, after those already in [seen]. *)
Fixpoint discover (seen : list Z) (c : list Z) : list Z :=
  match c with
  | [] => seen
  | e :: c' => discover (if rank seen e =? 0 then seen ++ [e] else seen) c'
  end.

Definition discovery_order (v : list (list Z)) : list Z :=
  discover [] (concat v).

Fixpoint zseq (s : Z) (n : nat) : list Z :=
  match n with
  | O => []
  | S n' => s :: zseq (s + 1) n'
  end.

(** The chains that compaction builds: consecutive slots from [s] on,
    referents renamed by [rank order]. *)
Definition relabel_chain (order : list Z) (s : Z) (c : list Z)
  : list (Z * Z) :=
  combine (zseq s (length c)) (map (rank order) c).

Fixpoint relabel (order : list Z) (s : Z) (v : list (list Z))
  : list (list (Z * Z)) :=
  match v with
  | [] => []
  | c :: v' =>
      relabel_chain order s c :: relabel order (s + Z.of_nat (length c)) v'
  end.

(** Fields that compaction leaves alone while it walks. *)
Definition same_frame (g g' : UGrid) : Prop :=
  References g' = References g /\ CellsEnd g' = CellsEnd g /\
  Past g' = Past g /\ GridCells g' = GridCells g /\
  CellDim g' = CellDim g /\ InverseCellDim g' = InverseCellDim g /\
  length (Cells g') = length (Cells g).

(** What the pass over [g0] knows about entities once it has discovered
    [seen]. *)
Record ent_inv (g0 : UGrid) (seen : list Z) (g : UGrid) (L : OptLocals)
  : Prop := {
  ei_nodup : NoDup seen;
  ei_range : forall e, In e seen -> 1 <= e < Used (Entities g0);
  ei_cur : CurrentEntity L = 1 + Z.of_nat (length seen);
  ei_old : forall e ent0, 1 <= e < Used (Entities g0) ->
             load (Entities g0) e = Some ent0 ->
             load (Entities g) e = Some (set_Copied (rank seen e) ent0);
  ei_new : forall i, (i < length seen)%nat ->
             load (NewEntities L) (Z.of_nat i + 1)
             = load (Entities g0) (nth i seen 0);
  ei_free : Free (NewEntities L) = 0
}.

(** The pairs that the scan counts, read off a view: in a cell scanned with
    watermark [G], a referent [r] above [G] is paired with every later
    referent of the chain that is not below [G]. *)
Definition counted_with (G r : Z) (rest : list Z) : list (Z * Z) :=
  map (fun r2 => (r, r2)) (filter (fun r2 => negb (r2 <? G)) rest).

Fixpoint chain_pairs (G : Z) (c : list Z) : list (Z * Z) :=
  match c with
  | [] => []
  | r :: rest =>
      (if r <=? G then [] else counted_with G r rest) ++ chain_pairs G rest
  end.

Definition list_max (c : list Z) : Z := fold_right Z.max 0 c.

Fixpoint view_pairs (G : Z) (v : list (list Z)) : list (Z * Z) :=
  match v with
  | [] => []
  | c :: v' => chain_pairs G c ++ view_pairs (Z.max G (list_max c)) v'
  end.

Definition scan_pairs (v : list (list Z)) : list (Z * Z) := view_pairs 0 v.

(** An unordered pair, written smaller index first. *)
Definition norm (p : Z * Z) : Z * Z :=
  (Z.min (fst p) (snd p), Z.max (fst p) (snd p)).

Fixpoint all_pairs (c : list Z) : list (Z * Z) :=
  match c with
  | [] => []
  | a :: rest => map (fun b => norm (a, b)) rest ++ all_pairs rest
  end.

Definition pair_eq_dec : forall p q : Z * Z, {p = q} + {p <> q}.
Proof. decide equality; apply Z.eq_dec. Defined.

(** The unordered pairs of entities that co-occur in at least one cell,
    each listed once. *)
Definition cooccurring_pairs (v : list (list Z)) : list (Z * Z) :=
  nodup pair_eq_dec (concat (map all_pairs v)).

Definition entity_at (x y w h : Z) : UGridEntity :=
  {| Pos := {| X := f32_of_Z x; Y := f32_of_Z y |};
     Dim := {| W := f32_of_Z w; H := f32_of_Z h |};
     Copied := 0 |}.

Definition has_room_b (g : UGrid) : bool :=
  (Used (Entities g) + 1 <? 2 ^ 32) &&
  (Used (References g) + CellsEnd g <? 2 ^ 32).

(** [Insert] one entity after the other, as long as the caller keeps to the
    contract. *)
Fixpoint insert_all (g : UGrid) (es : list UGridEntity) : option UGrid :=
  match es with
  | [] => Some g
  | e :: es' =>
      if (Copied e =? 0) && has_room_b g
      then g' <- Insert g e ;; insert_all g' es'
      else None
  end.

Definition or_else (o : option UGrid) (d : UGrid) : UGrid :=
  match o with
  | Some g => g
  | None => d
  end.

(** A grid of 2 x 2 cells of size 10 x 10.  [tall] lies in cells (1,0) and
    (1,1), [wide] in cells (0,0) and (1,0): they share cell (1,0). *)
Definition grid_2x2 : UGrid :=
  UGrid_new {| CX := 2; CY := 2 |}
            {| W := f32_of_Z 10; H := f32_of_Z 10 |} grid_zero.

Definition tall : UGridEntity := entity_at 15 5 1 6.
Definition wide : UGridEntity := entity_at 5 5 6 1.

Definition grid_tall_wide : UGrid :=
  or_else (insert_all grid_2x2 [tall; wide]) grid_2x2.
Definition grid_wide_tall : UGrid :=
  or_else (insert_all grid_2x2 [wide; tall]) grid_2x2.

Definition new_clear (L : OptLocals) : Prop :=
  forall i ent, load (NewEntities L) i = Some ent -> Copied ent = 0.



(** A 1 x 1 grid whose table holds 0 and whose storage holds 7 in the word
    after the table. *)
Definition grid_1x1_over (past : Z) : UGrid :=
  UGrid_new {| CX := 1; CY := 1 |}
            {| W := f32_of_Z 16; H := f32_of_Z 16 |}
            (fun k => if k =? 1 then past else 0).

Definition is_finite (f : float32) : bool :=
  match f with
  | S754_zero _ | S754_finite _ _ _ => true
  | S754_infinity _ | S754_nan => false
  end.

(** The scaled coordinates that [PosToCell] converts. *)
Definition scaled_X (g : UGrid) (P : UGridPos) : float32 :=
  f32_mul (std_max_f32 (X P) f32_zero) (W (InverseCellDim g)).
Definition scaled_Y (g : UGrid) (P : UGridPos) : float32 :=
  f32_mul (std_max_f32 (Y P) f32_zero) (H (InverseCellDim g)).

(** Arena states that calls of [Get], [Ret] and assignments reach from a
    default-constructed arena. *)
Inductive arena_reachable {T : Type} `{Overlay T} : UGridList T -> Prop :=
| arena_new : arena_reachable UGridList_new
| arena_Get : forall l i l',
    arena_reachable l -> Get l = Some (i, l') -> arena_reachable l'
| arena_Ret : forall l i, arena_reachable l -> arena_reachable (Ret l i)
| arena_store : forall l i v,
    arena_reachable l -> arena_reachable (store l i v).

(** Arenas as a caller has them: default-constructed, then used through
    [Get] while fewer than [2^31] slots are in use, and through [Ret] and
    assignments at slots of the storage only ([1 <= i < Used]).  Such an
    arena with [Used > 1] has gone through [Get], so it has a block, of
    [Size] slots, and [Used] lies within it. *)
Inductive arena_ok {T : Type} `{Overlay T} : UGridList T -> Prop :=
| ok_new : arena_ok UGridList_new
| ok_Get : forall l i l',
    arena_ok l -> Used l < 2 ^ 31 -> Get l = Some (i, l') -> arena_ok l'
| ok_Ret : forall l i,
    arena_ok l -> 1 <= i < Used l -> arena_ok (Ret l i)
| ok_store : forall l i v,
    arena_ok l -> 1 <= i < Used l -> arena_ok (store l i v).

(** ** Sequences of arena calls *)

(** [Ret] called on each index of [idxs], in order. *)
Definition Ret_all {T : Type} (l : UGridList T) (idxs : list Z)
  : UGridList T :=
  fold_left Ret idxs l.

(** [n] calls of [Get] in a row: the indices handed out, in order, and the
    arena they leave. *)
Fixpoint Get_n {T : Type} `{Overlay T} (n : nat) (l : UGridList T)
  : option (list Z * UGridList T) :=
  match n with
  | O => Some ([], l)
  | S n' =>
      '(i, l1) <- Get l ;;
      '(rest, l2) <- Get_n n' l1 ;;
      Some (i :: rest, l2)
  end.

(** [Index = Get(); List[Index] = v] for each [v] of [vs], in order: the way
    both [Insert] methods put a record into an arena. *)
Fixpoint push_all {T : Type} `{Overlay T} (l : UGridList T) (vs : list T)
  : option (list Z * UGridList T) :=
  match vs with
  | [] => Some ([], l)
  | v :: vs' =>
      '(Index, l1) <- Get l ;;
      '(rest, l2) <- push_all (store l1 Index v) vs' ;;
      Some (Index :: rest, l2)
  end.

(** Capacities of the form [2^k - 1]. *)
Definition all_ones (s : Z) : Prop :=
  exists k, 1 <= k <= 32 /\ s = 2 ^ k - 1.

(** The number of cells in the span from [Start] to [End]; none when [End]
    lies before [Start] on an axis. *)
Definition span_cells (Start End : UGridCell) : Z :=
  Z.max 0 (CX End - CX Start + 1) * Z.max 0 (CY End - CY Start + 1).

(** [Used] lies within the capacity. *)
Definition fits {T : Type} (l : UGridList T) : Prop :=
  0 <= Used l <= Size l.

(** Room for one more [Insert]: [Get] can still bring the capacity of
    either arena to [2 * Size + 1] without wrapping.  Room for a [Tick]:
    the [Used * 2] of the copy constructor does not wrap. *)
Definition insert_room (g : UGrid) : Prop :=
  Used (Entities g) < 2 ^ 31 /\ Used (References g) + CellsEnd g <= 2 ^ 31.

Definition tick_room (g : UGrid) : Prop :=
  Used (Entities g) < 2 ^ 31 /\ Used (References g) < 2 ^ 31.

(** Grids reached from a constructor over zeroed storage by calls of
    [Insert] (of an entity whose scratch field has its default value) and
    of [Tick], each made with room.  Along such a run [Used] stays within
    [Size] in both arenas, so every slot that the code reads or writes
    lies in the block that it has allocated: [operator[]], which is
    unchecked, is never used outside the storage. *)
Inductive bounded : UGrid -> Prop :=
| bounded_new : forall gc cd,
    geometry_ok gc -> bounded (UGrid_new gc cd grid_zero)
| bounded_Insert : forall g e g',
    bounded g -> Copied e = 0 -> insert_room g ->
    Insert g e = Some g' -> bounded g'
| bounded_Tick : forall fuel g r,
    bounded g -> tick_room g -> Tick fuel g = Some r ->
    bounded (grid_after (snd r)).

(** The arena after [n] calls of [Get] on a default-constructed one. *)
Definition arena_after (T : Type) `{Overlay T} (n : nat) : UGridList T :=
  match Get_n n UGridList_new with
  | Some (_, l) => l
  | None => UGridList_new
  end.

(** What [n] passes of the private [Insert] do to the link arena. *)
Record link_step (Index : Z) (g g' : UGrid) (n : Z) : Prop := {
  ls_ents : Entities g' = Entities g;
  ls_geom : GridCells g' = GridCells g;
  ls_free : Free (References g') = 0;
  ls_used : Used (References g') = Used (References g) + n;
  ls_old : forall s, 0 <= s < Used (References g) ->
             List (References g') s = List (References g) s;
  ls_new : forall s, Used (References g) <= s < Used (References g') ->
             exists r, load (References g') s = Some r /\ Ref r = Index;
  ls_fits : fits (References g) -> Used (References g) + n <= 2 ^ 31 ->
            fits (References g')
}.

(** An entity of negative width: its upper corner lies in a cell before
    the cell of its lower corner. *)
Definition inverted : UGridEntity := entity_at 15 5 (-6) 1.

(** The slot at which the chain of cell [k] starts when the chains of [v]
    are stored one after the other from slot 1 on. *)
Definition row_start (v : list (list Z)) (k : nat) : Z :=
  1 + Z.of_nat (length (concat (firstn k v))).

(** Grids reached like the [bounded] ones, where every inserted entity
    has a span of at least one cell: the cell of its upper corner does not
    lie before the cell of its lower corner. *)
Inductive spanned : UGrid -> Prop :=
| spanned_new : forall gc cd,
    geometry_ok gc -> spanned (UGrid_new gc cd grid_zero)
| spanned_Insert : forall g e Start End g',
    spanned g -> Copied e = 0 -> insert_room g ->
    PosToCell g (lower_corner e) = Some Start ->
    PosToCell g (upper_corner e) = Some End ->
    CX Start <= CX End -> CY Start <= CY End ->
    Insert g e = Some g' -> spanned g'
| spanned_Tick : forall fuel g r,
    spanned g -> tick_room g -> Tick fuel g = Some r ->
    spanned (grid_after (snd r)).

Definition grid_tall : UGrid :=
  or_else (insert_all grid_2x2 [tall]) grid_2x2.
Definition grid_wide : UGrid :=
  or_else (insert_all grid_2x2 [wide]) grid_2x2.

(** ** Basic facts *)

Lemma wrap32_small : forall z, 0 <= z < 2 ^ 32 -> wrap32 z = z.
Proof. intros z Hz. unfold wrap32. apply Z.mod_small. exact Hz. Qed.

Lemma wrap32_range : forall z, 0 <= wrap32 z < 2 ^ 32.
Proof. intro z. unfold wrap32. apply Z.mod_pos_bound. lia. Qed.

Lemma upd_same : forall (T : Type) (f : Z -> T) i v, upd f i v i = v.
Proof. intros. unfold upd. rewrite Z.eqb_refl. reflexivity. Qed.

Lemma upd_other : forall (T : Type) (f : Z -> T) i j v,
  j <> i -> upd f i v j = f j.
Proof.
  intros T f i j v Hne. unfold upd.
  destruct (j =? i) eqn:E; [apply Z.eqb_eq in E; contradiction | reflexivity].
Qed.

Lemma load_store_same : forall (T : Type) (l : UGridList T) i v,
  load (store l i v) i = Some v.
Proof. intros. unfold load, store. simpl. rewrite upd_same. reflexivity. Qed.

Lemma load_store_other : forall (T : Type) (l : UGridList T) i j v,
  j <> i -> load (store l i v) j = load l j.
Proof.
  intros. unfold load, store. simpl. rewrite upd_other by assumption.
  reflexivity.
Qed.

Lemma load_Full : forall (T : Type) (l : UGridList T) i v,
  load l i = Some v <-> List l i = Full v.
Proof.
  intros. unfold load. destruct (List l i); split; intro E;
    try discriminate; congruence.
Qed.

Lemma std_max_u32_max : forall a b, std_max_u32 a b = Z.max a b.
Proof. intros. unfold std_max_u32. destruct (a <? b) eqn:E; lia. Qed.

Lemma std_min_u32_min : forall a b, std_min_u32 a b = Z.min a b.
Proof. intros. unfold std_min_u32. destruct (b <? a) eqn:E; lia. Qed.

Lemma bind_Some : forall (A B : Type) (m : option A) (k : A -> option B) b,
  bind m k = Some b <-> exists a, m = Some a /\ k a = Some b.
Proof.
  intros. destruct m as [a|]; simpl; split.
  - intro E. exists a. auto.
  - intros [a' [E1 E2]]. congruence.
  - discriminate.
  - intros [a' [E1 _]]. discriminate.
Qed.

(** In a grid that never calls [Ret], [Get] hands out the next unused
    slot. *)
Lemma Get_fresh : forall (T : Type) (O : Overlay T) (l : UGridList T),
  Free l = 0 -> 0 <= Used l -> Used l + 1 < 2 ^ 32 ->
  exists l', Get l = Some (Used l, l') /\
             Used l' = Used l + 1 /\ Free l' = 0 /\
             (forall i, 0 <= i < Used l -> List l' i = List l i).
Proof.
  intros T O l HF H0 Hroom. unfold Get. rewrite HF. simpl.
  destruct (Used l =? Size l) eqn:E.
  - eexists. split; [reflexivity|]. simpl.
    rewrite wrap32_small by lia. repeat split; try assumption.
    intros i Hi.
    replace (0 <=? i) with true by (symmetry; apply Z.leb_le; lia).
    replace (i <? Used l) with true by (symmetry; apply Z.ltb_lt; lia).
    reflexivity.
  - eexists. split; [reflexivity|]. simpl.
    rewrite wrap32_small by lia. repeat split; try assumption.
Qed.

(** Segments only depend on the slots they visit. *)
Lemma lseg_ext : forall mem mem' c i j,
  (forall k e, In (k, e) c -> mem' k = mem k) ->
  lseg mem i j c -> lseg mem' i j c.
Proof.
  intros mem mem' c. induction c as [|[k e] c IH]; intros i j Hsame Hseg.
  - exact Hseg.
  - simpl in *. destruct Hseg as [Hi [Hk [nx [Hm Hrest]]]].
    split; [exact Hi|]. split; [exact Hk|].
    exists nx. split.
    + rewrite (Hsame k e) by (left; reflexivity). exact Hm.
    + apply IH; [|exact Hrest]. intros k' e' Hin. apply (Hsame k' e').
      right. exact Hin.
Qed.

Lemma lseg_app : forall mem c1 c2 i j k,
  lseg mem i j c1 -> lseg mem j k c2 -> lseg mem i k (c1 ++ c2).
Proof.
  intros mem c1. induction c1 as [|[s e] c1 IH]; intros c2 i j k H1 H2.
  - simpl in *. subst. exact H2.
  - simpl in *. destruct H1 as [Hi [Hs [nx [Hm Hrest]]]].
    split; [exact Hi|]. split; [exact Hs|].
    exists nx. split; [exact Hm|]. eapply IH; eassumption.
Qed.

Lemma lseg_fun : forall mem c1 c2 i,
  lseg mem i 0 c1 -> lseg mem i 0 c2 -> c1 = c2.
Proof.
  intros mem c1. induction c1 as [|[s e] c1 IH]; intros c2 i H1 H2.
  - simpl in H1. subst. destruct c2 as [|[s' e'] c2]; [reflexivity|].
    simpl in H2. destruct H2 as [Hi [Hs _]]. congruence.
  - simpl in H1. destruct H1 as [Hi [Hs [nx [Hm Hrest]]]]. subst i.
    destruct c2 as [|[s' e'] c2].
    + simpl in H2. congruence.
    + simpl in H2. destruct H2 as [Hi' [Hs' [nx' [Hm' Hrest']]]]. subst s'.
      rewrite Hm in Hm'. inversion Hm'; subst.
      f_equal. eapply IH; eassumption.
Qed.

(** Walking a chain with enough fuel reads off its referents. *)
Lemma chain_refs_chain : forall l c fuel i,
  chain (List l) i c -> (length c <= fuel)%nat ->
  chain_refs fuel l i = map snd c.
Proof.
  intros l c. induction c as [|[s e] c IH]; intros fuel i Hc Hlen.
  - unfold chain in Hc. simpl in Hc. subst.
    destruct fuel; reflexivity.
  - unfold chain in Hc. simpl in Hc.
    destruct Hc as [Hi [Hs [nx [Hm Hrest]]]]. subst i.
    destruct fuel as [|fuel]; [simpl in Hlen; lia|].
    simpl. destruct (s =? 0) eqn:E; [apply Z.eqb_eq in E; contradiction|].
    apply load_Full in Hm. rewrite Hm. simpl.
    f_equal. apply IH; [exact Hrest | simpl in Hlen; lia].
Qed.

Lemma length_concat_le : forall (A : Type) (c : list A) (ll : list (list A)),
  In c ll -> (length c <= length (concat ll))%nat.
Proof.
  intros A c ll. induction ll as [|d ll IH]; intro Hin; [destruct Hin|].
  simpl. rewrite length_app. destruct Hin as [->|Hin]; [lia|].
  specialize (IH Hin). lia.
Qed.

Lemma map_chain_refs : forall l fuel hs cs,
  Forall2 (chain (List l)) hs cs ->
  (forall c, In c cs -> (length c <= fuel)%nat) ->
  map (chain_refs fuel l) hs = map (map snd) cs.
Proof.
  intros l fuel hs cs HF. induction HF as [|h c hs cs Hc HF IH]; intro Hfuel;
    [reflexivity|].
  simpl. f_equal.
  - apply chain_refs_chain; [exact Hc|]. apply Hfuel. left. reflexivity.
  - apply IH. intros c' Hin. apply Hfuel. right. exact Hin.
Qed.

Lemma view_wf : forall g sv, wf g sv -> view g = map (map snd) sv.
Proof.
  intros g sv Hwf. unfold view.
  apply map_chain_refs; [exact (wf_chains _ _ Hwf)|].
  intros c Hin. apply length_concat_le in Hin.
  rewrite (wf_count _ _ Hwf). lia.
Qed.

Lemma Forall2_repeat : forall (A B : Type) (R : A -> B -> Prop) a b n,
  R a b -> Forall2 R (repeat a n) (repeat b n).
Proof. intros. induction n; simpl; constructor; assumption. Qed.

Lemma map_const_repeat : forall (A B : Type) (b : B) (l : list A),
  map (fun _ => b) l = repeat b (length l).
Proof. intros. induction l; simpl; congruence. Qed.

Lemma concat_repeat_nil : forall (A : Type) n,
  concat (repeat (@nil A) n) = [].
Proof. intros. induction n; simpl; [reflexivity | assumption]. Qed.

(** A grid constructed over zeroed storage has only empty chains. *)
Lemma wf_new : forall gc cd,
  geometry_ok gc ->
  wf (UGrid_new gc cd grid_zero)
     (repeat [] (Z.to_nat (CX gc * CY gc))).
Proof.
  intros gc cd Hg. pose proof Hg as [Hx [Hy Hxy]].
  assert (Hw : wrap32 (CX gc * CY gc) = CX gc * CY gc)
    by (apply wrap32_small; nia).
  constructor; unfold UGrid_new; simpl; rewrite ?Hw;
    rewrite ?length_map, ?length_seq, ?concat_repeat_nil; simpl;
    try (lia || nia || reflexivity || assumption).
  - unfold grid_zero. rewrite map_const_repeat, length_seq.
    apply Forall2_repeat. reflexivity.
  - constructor.
  - apply Forall_forall. intros c Hin. apply repeat_spec in Hin. subst.
    constructor.
Qed.

(** ** Insert *)

Lemma set_nth_app : forall (A : Type) (l1 l2 : list A) a v,
  set_nth (length l1) v (l1 ++ a :: l2) = l1 ++ v :: l2.
Proof.
  intros A l1. induction l1 as [|b l1 IH]; intros l2 a v; simpl.
  - reflexivity.
  - f_equal. apply IH.
Qed.

Lemma nth_error_mid : forall (A : Type) (l1 l2 : list A) a,
  nth_error (l1 ++ a :: l2) (length l1) = Some a.
Proof.
  intros A l1. induction l1 as [|b l1 IH]; intros l2 a; simpl.
  - reflexivity.
  - apply IH.
Qed.

Lemma Forall2_split_r : forall (A B : Type) (R : A -> B -> Prop) l s1 c s2,
  Forall2 R l (s1 ++ c :: s2) ->
  exists l1 h l2, l = l1 ++ h :: l2 /\ length l1 = length s1 /\
                  Forall2 R l1 s1 /\ R h c /\ Forall2 R l2 s2.
Proof.
  intros A B R l s1 c s2 HF.
  apply Forall2_app_inv_r in HF. destruct HF as [l1 [l' [H1 [H2 ->]]]].
  inversion H2 as [|h c' l2 s2' Hh Hl2]; subst.
  exists l1, h, l2. repeat split; try assumption.
  eapply Forall2_length; eassumption.
Qed.

Lemma Forall2_impl_in : forall (A B : Type) (R R' : A -> B -> Prop) l s,
  (forall a b, In b s -> R a b -> R' a b) ->
  Forall2 R l s -> Forall2 R' l s.
Proof.
  intros A B R R' l s Himp HF. induction HF as [|a b l s Hab HF IH].
  - constructor.
  - constructor.
    + apply Himp; [left; reflexivity | exact Hab].
    + apply IH. intros a' b' Hin. apply Himp. right. exact Hin.
Qed.

Lemma in_concat_mid : forall (A : Type) (x : A) s1 c s2,
  In x (concat (s1 ++ c :: s2)) <->
  In x c \/ In x (concat (s1 ++ s2)).
Proof.
  intros. rewrite !concat_app. simpl. rewrite !in_app_iff. tauto.
Qed.

(** The head of a chain is its first slot. *)
Lemma chain_head : forall mem i c,
  chain mem i c -> i = match c with [] => 0 | (k, _) :: _ => k end.
Proof.
  intros mem i c Hc. destruct c as [|[k e] c]; simpl in Hc.
  - exact Hc.
  - destruct Hc as [Hi _]. exact Hi.
Qed.

Lemma Insert_link_wf : forall g s1 c s2 Index,
  wf g (s1 ++ c :: s2) ->
  Used (References g) + 1 < 2 ^ 32 ->
  1 <= Index < Used (Entities g) ->
  ~ In Index (map snd c) ->
  exists g',
    Insert_link g (Z.of_nat (length s1)) Index = Some g' /\
    wf g' (s1 ++ ((Used (References g), Index) :: c) :: s2) /\
    Entities g' = Entities g /\
    Used (References g') = Used (References g) + 1 /\
    GridCells g' = GridCells g /\
    InverseCellDim g' = InverseCellDim g /\
    CellsEnd g' = CellsEnd g.
Proof.
  intros g s1 c s2 Index Hwf Hroom HIndex Hnew.
  pose proof (wf_chains _ _ Hwf) as HF.
  apply Forall2_split_r in HF.
  destruct HF as [h1 [h [h2 [HCells [Hlen [HF1 [Hc HF2]]]]]]].
  pose proof (wf_count _ _ Hwf) as Hcount.
  destruct (Get_fresh _ _ (References g) (wf_freeR _ _ Hwf))
    as [refs [HGet [HUsed [HFree Hsame]]]]; [lia | lia |].
  unfold Insert_link. rewrite HGet. simpl.
  assert (Hin : (0 <=? Z.of_nat (length s1)) &&
                (Z.of_nat (length s1) <? Z.of_nat (length (Cells g))) = true).
  { rewrite HCells, length_app. simpl.
    apply andb_true_intro. split; [apply Z.leb_le | apply Z.ltb_lt]; lia. }
  assert (Hnth : nth_error (Cells g) (length s1) = Some h)
    by (rewrite HCells, <- Hlen; apply nth_error_mid).
  unfold read_cell. rewrite Hin.
  rewrite Nat2Z.id, Hnth. simpl.
  unfold write_cell. simpl. rewrite Hin. rewrite Nat2Z.id.
  eexists. split; [reflexivity|].
  set (U := Used (References g)) in *.
  assert (Hold : forall k e, In (k, e) (concat (s1 ++ c :: s2)) ->
            upd (List refs) U (Full {| Next := h; Ref := Index |}) k
            = List (References g) k).
  { intros k e Hin'. pose proof (wf_slots _ _ Hwf k e Hin') as Hk.
    fold U in Hk. rewrite upd_other by lia. apply Hsame. lia. }
  split; [|simpl; repeat split; try reflexivity; exact HUsed].
  constructor; unfold set_Cells, set_References, store; grid_simpl.
  - rewrite (wf_end _ _ Hwf). rewrite HCells, <- Hlen, set_nth_app.
    rewrite !length_app. reflexivity.
  - exact (wf_past _ _ Hwf).
  - exact (wf_geom _ _ Hwf).
  - rewrite <- (wf_cells _ _ Hwf). rewrite HCells, <- Hlen, set_nth_app.
    rewrite !length_app. reflexivity.
  - rewrite HCells, <- Hlen, set_nth_app.
    apply Forall2_app; [|constructor].
    + eapply Forall2_impl_in; [|exact HF1].
      intros a b Hb. apply lseg_ext. intros k e Hin'. apply (Hold k e).
      rewrite concat_app. apply in_or_app. left.
      apply in_concat. exists b. split; assumption.
    + unfold chain. simpl. split; [reflexivity|]. split; [lia|].
      exists h. split; [apply upd_same|].
      eapply lseg_ext; [|exact Hc]. intros k e Hin'. apply (Hold k e).
      apply in_concat_mid. left. exact Hin'.
    + eapply Forall2_impl_in; [|exact HF2].
      intros a b Hb. apply lseg_ext. intros k e Hin'. apply (Hold k e).
      apply in_concat_mid. right. rewrite concat_app. apply in_or_app. right.
      apply in_concat. exists b. split; assumption.
  - exact (wf_freeE _ _ Hwf).
  - exact HFree.
  - intros k e Hin'. rewrite HUsed.
    apply in_concat_mid in Hin'. destruct Hin' as [[Heq|Hin']|Hin'].
    + inversion Heq; subst. lia.
    + assert (1 <= k < U); [|lia]. apply (wf_slots _ _ Hwf k e).
      apply in_concat_mid. left. exact Hin'.
    + assert (1 <= k < U); [|lia]. apply (wf_slots _ _ Hwf k e).
      apply in_concat_mid. right. exact Hin'.
  - pose proof (wf_nodup _ _ Hwf) as Hnd.
    rewrite concat_app, map_app in Hnd |- *.
    change (concat (c :: s2)) with (c ++ concat s2) in Hnd.
    change (map fst (concat (((U, Index) :: c) :: s2)))
      with (U :: map fst (c ++ concat s2)).
    apply NoDup_Add with (a := U) (l := map fst (concat s1) ++ map fst (c ++ concat s2)).
    + apply Add_app.
    + split; [exact Hnd|].
      intro Hin'. rewrite <- map_app in Hin'. apply in_map_iff in Hin'.
      destruct Hin' as [[k e] [Hk Hin']]. simpl in Hk. subst k.
      assert (1 <= U < U); [|lia]. apply (wf_slots _ _ Hwf U e).
      rewrite concat_app. exact Hin'.
  - rewrite HUsed. rewrite Hcount.
    rewrite !concat_app. cbn [concat]. rewrite !length_app. cbn [length app].
    rewrite ?length_app. lia.
  - rewrite HUsed. lia.
  - exact (wf_usedE _ _ Hwf).
  - intros k e Hin'.
    apply in_concat_mid in Hin'. destruct Hin' as [[Heq|Hin']|Hin'].
    + inversion Heq; subst. exact HIndex.
    + apply (wf_refs _ _ Hwf k e). apply in_concat_mid. left. exact Hin'.
    + apply (wf_refs _ _ Hwf k e). apply in_concat_mid. right. exact Hin'.
  - exact (wf_ents _ _ Hwf).
  - pose proof (wf_chain_nodup _ _ Hwf) as Hcn.
    apply Forall_app in Hcn. destruct Hcn as [Hcn1 Hcn2].
    inversion Hcn2 as [|c' s2' Hc' Hcn3]; subst.
    apply Forall_app. split; [exact Hcn1|]. constructor; [|exact Hcn3].
    simpl. constructor; assumption.
Qed.

Lemma linked_refl : forall U0 Index sv0,
  linked U0 Index (fun _ => False) sv0 sv0.
Proof.
  intros. split; [reflexivity|]. intros k Hk. split; [intros []|reflexivity].
Qed.

Lemma linked_ext : forall U0 Index V V' sv0 sv,
  (forall k, V k <-> V' k) ->
  linked U0 Index V sv0 sv -> linked U0 Index V' sv0 sv.
Proof.
  intros U0 Index V V' sv0 sv Heq [Hlen Hl]. split; [exact Hlen|].
  intros k Hk. destruct (Hl k Hk) as [H1 H2]. split.
  - intro HV. apply H1. apply Heq. exact HV.
  - intro HV. apply H2. intro HV'. apply HV. apply Heq. exact HV'.
Qed.

Lemma nth_mid : forall (A : Type) (l1 l2 : list A) a d,
  nth (length l1) (l1 ++ a :: l2) d = a.
Proof.
  intros. rewrite app_nth2 by lia. rewrite Nat.sub_diag. reflexivity.
Qed.

Lemma nth_mid_other : forall (A : Type) (l1 l2 : list A) a b d k,
  k <> length l1 ->
  nth k (l1 ++ a :: l2) d = nth k (l1 ++ b :: l2) d.
Proof.
  intros A l1 l2 a b d k Hk.
  destruct (Nat.lt_ge_cases k (length l1)) as [Hlt|Hge].
  - rewrite !app_nth1 by assumption. reflexivity.
  - rewrite !app_nth2 by assumption.
    destruct (k - length l1)%nat as [|m] eqn:E; [lia|]. reflexivity.
Qed.

Lemma linked_step : forall U0 Index V sv0 s1 c s2 U,
  linked U0 Index V sv0 (s1 ++ c :: s2) ->
  ~ V (Z.of_nat (length s1)) -> U0 <= U ->
  linked U0 Index (fun k => V k \/ k = Z.of_nat (length s1)) sv0
         (s1 ++ ((U, Index) :: c) :: s2).
Proof.
  intros U0 Index V sv0 s1 c s2 U [Hlen Hl] HnV HU. split.
  - rewrite <- Hlen. rewrite !length_app. reflexivity.
  - intros k Hk. destruct (Hl k Hk) as [H1 H2].
    destruct (Nat.eq_dec k (length s1)) as [->|Hne].
    + rewrite nth_mid. split.
      * intros _. exists U. split; [exact HU|].
        rewrite <- (H2 HnV). rewrite nth_mid. reflexivity.
      * intro Hn. exfalso. apply Hn. right. reflexivity.
    + rewrite (nth_mid_other _ s1 s2 _ c) by exact Hne. split.
      * intros [HV|Heq]; [apply H1; exact HV | lia].
      * intro Hn. apply H2. intro HV. apply Hn. left. exact HV.
Qed.

Lemma in_nth_concat : forall (A : Type) (x : A) (ll : list (list A)) k,
  In x (nth k ll []) -> In x (concat ll).
Proof.
  intros A x ll k Hin.
  destruct (Nat.lt_ge_cases k (length ll)) as [Hlt|Hge].
  - apply in_concat. exists (nth k ll []). split; [|exact Hin].
    apply nth_In. exact Hlt.
  - rewrite nth_overflow in Hin by exact Hge. destruct Hin.
Qed.

Lemma Insert_Y_spec : forall n g sv Xc Yc EndY Index U0 sv0 V,
  wf g sv -> linked U0 Index V sv0 sv -> U0 <= Used (References g) ->
  0 <= Xc < CX (GridCells g) -> 0 <= Yc -> EndY < CY (GridCells g) ->
  Used (References g) + (EndY - Yc + 1) < 2 ^ 32 ->
  1 <= Index < Used (Entities g) ->
  (forall k e, In (k, e) (concat sv0) -> e < Index) ->
  (forall y, Yc <= y <= EndY -> ~ V (Xc * CY (GridCells g) + y)) ->
  EndY - Yc + 1 <= Z.of_nat n ->
  exists g' sv',
    Insert_Y n g Xc Yc EndY Index = Some g' /\
    wf g' sv' /\
    linked U0 Index
      (fun k => V k \/
                exists y, Yc <= y <= EndY /\ k = Xc * CY (GridCells g) + y)
      sv0 sv' /\
    Entities g' = Entities g /\
    GridCells g' = GridCells g /\
    InverseCellDim g' = InverseCellDim g /\
    CellsEnd g' = CellsEnd g /\
    Used (References g) <= Used (References g') <=
      Used (References g) + Z.max 0 (EndY - Yc + 1).
Proof.
  induction n as [|n IH];
    intros g sv Xc Yc EndY Index U0 sv0 V Hwf Hl HU0 HX HY HE Hroom HI Hold
      HnV Hn.
  - assert (Hgt : (Yc <=? EndY) = false) by (apply Z.leb_gt; lia).
    simpl. rewrite Hgt. exists g, sv.
    conj; try reflexivity; try assumption; try lia.
    eapply linked_ext; [|exact Hl].
    intro k. split; [intro HV; left; exact HV|].
    intros [HV|[y [Hy _]]]; [exact HV | lia].
  - destruct (Yc <=? EndY) eqn:Hle.
    2:{ apply Z.leb_gt in Hle. simpl. apply Z.leb_gt in Hle. rewrite Hle.
        apply Z.leb_gt in Hle. exists g, sv.
        conj; try reflexivity; try assumption; try lia.
        eapply linked_ext; [|exact Hl].
        intro k. split; [intro HV; left; exact HV|].
        intros [HV|[y [Hy _]]]; [exact HV | lia]. }
    apply Z.leb_le in Hle.
    pose proof (wf_geom _ _ Hwf) as [Hgx [Hgy Hgxy]].
    set (GY := CY (GridCells g)) in *.
    assert (Hcell : 0 <= Xc * GY + Yc < CX (GridCells g) * GY) by nia.
    assert (Hw : wrap32 (Xc * GY) + Yc = Xc * GY + Yc).
    { rewrite (wrap32_small (Xc * GY)) by nia. reflexivity. }
    pose proof (wf_cells _ _ Hwf) as Hcells. fold GY in Hcells.
    pose proof (Forall2_length (wf_chains _ _ Hwf)) as Hlen.
    destruct Hl as [Hll Hl'].
    assert (Hk0 : (Z.to_nat (Xc * GY + Yc) < length sv)%nat) by lia.
    destruct (nth_error sv (Z.to_nat (Xc * GY + Yc))) as [c|] eqn:Hnth;
      [|apply nth_error_None in Hnth; lia].
    apply nth_error_split in Hnth. destruct Hnth as [s1 [s2 [Hsv Hs1]]].
    subst sv.
    assert (Hcellk : Z.of_nat (length s1) = Xc * GY + Yc) by lia.
    assert (HnVc : ~ V (Z.of_nat (length s1))).
    { rewrite Hcellk. apply HnV. lia. }
    assert (Hc0 : c = nth (length s1) sv0 []).
    { destruct (Hl' (length s1)) as [_ H2]; [lia|].
      rewrite <- (H2 HnVc). rewrite nth_mid. reflexivity. }
    destruct (Insert_link_wf g s1 c s2 Index Hwf) as
      [g1 [HIns [Hwf1 [HE1 [HU1 [HG1 [HI1 HC1]]]]]]]; [lia | exact HI | |].
    { intro Hin. apply in_map_iff in Hin. destruct Hin as [[k e] [He Hin]].
      simpl in He. subst e. rewrite Hc0 in Hin.
      apply in_nth_concat in Hin. apply Hold in Hin. lia. }
    destruct (IH g1 _ Xc (Yc + 1) EndY Index U0 sv0
                (fun k => V k \/ k = Z.of_nat (length s1)) Hwf1)
      as [g2 [sv2 [HIns2 [Hwf2 [Hl2 [HE2 [HG2 [HI2 [HC2 HU2]]]]]]]]];
      rewrite ?HG1, ?HE1, ?HU1; try lia; try assumption.
    { apply linked_step; [split; assumption | exact HnVc | exact HU0]. }
    { intros y Hy [HV|Heq]; [apply (HnV y); [lia | exact HV]|].
      fold GY in Heq. lia. }
    exists g2, sv2.
    cbn [Insert_Y]. replace (Yc <=? EndY) with true by (symmetry; apply Z.leb_le; exact Hle).
    fold GY. rewrite Hw, <- Hcellk, HIns. cbn [bind].
    rewrite (wrap32_small (Yc + 1)) by lia. rewrite HIns2.
    rewrite HG1 in *. rewrite HU1 in HU2. fold GY in Hl2.
    conj; try congruence; try lia.
    eapply linked_ext; [|exact Hl2]. intro k. split.
    + intros [[HV|Heq]|[y [Hy Hk]]].
      * left. exact HV.
      * right. exists Yc. split; [lia | lia].
      * right. exists y. split; [lia | exact Hk].
    + intros [HV|[y [Hy Hk]]]; [left; left; exact HV|].
      destruct (Z.eq_dec y Yc) as [->|Hne].
      * left. right. lia.
      * right. exists y. split; [lia | exact Hk].
Qed.

Lemma Insert_X_spec : forall n g sv Xc EndX StartY EndY Index U0 sv0 V,
  wf g sv -> linked U0 Index V sv0 sv -> U0 <= Used (References g) ->
  0 <= Xc -> EndX < CX (GridCells g) ->
  0 <= StartY -> EndY < CY (GridCells g) ->
  Used (References g) + (EndX - Xc + 1) * CY (GridCells g) < 2 ^ 32 ->
  1 <= Index < Used (Entities g) ->
  (forall k e, In (k, e) (concat sv0) -> e < Index) ->
  (forall x y, Xc <= x <= EndX -> StartY <= y <= EndY ->
               ~ V (x * CY (GridCells g) + y)) ->
  EndX - Xc + 1 <= Z.of_nat n ->
  exists g' sv',
    Insert_X n g Xc EndX StartY EndY Index = Some g' /\
    wf g' sv' /\
    linked U0 Index
      (fun k => V k \/
                exists x y, Xc <= x <= EndX /\ StartY <= y <= EndY /\
                            k = x * CY (GridCells g) + y)
      sv0 sv' /\
    Entities g' = Entities g /\
    GridCells g' = GridCells g /\
    InverseCellDim g' = InverseCellDim g /\
    CellsEnd g' = CellsEnd g /\
    Used (References g) <= Used (References g').
Proof.
  induction n as [|n IH];
    intros g sv Xc EndX StartY EndY Index U0 sv0 V Hwf Hl HU0 HX HEX HSY HEY
      Hroom HI Hold HnV Hn.
  - assert (Hgt : (Xc <=? EndX) = false) by (apply Z.leb_gt; lia).
    simpl. rewrite Hgt. exists g, sv.
    conj; try reflexivity; try assumption; try lia.
    eapply linked_ext; [|exact Hl].
    intro k. split; [intro HV; left; exact HV|].
    intros [HV|[x [y [Hx _]]]]; [exact HV | lia].
  - destruct (Xc <=? EndX) eqn:Hle.
    2:{ cbn [Insert_X]. rewrite Hle. apply Z.leb_gt in Hle. exists g, sv.
        conj; try reflexivity; try assumption; try lia.
        eapply linked_ext; [|exact Hl].
        intro k. split; [intro HV; left; exact HV|].
        intros [HV|[x [y [Hx _]]]]; [exact HV | lia]. }
    pose proof Hle as Hle'. apply Z.leb_le in Hle'.
    pose proof (wf_geom _ _ Hwf) as [Hgx [Hgy Hgxy]].
    set (GY := CY (GridCells g)) in *.
    assert (Hrow : GY <= (EndX - Xc + 1) * GY) by nia.
    assert (Hcx : CX (GridCells g) <= CX (GridCells g) * GY) by nia.
    assert (Hrest : (EndX - (Xc + 1) + 1) * GY = (EndX - Xc + 1) * GY - GY)
      by ring.
    destruct (Insert_Y_spec (Z.to_nat (EndY - StartY + 1)) g sv Xc StartY EndY
                Index U0 sv0 V Hwf Hl)
      as [g1 [sv1 [HIns1 [Hwf1 [Hl1 [HE1 [HG1 [HI1 [HC1 HU1]]]]]]]]];
      try assumption; fold GY; try lia; try nia.
    { intros y Hy. apply HnV; lia. }
    fold GY in Hl1.
    destruct (IH g1 sv1 (Xc + 1) EndX StartY EndY Index U0 sv0
                (fun k => V k \/
                   exists y, StartY <= y <= EndY /\ k = Xc * GY + y)
                Hwf1 Hl1)
      as [g2 [sv2 [HIns2 [Hwf2 [Hl2 [HE2 [HG2 [HI2 [HC2 HU2]]]]]]]]];
      rewrite ?HG1, ?HE1; fold GY; try assumption; try lia; try nia.
    { intros x y Hx Hy [HV|[y' [Hy' Heq]]].
      - apply (HnV x y); [lia | lia | exact HV].
      - assert (GY <= (x - Xc) * GY) by nia.
        assert ((x - Xc) * GY = x * GY - Xc * GY) by ring. lia. }
    exists g2, sv2.
    cbn [Insert_X]. rewrite Hle, HIns1. cbn [bind].
    rewrite (wrap32_small (Xc + 1)) by lia. rewrite HIns2.
    rewrite HG1 in *. fold GY in Hl2.
    conj; try congruence; try lia.
    eapply linked_ext; [|exact Hl2]. intro k. split.
    + intros [[HV|[y [Hy Hk]]]|[x [y [Hx [Hy Hk]]]]].
      * left. exact HV.
      * right. exists Xc, y. split; [lia|]. split; [lia | exact Hk].
      * right. exists x, y. split; [lia|]. split; [lia | exact Hk].
    + intros [HV|[x [y [Hx [Hy Hk]]]]]; [left; left; exact HV|].
      destruct (Z.eq_dec x Xc) as [->|Hne].
      * left. right. exists y. split; [lia | exact Hk].
      * right. exists x, y. split; [lia|]. split; [lia | exact Hk].
Qed.

(** [PosToCell] only reads the geometry. *)
Lemma PosToCell_geometry : forall g g' P,
  GridCells g' = GridCells g -> InverseCellDim g' = InverseCellDim g ->
  PosToCell g' P = PosToCell g P.
Proof. intros g g' P HG HI. unfold PosToCell. rewrite HG, HI. reflexivity. Qed.

Lemma f32_to_u32_range : forall f z, f32_to_u32 f = Some z -> 0 <= z < 2 ^ 32.
Proof.
  intros f z. unfold f32_to_u32. destruct (f32_trunc f) as [t|]; [|discriminate].
  destruct ((0 <=? t) && (t <? 2 ^ 32)) eqn:E; [|discriminate].
  intro Heq. inversion Heq; subst.
  apply andb_prop in E. destruct E as [E1 E2].
  apply Z.leb_le in E1. apply Z.ltb_lt in E2. lia.
Qed.

Lemma PosToCell_range : forall g P c,
  geometry_ok (GridCells g) -> PosToCell g P = Some c ->
  0 <= CX c <= CX (GridCells g) - 1 /\ 0 <= CY c <= CY (GridCells g) - 1.
Proof.
  intros g P c [Hx [Hy Hxy]] HP. unfold PosToCell in HP.
  apply bind_Some in HP. destruct HP as [x [Hfx HP]].
  apply bind_Some in HP. destruct HP as [y [Hfy HP]].
  inversion HP; subst; clear HP. simpl.
  apply f32_to_u32_range in Hfx. apply f32_to_u32_range in Hfy.
  rewrite !std_min_u32_min.
  rewrite (wrap32_small (CX (GridCells g) - 1)) by nia.
  rewrite (wrap32_small (CY (GridCells g) - 1)) by nia.
  lia.
Qed.

Lemma Insert_wf : forall g sv e Start End,
  wf g sv -> has_room g ->
  PosToCell g (lower_corner e) = Some Start ->
  PosToCell g (upper_corner e) = Some End ->
  exists g' sv',
    Insert g e = Some g' /\
    wf g' sv' /\
    linked (Used (References g)) (Used (Entities g)) (in_span g Start End)
           sv sv' /\
    load (Entities g') (Used (Entities g)) = Some e /\
    Used (Entities g') = Used (Entities g) + 1 /\
    (forall i, 1 <= i < Used (Entities g) ->
               load (Entities g') i = load (Entities g) i) /\
    GridCells g' = GridCells g /\
    InverseCellDim g' = InverseCellDim g /\
    CellsEnd g' = CellsEnd g.
Proof.
  intros g sv e Start End Hwf [HroomE HroomR] HS HE.
  pose proof (wf_usedE _ _ Hwf) as HUE.
  pose proof (wf_geom _ _ Hwf) as Hgeom. pose proof Hgeom as [Hgx [Hgy Hgxy]].
  destruct (Get_fresh _ _ (Entities g) (wf_freeE _ _ Hwf))
    as [ents [HGet [HUsed [HFree Hsame]]]]; [lia | lia |].
  set (Index := Used (Entities g)) in *.
  set (g1 := set_Entities g (store ents Index e)).
  assert (Hwf1 : wf g1 sv).
  { destruct Hwf. constructor; unfold g1, set_Entities, store; grid_simpl;
      try assumption; try lia.
    - intros k e' Hin. specialize (wf_refs0 k e' Hin). lia.
    - intros e' He'. destruct (Z.eq_dec e' Index) as [->|Hne].
      + exists e. unfold load. cbn [List]. rewrite upd_same. reflexivity.
      + destruct (wf_ents0 e') as [ent Hent]; [lia|]. exists ent.
        unfold load in *. cbn [List]. rewrite upd_other by exact Hne.
        rewrite Hsame by lia. exact Hent. }
  pose proof (PosToCell_range _ _ _ Hgeom HS) as [HSx HSy].
  pose proof (PosToCell_range _ _ _ Hgeom HE) as [HEx HEy].
  destruct (Insert_X_spec (Z.to_nat (CX End - CX Start + 1)) g1 sv
              (CX Start) (CX End) (CY Start) (CY End) Index
              (Used (References g)) sv (fun _ => False) Hwf1
              (linked_refl _ _ _))
    as [g2 [sv2 [HIns [Hwf2 [Hl2 [HE2 [HG2 [HI2 [HC2 HU2]]]]]]]]];
    try (cbn; lia); try (cbn; tauto).
  { rewrite (wf_end _ _ Hwf), (wf_cells _ _ Hwf) in HroomR. cbn.
    assert ((CX End - CX Start + 1) * CY (GridCells g)
            <= CX (GridCells g) * CY (GridCells g)) by nia.
    lia. }
  { intros k e' Hin. pose proof (wf_refs _ _ Hwf k e' Hin). lia. }
  exists g2, sv2. unfold Insert. rewrite HGet. cbn [bind].
  fold Index. fold (lower_corner e). fold (upper_corner e).
  fold g1.
  rewrite (PosToCell_geometry g g1) by reflexivity.
  rewrite (PosToCell_geometry g g1) by reflexivity.
  rewrite HS, HE. cbn [bind]. rewrite HIns.
  conj; try congruence; try reflexivity.
  - eapply linked_ext; [|exact Hl2]. intro k. unfold in_span. cbn. tauto.
  - rewrite HE2. unfold g1. cbn [Entities set_Entities].
    apply load_store_same.
  - rewrite HE2. cbn [Used]. exact HUsed.
  - intros i Hi. rewrite HE2. unfold g1. cbn [Entities set_Entities].
    rewrite load_store_other by lia. unfold load.
    rewrite Hsame by lia. reflexivity.
  - rewrite HG2. reflexivity.
  - rewrite HI2. reflexivity.
  - rewrite HC2. reflexivity.
Qed.

(** ** Compaction order *)

Lemma rank_range : forall seen e, 0 <= rank seen e <= Z.of_nat (length seen).
Proof.
  induction seen as [|x seen IH]; intro e; simpl; [lia|].
  specialize (IH e).
  destruct (e =? x); [lia|]. destruct (rank seen e =? 0); lia.
Qed.

Lemma rank_zero_iff : forall seen e, rank seen e = 0 <-> ~ In e seen.
Proof.
  induction seen as [|x seen IH]; intro e; simpl.
  - tauto.
  - pose proof (rank_range seen e) as Hr. specialize (IH e).
    destruct (e =? x) eqn:E.
    + apply Z.eqb_eq in E. subst. split; [lia | intro Hn; exfalso; auto].
    + apply Z.eqb_neq in E. destruct (rank seen e =? 0) eqn:E0.
      * apply Z.eqb_eq in E0. split; [|reflexivity].
        intros _ [Hx|Hin]; [congruence | tauto].
      * apply Z.eqb_neq in E0. split; [lia|].
        intro Hn. exfalso. apply E0. apply IH. tauto.
Qed.

Lemma rank_app_old : forall seen l e,
  rank seen e <> 0 -> rank (seen ++ l) e = rank seen e.
Proof.
  induction seen as [|x seen IH]; intros l e Hr; simpl in *; [contradiction|].
  destruct (e =? x); [reflexivity|].
  destruct (rank seen e =? 0) eqn:E0; [contradiction|].
  apply Z.eqb_neq in E0. rewrite (IH l e E0).
  apply Z.eqb_neq in E0. rewrite E0. reflexivity.
Qed.

Lemma rank_app_new : forall seen e,
  rank seen e = 0 -> rank (seen ++ [e]) e = Z.of_nat (length seen) + 1.
Proof.
  induction seen as [|x seen IH]; intros e Hr; simpl in *.
  - rewrite Z.eqb_refl. reflexivity.
  - destruct (e =? x); [discriminate|].
    destruct (rank seen e =? 0) eqn:E0.
    + apply Z.eqb_eq in E0. rewrite (IH e E0).
      replace (Z.of_nat (length seen) + 1 =? 0) with false
        by (symmetry; apply Z.eqb_neq; lia).
      lia.
    + pose proof (rank_range seen e). apply Z.eqb_neq in E0. lia.
Qed.

Lemma rank_app_other : forall seen e e',
  e' <> e -> rank (seen ++ [e]) e' = rank seen e'.
Proof.
  induction seen as [|x seen IH]; intros e e' Hne; simpl.
  - replace (e' =? e) with false by (symmetry; apply Z.eqb_neq; exact Hne).
    reflexivity.
  - destruct (e' =? x); [reflexivity|]. rewrite (IH e e' Hne). reflexivity.
Qed.

Lemma rank_nth : forall seen e,
  rank seen e <> 0 -> nth (Z.to_nat (rank seen e - 1)) seen 0 = e.
Proof.
  induction seen as [|x seen IH]; intros e Hr; simpl in *; [contradiction|].
  destruct (e =? x) eqn:E.
  - apply Z.eqb_eq in E. subst. reflexivity.
  - destruct (rank seen e =? 0) eqn:E0; [contradiction|].
    apply Z.eqb_neq in E0. pose proof (rank_range seen e) as Hrange.
    replace (Z.to_nat (rank seen e + 1 - 1)) with (S (Z.to_nat (rank seen e - 1)))
      by lia.
    apply IH. exact E0.
Qed.

Lemma nth_rank : forall seen i,
  NoDup seen -> (i < length seen)%nat ->
  rank seen (nth i seen 0) = Z.of_nat i + 1.
Proof.
  induction seen as [|x seen IH]; intros i Hnd Hi; simpl in *; [lia|].
  inversion Hnd as [|x' l' Hx Hnd']; subst.
  destruct i as [|i].
  - rewrite Z.eqb_refl. reflexivity.
  - assert (Hin : In (nth i seen 0) seen) by (apply nth_In; lia).
    destruct (nth i seen 0 =? x) eqn:E.
    + apply Z.eqb_eq in E. subst. contradiction.
    + rewrite (IH i Hnd') by lia.
      replace (Z.of_nat i + 1 =? 0) with false
        by (symmetry; apply Z.eqb_neq; lia).
      lia.
Qed.

Lemma rank_inj : forall seen a b,
  rank seen a <> 0 -> rank seen a = rank seen b -> a = b.
Proof.
  intros seen a b Ha Hab.
  rewrite <- (rank_nth seen a Ha). rewrite Hab.
  apply rank_nth. congruence.
Qed.

Lemma discover_extends : forall c seen,
  exists l, discover seen c = seen ++ l.
Proof.
  induction c as [|e c IH]; intro seen; simpl.
  - exists []. rewrite app_nil_r. reflexivity.
  - destruct (rank seen e =? 0).
    + destruct (IH (seen ++ [e])) as [l Hl]. exists ([e] ++ l).
      rewrite Hl. rewrite <- app_assoc. reflexivity.
    + apply IH.
Qed.

Lemma discover_app : forall c1 c2 seen,
  discover seen (c1 ++ c2) = discover (discover seen c1) c2.
Proof.
  induction c1 as [|e c1 IH]; intros c2 seen; simpl; [reflexivity|].
  apply IH.
Qed.

Lemma discover_In : forall c seen e,
  In e (discover seen c) <-> In e seen \/ In e c.
Proof.
  induction c as [|x c IH]; intros seen e; simpl.
  - tauto.
  - rewrite IH. destruct (rank seen x =? 0) eqn:E.
    + rewrite in_app_iff. simpl. tauto.
    + apply Z.eqb_neq in E. split; [tauto|].
      intros [Hs|[Hx|Hc]]; [tauto | | tauto].
      subst. left. destruct (in_dec Z.eq_dec e seen) as [Hin|Hn]; [exact Hin|].
      apply rank_zero_iff in Hn. contradiction.
Qed.

Lemma discover_NoDup : forall c seen,
  NoDup seen -> NoDup (discover seen c).
Proof.
  induction c as [|x c IH]; intros seen Hnd; simpl; [exact Hnd|].
  apply IH. destruct (rank seen x =? 0) eqn:E; [|exact Hnd].
  apply Z.eqb_eq in E. apply rank_zero_iff in E.
  apply NoDup_Add with (a := x) (l := seen).
  - rewrite <- (app_nil_r seen) at 1. apply Add_app.
  - split; assumption.
Qed.

(** Once an entity is ranked, later discoveries do not change its rank. *)
Lemma rank_discover_old : forall c seen e,
  rank seen e <> 0 -> rank (discover seen c) e = rank seen e.
Proof.
  intros c seen e Hr. destruct (discover_extends c seen) as [l ->].
  apply rank_app_old. exact Hr.
Qed.

(** ** Optimize *)

Lemma NoDup_bounded_length : forall (l : list Z) U,
  NoDup l -> (forall e, In e l -> 1 <= e < U) ->
  Z.of_nat (length l) <= Z.max 0 (U - 1).
Proof.
  intros l U Hnd Hr.
  assert (Hincl : incl l (map Z.of_nat (seq 1 (Z.to_nat (U - 1))))).
  { intros e He. specialize (Hr e He). apply in_map_iff.
    exists (Z.to_nat e). split; [lia|]. apply in_seq. lia. }
  apply NoDup_incl_length in Hincl; [|exact Hnd].
  rewrite length_map, length_seq in Hincl. lia.
Qed.

Lemma same_frame_refl : forall g, same_frame g g.
Proof. intro g. unfold same_frame. conj; reflexivity. Qed.

Lemma same_frame_trans : forall g1 g2 g3,
  same_frame g1 g2 -> same_frame g2 g3 -> same_frame g1 g3.
Proof.
  unfold same_frame. intros g1 g2 g3 H12 H23.
  destruct H12 as [? [? [? [? [? [? ?]]]]]].
  destruct H23 as [? [? [? [? [? [? ?]]]]]].
  conj; congruence.
Qed.

Lemma set_nth_length : forall (A : Type) (l : list A) n v,
  length (set_nth n v l) = length l.
Proof.
  intros A l. induction l as [|a l IH]; intros n v; destruct n; simpl;
    try reflexivity.
  f_equal. apply IH.
Qed.

Lemma set_Copied_clear : forall g0 e ent0,
  scratch_clear g0 ->
  1 <= e < Used (Entities g0) -> load (Entities g0) e = Some ent0 ->
  set_Copied 0 ent0 = ent0.
Proof.
  intros g0 e ent0 ents_clear He Hl.
  pose proof (ents_clear e ent0 He Hl) as Hc.
  destruct ent0 as [p d c]. simpl in Hc. subst. reflexivity.
Qed.

Lemma Optimize_copy_spec : forall g0,
  (forall e, 1 <= e < Used (Entities g0) ->
     exists ent, load (Entities g0) e = Some ent) ->
  scratch_clear g0 -> Used (Entities g0) < 2 ^ 32 ->
  forall seen g L e,
  ent_inv g0 seen g L -> 1 <= e < Used (Entities g0) ->
  exists Entity,
    load (Entities g) e = Some Entity /\
    let '(g1, L1, Entity1) := Optimize_copy g L e Entity in
    let seen1 := if rank seen e =? 0 then seen ++ [e] else seen in
    ent_inv g0 seen1 g1 L1 /\ same_frame g g1 /\ Cells g1 = Cells g /\
    Copied Entity1 = rank seen1 e /\ rank seen1 e <> 0 /\
    NewReferences L1 = NewReferences L /\
    CurrentReference L1 = CurrentReference L.
Proof.
  intros g0 ents_stored ents_clear ents_bound seen g L e Hinv He.
  destruct (ents_stored e He) as [ent0 Hent0].
  pose proof (ei_old _ _ _ _ Hinv e ent0 He Hent0) as Hload.
  exists (set_Copied (rank seen e) ent0). split; [exact Hload|].
  unfold Optimize_copy. cbn [Copied set_Copied].
  destruct (rank seen e =? 0) eqn:E0.
  - apply Z.eqb_eq in E0.
    pose proof (NoDup_bounded_length seen (Used (Entities g0))
                  (ei_nodup _ _ _ _ Hinv) (ei_range _ _ _ _ Hinv)) as Hlen.
    pose proof (ei_cur _ _ _ _ Hinv) as Hcur.
    assert (Hnew : ~ In e seen) by (apply rank_zero_iff; exact E0).
    assert (Hlen' : Z.of_nat (length seen) + 1 < Used (Entities g0)).
    { pose proof (NoDup_bounded_length (seen ++ [e]) (Used (Entities g0)))
        as Hb. rewrite length_app in Hb. simpl in Hb.
      assert (Z.of_nat (length seen + 1) <= Z.max 0 (Used (Entities g0) - 1));
        [|lia].
      apply Hb.
      - apply NoDup_Add with (a := e) (l := seen).
        + rewrite <- (app_nil_r seen) at 1. apply Add_app.
        + split; [exact (ei_nodup _ _ _ _ Hinv) | exact Hnew].
      - intros x Hx. apply in_app_iff in Hx. destruct Hx as [Hx|[<-|[]]].
        + apply (ei_range _ _ _ _ Hinv). exact Hx.
        + exact He. }
    rewrite Hcur. rewrite wrap32_small by lia.
    rewrite (rank_app_new seen e E0). rewrite E0.
    conj; try reflexivity; try lia.
    + constructor; cbn [NewEntities CurrentEntity Entities set_Entities].
      * apply NoDup_Add with (a := e) (l := seen).
        -- rewrite <- (app_nil_r seen) at 1. apply Add_app.
        -- split; [exact (ei_nodup _ _ _ _ Hinv) | exact Hnew].
      * intros x Hx. apply in_app_iff in Hx. destruct Hx as [Hx|[<-|[]]].
        -- apply (ei_range _ _ _ _ Hinv). exact Hx.
        -- exact He.
      * rewrite length_app. cbn [length]. lia.
      * intros x entx Hx Hlx. destruct (Z.eq_dec x e) as [->|Hne].
        -- rewrite load_store_same. rewrite (rank_app_new seen e E0).
           rewrite Hent0 in Hlx. inversion Hlx; subst.
           f_equal. unfold set_Copied. cbn [Pos Dim Copied]. f_equal. lia.
        -- rewrite load_store_other by exact Hne.
           rewrite (rank_app_other seen e x Hne).
           apply (ei_old _ _ _ _ Hinv); assumption.
      * intros i Hi. rewrite length_app in Hi. simpl in Hi.
        destruct (Nat.eq_dec i (length seen)) as [->|Hne].
        -- rewrite nth_mid.
           replace (Z.of_nat (length seen) + 1)
             with (1 + Z.of_nat (length seen)) by lia.
           rewrite load_store_same. rewrite Hent0. f_equal.
           apply (set_Copied_clear g0 e); assumption.
        -- rewrite load_store_other by lia.
           rewrite app_nth1 by lia.
           apply (ei_new _ _ _ _ Hinv). lia.
      * unfold store. cbn [Free]. exact (ei_free _ _ _ _ Hinv).
    + unfold same_frame, set_Entities. cbn. conj; reflexivity.
    + cbn [Copied set_Copied]. lia.
  - apply Z.eqb_neq in E0. conj; try reflexivity; try assumption.
    apply same_frame_refl.
Qed.

Lemma ent_inv_ext : forall g0 seen g L g' L',
  Entities g' = Entities g -> NewEntities L' = NewEntities L ->
  CurrentEntity L' = CurrentEntity L ->
  ent_inv g0 seen g L -> ent_inv g0 seen g' L'.
Proof.
  intros g0 seen g L g' L' HE HN HC Hinv. destruct Hinv.
  constructor; rewrite ?HE, ?HN, ?HC; assumption.
Qed.

Lemma relabel_chain_cons : forall order s e c,
  relabel_chain order s (e :: c)
  = (s, rank order e) :: relabel_chain order (s + 1) c.
Proof. reflexivity. Qed.

Lemma write_cell_table : forall g k v,
  0 <= k < Z.of_nat (length (Cells g)) ->
  write_cell g k v = Some (set_Cells g (set_nth (Z.to_nat k) v (Cells g))).
Proof.
  intros g k v Hk. unfold write_cell.
  replace (0 <=? k) with true by (symmetry; apply Z.leb_le; lia).
  replace (k <? Z.of_nat (length (Cells g))) with true
    by (symmetry; apply Z.ltb_lt; lia).
  reflexivity.
Qed.

Lemma Optimize_chain_spec : forall g0,
  (forall e, 1 <= e < Used (Entities g0) ->
     exists ent, load (Entities g0) e = Some ent) ->
  scratch_clear g0 -> Used (Entities g0) < 2 ^ 32 ->
  forall sc fuel Cell First i g L seen,
  chain (List (References g)) i sc ->
  (length sc <= fuel)%nat ->
  (forall k e, In (k, e) sc -> 1 <= e < Used (Entities g0)) ->
  ent_inv g0 seen g L ->
  1 <= CurrentReference L ->
  CurrentReference L + Z.of_nat (length sc) < 2 ^ 32 ->
  0 <= Cell < Z.of_nat (length (Cells g)) ->
  exists g' L',
    Optimize_chain fuel Cell First i (g, L) = Some (g', L') /\
    ent_inv g0 (discover seen (map snd sc)) g' L' /\
    same_frame g g' /\
    Cells g' = (if First && negb (i =? 0)
                then set_nth (Z.to_nat Cell) (CurrentReference L) (Cells g)
                else Cells g) /\
    CurrentReference L' = CurrentReference L + Z.of_nat (length sc) /\
    (forall k, k < CurrentReference L ->
       List (NewReferences L') k = List (NewReferences L) k) /\
    (i <> 0 ->
       chain (List (NewReferences L')) (CurrentReference L)
         (relabel_chain (discover seen (map snd sc)) (CurrentReference L)
            (map snd sc))) /\
    Free (NewReferences L') = Free (NewReferences L).
Proof.
  intros g0 Hst Hcl Hb.
  induction sc as [|[k e] sc IH];
    intros fuel Cell First i g L seen Hc Hfuel Hrefs Hinv Hcr1 Hcr2 HCell.
  - unfold chain in Hc. simpl in Hc. subst i. exists g, L.
    assert (Hrun : Optimize_chain fuel Cell First 0 (g, L) = Some (g, L))
      by (destruct fuel; reflexivity).
    rewrite Hrun. cbn [map discover length]. rewrite andb_false_r.
    conj; try reflexivity; try assumption; try lia.
    apply same_frame_refl.
  - unfold chain in Hc. simpl in Hc.
    destruct Hc as [Hi [Hk [nx [Hm Hrest]]]]. subst i.
    destruct fuel as [|fuel]; [simpl in Hfuel; lia|].
    assert (He : 1 <= e < Used (Entities g0))
      by (apply (Hrefs k e); left; reflexivity).
    destruct (Optimize_copy_spec g0 Hst Hcl Hb seen g L e Hinv He)
      as [Entity [Hload Hstep]].
    destruct (Optimize_copy g L e Entity) as [[g1 L1] Entity1] eqn:Hcopy.
    cbv zeta in Hstep.
    set (seen1 := if rank seen e =? 0 then seen ++ [e] else seen) in *.
    destruct Hstep as [Hinv1 [Hfr1 [HC1 [HCop [Hrk [HNR HCR]]]]]].
    pose proof Hfr1 as [HR1 [HCE1 [HP1 [HG1 [HD1 [HI1 HL1]]]]]].
    set (g2 := if First
               then set_Cells g1 (set_nth (Z.to_nat Cell)
                                    (wrap32 (CurrentReference L1)) (Cells g1))
               else g1).
    assert (Hw : (if First then write_cell g1 Cell (wrap32 (CurrentReference L1))
                  else Some g1) = Some g2).
    { unfold g2. destruct First; [|reflexivity].
      apply write_cell_table. rewrite HL1. exact HCell. }
    assert (Hfr2 : same_frame g g2).
    { unfold g2. destruct First; [|exact Hfr1].
      unfold same_frame, set_Cells. cbn. rewrite set_nth_length.
      conj; assumption. }
    assert (HE2 : Entities g2 = Entities g1)
      by (unfold g2; destruct First; reflexivity).
    set (L2 := {| NewEntities := NewEntities L1;
                  CurrentEntity := CurrentEntity L1;
                  NewReferences :=
                    store (NewReferences L1) (CurrentReference L1)
                      {| Next := if nx =? 0 then 0
                                 else wrap32 (CurrentReference L1 + 1);
                         Ref := Copied Entity1 |};
                  CurrentReference := CurrentReference L1 + 1 |}).
    pose proof Hfr2 as [HR2 [HCE2 [HP2 [HG2 [HD2 [HI2 HL2]]]]]].
    destruct (IH fuel Cell false nx g2 L2 seen1) as
      [g' [L' [Hrun [Hinv' [Hfr' [HC' [HCR' [Hframe [Hchain HFree']]]]]]]]].
    { rewrite HR2. exact Hrest. }
    { simpl in Hfuel. lia. }
    { intros k' e' Hin. apply (Hrefs k' e'). right. exact Hin. }
    { apply (ent_inv_ext g0 seen1 g1 L1); [exact HE2 | reflexivity.. | exact Hinv1]. }
    { cbn [L2 CurrentReference]. lia. }
    { cbn [L2 CurrentReference]. rewrite HCR. simpl length in Hcr2. lia. }
    { rewrite HL2. exact HCell. }
    exists g', L'.
    cbn [Optimize_chain].
    replace (k =? 0) with false by (symmetry; apply Z.eqb_neq; exact Hk).
    apply load_Full in Hm. rewrite Hm. cbn [bind Next Ref].
    rewrite Hload. cbn [bind]. rewrite Hcopy. rewrite Hw. cbn [bind].
    fold L2. rewrite Hrun.
    cbn [map snd discover]. fold seen1.
    subst L2. cbn [NewReferences CurrentReference] in HCR', Hframe, Hchain, HFree'.
    rewrite HCR in *.
    conj.
    + reflexivity.
    + exact Hinv'.
    + eapply same_frame_trans; eassumption.
    + rewrite HC'. rewrite andb_false_l.
      replace (negb (k =? 0)) with true
        by (symmetry; apply negb_true_iff; apply Z.eqb_neq; exact Hk).
      rewrite andb_true_r. unfold g2. destruct First; [|exact HC1].
      cbn [Cells set_Cells]. rewrite HC1, HCR.
      rewrite wrap32_small by lia. reflexivity.
    + rewrite HCR'. simpl length. lia.
    + intros j Hj. rewrite Hframe by lia.
      unfold store. cbn [List]. rewrite upd_other by lia.
      rewrite HNR. reflexivity.
    + intros _. rewrite relabel_chain_cons. unfold chain. cbn [lseg].
      split; [reflexivity|]. split; [lia|].
      exists (if nx =? 0 then 0 else CurrentReference L + 1). split.
      * rewrite Hframe by lia. unfold store.
        cbn [List]. rewrite upd_same. rewrite HCop.
        rewrite (rank_discover_old (map snd sc) seen1 e Hrk).
        rewrite (wrap32_small (CurrentReference L + 1))
          by (simpl length in Hcr2; lia).
        reflexivity.
      * destruct (nx =? 0) eqn:Enx.
        -- apply Z.eqb_eq in Enx. subst nx.
           pose proof (chain_head _ _ _ Hrest) as Hh.
           destruct sc as [|[k' e'] sc']; [reflexivity|]. congruence || (
           unfold chain in Hrest; simpl in Hrest; destruct Hrest as [? [? _]];
           congruence).
        -- apply Z.eqb_neq in Enx. apply Hchain. exact Enx.
    + rewrite HFree'. unfold store. cbn [Free].
      rewrite HNR. reflexivity.
Qed.

(** *** The chains that compaction builds *)

Lemma zseq_length : forall n s, length (zseq s n) = n.
Proof. induction n as [|n IH]; intro s; simpl; [reflexivity | f_equal; apply IH]. Qed.

Lemma zseq_In : forall n s k, In k (zseq s n) <-> s <= k < s + Z.of_nat n.
Proof.
  induction n as [|n IH]; intros s k; simpl.
  - split; [tauto | lia].
  - rewrite IH. lia.
Qed.

Lemma zseq_NoDup : forall n s, NoDup (zseq s n).
Proof.
  induction n as [|n IH]; intro s; simpl; constructor.
  - rewrite zseq_In. lia.
  - apply IH.
Qed.

Lemma zseq_app : forall n m s,
  zseq s (n + m) = zseq s n ++ zseq (s + Z.of_nat n) m.
Proof.
  induction n as [|n IH]; intros m s.
  - simpl. f_equal. lia.
  - cbn [Nat.add zseq app]. f_equal. rewrite IH. f_equal. f_equal. lia.
Qed.

Lemma relabel_chain_fst : forall order s c,
  map fst (relabel_chain order s c) = zseq s (length c).
Proof.
  intros order s c. revert s. induction c as [|e c IH]; intro s;
    [reflexivity|].
  rewrite relabel_chain_cons. simpl. f_equal. apply IH.
Qed.

Lemma relabel_chain_snd : forall order s c,
  map snd (relabel_chain order s c) = map (rank order) c.
Proof.
  intros order s c. revert s. induction c as [|e c IH]; intro s;
    [reflexivity|].
  rewrite relabel_chain_cons. simpl. f_equal. apply IH.
Qed.

Lemma relabel_chain_length : forall order s c,
  length (relabel_chain order s c) = length c.
Proof.
  intros. rewrite <- (length_map fst), relabel_chain_fst. apply zseq_length.
Qed.

Lemma relabel_snd : forall order v s,
  map (map snd) (relabel order s v) = map (map (rank order)) v.
Proof.
  intros order v. induction v as [|c v IH]; intro s; simpl; [reflexivity|].
  rewrite relabel_chain_snd. f_equal. apply IH.
Qed.

Lemma relabel_fst : forall order v s,
  map fst (concat (relabel order s v)) = zseq s (length (concat v)).
Proof.
  intros order v. induction v as [|c v IH]; intro s; simpl; [reflexivity|].
  rewrite map_app, relabel_chain_fst, IH, length_app, zseq_app. reflexivity.
Qed.

Lemma relabel_length : forall order v s,
  length (relabel order s v) = length v.
Proof.
  intros order v. induction v as [|c v IH]; intro s; simpl;
    [reflexivity | f_equal; apply IH].
Qed.

Lemma relabel_app : forall order v1 v2 s,
  relabel order s (v1 ++ v2)
  = relabel order s v1
    ++ relabel order (s + Z.of_nat (length (concat v1))) v2.
Proof.
  intros order v1. induction v1 as [|c v1 IH]; intros v2 s; simpl.
  - f_equal. lia.
  - f_equal. rewrite IH. f_equal. f_equal. rewrite length_app. lia.
Qed.

Lemma relabel_ext : forall order order' v s,
  (forall e, In e (concat v) -> rank order' e = rank order e) ->
  relabel order' s v = relabel order s v.
Proof.
  intros order order' v. induction v as [|c v IH]; intros s Heq; simpl;
    [reflexivity|].
  f_equal.
  - unfold relabel_chain. f_equal. apply map_ext_in. intros e He.
    apply Heq. simpl. apply in_or_app. left. exact He.
  - apply IH. intros e He. apply Heq. simpl. apply in_or_app. right. exact He.
Qed.

Lemma chain_zero_nil : forall mem c, chain mem 0 c -> c = [].
Proof.
  intros mem c Hc. destruct c as [|[k e] c]; [reflexivity|].
  unfold chain in Hc. simpl in Hc. destruct Hc as [Hi [Hk _]]. congruence.
Qed.

Lemma foldM_app : forall (A S : Type) (f : S -> A -> option S) l1 l2 s,
  foldM f (l1 ++ l2) s = (s' <- foldM f l1 s ;; foldM f l2 s').
Proof.
  intros A S f l1. induction l1 as [|a l1 IH]; intros l2 s; simpl.
  - reflexivity.
  - destruct (f s a) as [s'|]; simpl; [apply IH | reflexivity].
Qed.

Lemma read_cell_table : forall g hs1 h hs2,
  Cells g = hs1 ++ h :: hs2 ->
  read_cell g (Z.of_nat (length hs1)) = Some h.
Proof.
  intros g hs1 h hs2 HC. unfold read_cell. rewrite HC, length_app. simpl.
  replace (0 <=? Z.of_nat (length hs1)) with true
    by (symmetry; apply Z.leb_le; lia).
  replace (Z.of_nat (length hs1) <? Z.of_nat (length hs1 + S (length hs2)))
    with true by (symmetry; apply Z.ltb_lt; lia).
  simpl. rewrite Nat2Z.id. apply nth_error_mid.
Qed.

Lemma concat_snoc : forall (A : Type) (ll : list (list A)) l,
  concat (ll ++ [l]) = concat ll ++ l.
Proof. intros. rewrite concat_app. simpl. rewrite app_nil_r. reflexivity. Qed.

Lemma Optimize_cells_spec : forall g0 sv0 fuel,
  wf g0 sv0 -> scratch_clear g0 -> Used (References g0) <= Z.of_nat fuel ->
  forall sv2 sv1 hs1 hs2 g L,
  sv0 = sv1 ++ sv2 ->
  Cells g = hs1 ++ hs2 -> length hs1 = length sv1 ->
  Forall2 (chain (List (References g0))) hs2 sv2 ->
  same_frame g0 g ->
  ent_inv g0 (discover [] (concat (map (map snd) sv1))) g L ->
  CurrentReference L = 1 + Z.of_nat (length (concat sv1)) ->
  Forall2 (chain (List (NewReferences L))) hs1
    (relabel (discover [] (concat (map (map snd) sv1))) 1
       (map (map snd) sv1)) ->
  Free (NewReferences L) = 0 ->
  exists g' L',
    foldM (Optimize_cell fuel)
      (map Z.of_nat (seq (length sv1) (length sv2))) (g, L) = Some (g', L') /\
    same_frame g0 g' /\
    ent_inv g0 (discover [] (concat (map (map snd) sv0))) g' L' /\
    CurrentReference L' = 1 + Z.of_nat (length (concat sv0)) /\
    Forall2 (chain (List (NewReferences L'))) (Cells g')
      (relabel (discover [] (concat (map (map snd) sv0))) 1
         (map (map snd) sv0)) /\
    Free (NewReferences L') = 0.
Proof.
  intros g0 sv0 fuel Hwf Hcl Hfuel.
  induction sv2 as [|c sv2 IH];
    intros sv1 hs1 hs2 g L Hsv HC Hlen HF2 Hfr Hinv Hcr HF1 HFree.
  - inversion HF2; subst. rewrite app_nil_r in *.
    exists g, L. simpl. conj; try reflexivity; try assumption.
    rewrite HC. exact HF1.
  - inversion HF2 as [|h c' hs2' sv2' Hc HF2']; subst.
    set (seen := discover [] (concat (map (map snd) sv1))) in *.
    pose proof Hfr as [HR [HCE [HP [HG [HD [HI HL]]]]]].
    pose proof (wf_count _ _ Hwf) as Hcount.
    pose proof (wf_usedR _ _ Hwf) as HUR.
    rewrite concat_app in Hcount. cbn [concat] in Hcount.
    rewrite !length_app in Hcount.
    destruct (Optimize_chain_spec g0 (wf_ents _ _ Hwf) Hcl
                (proj2 (wf_usedE _ _ Hwf)) c fuel (Z.of_nat (length sv1))
                true h g L seen)
      as [g1 [L1 [Hrun [Hinv1 [Hfr1 [HC1 [HCR1 [Hframe [Hchain HFree1]]]]]]]]].
    { rewrite HR. exact Hc. }
    { lia. }
    { intros k e Hin. apply (wf_refs _ _ Hwf k e).
      apply in_concat_mid. left. exact Hin. }
    { exact Hinv. }
    { lia. }
    { lia. }
    { rewrite HC, length_app, <- Hlen. simpl. lia. }
    set (h' := if h =? 0 then h else CurrentReference L).
    assert (HC1' : Cells g1 = (hs1 ++ [h']) ++ hs2').
    { rewrite HC1. rewrite <- app_assoc. simpl. unfold h'.
      destruct (h =? 0); simpl; [exact HC|].
      rewrite Nat2Z.id, HC, <- Hlen. apply set_nth_app. }
    assert (Hseen1 : discover [] (concat (map (map snd) (sv1 ++ [c])))
                     = discover seen (map snd c)).
    { rewrite map_app. cbn [map]. rewrite concat_snoc, discover_app.
      reflexivity. }
    destruct (IH (sv1 ++ [c]) (hs1 ++ [h']) hs2' g1 L1)
      as [g' [L' [Hrun' [Hfr' [Hinv' [HCR' [HF' HFree']]]]]]].
    { rewrite <- app_assoc. reflexivity. }
    { exact HC1'. }
    { rewrite !length_app. simpl. lia. }
    { exact HF2'. }
    { eapply same_frame_trans; eassumption. }
    { rewrite Hseen1. exact Hinv1. }
    { rewrite HCR1, Hcr, concat_snoc, length_app. lia. }
    { rewrite Hseen1, map_app, relabel_app. apply Forall2_app.
      - rewrite (relabel_ext seen).
        + eapply Forall2_impl_in; [|exact HF1].
          intros a b Hb. apply lseg_ext. intros k e Hin. apply Hframe.
          assert (Hk : In k (map fst (concat
                     (relabel seen 1 (map (map snd) sv1))))).
          { apply in_map_iff. exists (k, e). split; [reflexivity|].
            apply in_concat. exists b. split; assumption. }
          rewrite relabel_fst in Hk. apply zseq_In in Hk.
          rewrite <- concat_map, length_map in Hk. lia.
        + intros e He. apply rank_discover_old.
          intro Hz. apply rank_zero_iff in Hz. apply Hz. unfold seen.
          apply discover_In. right. exact He.
      - constructor; [|constructor].
        rewrite <- concat_map, length_map.
        replace (1 + Z.of_nat (length (concat sv1)))
          with (CurrentReference L) by lia.
        unfold h'. destruct (h =? 0) eqn:Eh.
        + apply Z.eqb_eq in Eh. subst h.
          apply chain_zero_nil in Hc. subst c.
          reflexivity.
        + apply Z.eqb_neq in Eh. apply Hchain. exact Eh. }
    { rewrite HFree1. exact HFree. }
    exists g', L'.
    cbn [length seq map foldM]. unfold Optimize_cell at 1. cbn [fst].
    rewrite <- Hlen. rewrite (read_cell_table g hs1 h hs2' HC). cbn [bind].
    rewrite Hlen. rewrite Hrun. cbn [bind].
    rewrite length_app in Hrun'. cbn [length] in Hrun'.
    replace (length sv1 + 1)%nat with (S (length sv1)) in Hrun' by lia.
    rewrite Hrun'.
    conj; try reflexivity; assumption.
Qed.

Lemma read_cell_past : forall g,
  read_cell g (Z.of_nat (length (Cells g))) = Some (Past g).
Proof.
  intro g. unfold read_cell.
  replace (Z.of_nat (length (Cells g)) <? Z.of_nat (length (Cells g)))
    with false by (symmetry; apply Z.ltb_ge; lia).
  rewrite andb_false_r. rewrite Z.eqb_refl. reflexivity.
Qed.

Lemma Optimize_chain_zero : forall fuel Cell First st,
  Optimize_chain fuel Cell First 0 st = Some st.
Proof. intros. destruct fuel; reflexivity. Qed.

Lemma cell_addrs_split : forall g,
  CellsEnd g = Z.of_nat (length (Cells g)) ->
  cell_addrs g = map Z.of_nat (seq 0 (length (Cells g)))
                 ++ [Z.of_nat (length (Cells g))].
Proof.
  intros g HE. unfold cell_addrs. rewrite HE, Nat2Z.id.
  rewrite seq_S, map_app. reflexivity.
Qed.

Lemma discovery_order_NoDup : forall v, NoDup (discovery_order v).
Proof. intro v. apply discover_NoDup. constructor. Qed.

Lemma discovery_order_In : forall v e,
  In e (discovery_order v) <-> In e (concat v).
Proof.
  intros v e. unfold discovery_order. rewrite discover_In. simpl. tauto.
Qed.

Lemma rank_pos_in : forall seen e,
  In e seen -> 1 <= rank seen e <= Z.of_nat (length seen).
Proof.
  intros seen e Hin. pose proof (rank_range seen e) as Hr.
  assert (rank seen e <> 0); [|lia].
  intro Hz. apply rank_zero_iff in Hz. contradiction.
Qed.

Lemma Optimize_wf : forall g sv fuel,
  wf g sv -> scratch_clear g -> Used (References g) <= Z.of_nat fuel ->
  exists g',
    Optimize fuel g = Some g' /\
    wf g' (relabel (discovery_order (map (map snd) sv)) 1 (map (map snd) sv)) /\
    scratch_clear g' /\
    Used (Entities g')
      = 1 + Z.of_nat (length (discovery_order (map (map snd) sv))) /\
    (forall i, (i < length (discovery_order (map (map snd) sv)))%nat ->
       load (Entities g') (Z.of_nat i + 1)
       = load (Entities g) (nth i (discovery_order (map (map snd) sv)) 0)) /\
    GridCells g' = GridCells g /\ CellDim g' = CellDim g /\
    InverseCellDim g' = InverseCellDim g.
Proof.
  intros g sv fuel Hwf Hcl Hfuel.
  set (L0 := {| NewEntities := UGridList_copy (Entities g);
                CurrentEntity := 1;
                NewReferences := UGridList_copy (References g);
                CurrentReference := 1 |}).
  assert (Hinv0 : ent_inv g [] g L0).
  { constructor; simpl; try reflexivity.
    - constructor.
    - intros e [].
    - intros e ent0 He Hl. rewrite Hl. f_equal. symmetry.
      destruct ent0 as [p d c]. pose proof (Hcl e _ He Hl) as Hc.
      simpl in Hc. subst. reflexivity.
    - intros i Hi. lia. }
  destruct (Optimize_cells_spec g sv fuel Hwf Hcl Hfuel sv [] [] (Cells g) g L0)
    as [g1 [L1 [Hrun [Hfr [Hinv [HCR [HF HFree]]]]]]];
    try reflexivity; try assumption.
  { exact (wf_chains _ _ Hwf). }
  { apply same_frame_refl. }
  { constructor. }
  fold (discovery_order (map (map snd) sv)) in *.
  set (order := discovery_order (map (map snd) sv)) in *.
  pose proof Hfr as [HR [HCE [HP [HG [HD [HI HL]]]]]].
  pose proof (Forall2_length (wf_chains _ _ Hwf)) as Hlen.
  pose proof (NoDup_bounded_length order (Used (Entities g))
                (ei_nodup _ _ _ _ Hinv) (ei_range _ _ _ _ Hinv)) as Hord.
  pose proof (wf_usedE _ _ Hwf) as HUE.
  pose proof (wf_usedR _ _ Hwf) as HUR.
  pose proof (wf_count _ _ Hwf) as Hcount.
  eexists. split.
  { unfold Optimize. fold L0. rewrite (cell_addrs_split g (wf_end _ _ Hwf)).
    rewrite foldM_app. cbn [length] in Hrun. rewrite <- Hlen in Hrun.
    rewrite Hrun. cbn [bind foldM]. unfold Optimize_cell. cbn [fst].
    rewrite <- HL, read_cell_past, HP, (wf_past _ _ Hwf). cbn [bind].
    rewrite Optimize_chain_zero. cbn [bind]. reflexivity. }
  assert (HUsedE : wrap32 (CurrentEntity L1) = 1 + Z.of_nat (length order)).
  { rewrite (ei_cur _ _ _ _ Hinv). apply wrap32_small. lia. }
  assert (HUsedR : wrap32 (CurrentReference L1) = Used (References g)).
  { rewrite HCR, <- Hcount. apply wrap32_small. lia. }
  assert (Hnew : forall i, (i < length order)%nat ->
            load (SetEnd (NewEntities L1) (CurrentEntity L1)) (Z.of_nat i + 1)
            = load (Entities g) (nth i order 0)).
  { intros i Hi. rewrite <- (ei_new _ _ _ _ Hinv i Hi). reflexivity. }
  conj.
  - constructor; unfold set_References, set_Entities, SetEnd; grid_simpl.
    + rewrite HCE, HL. exact (wf_end _ _ Hwf).
    + rewrite HP. exact (wf_past _ _ Hwf).
    + rewrite HG. exact (wf_geom _ _ Hwf).
    + rewrite HG, HL. exact (wf_cells _ _ Hwf).
    + exact HF.
    + exact (ei_free _ _ _ _ Hinv).
    + exact HFree.
    + intros k e Hin. rewrite HUsedR, Hcount.
      assert (Hk : In k (map fst (concat (relabel order 1 (map (map snd) sv))))).
      { apply in_map_iff. exists (k, e). split; [reflexivity | exact Hin]. }
      rewrite relabel_fst in Hk. apply zseq_In in Hk.
      rewrite <- concat_map, length_map in Hk. lia.
    + rewrite relabel_fst. apply zseq_NoDup.
    + rewrite HUsedR, Hcount. f_equal. f_equal.
      rewrite <- (length_map fst (concat (relabel _ _ _))).
      rewrite relabel_fst, zseq_length.
      rewrite <- concat_map, length_map. reflexivity.
    + rewrite HUsedR. exact HUR.
    + rewrite HUsedE. lia.
    + intros k e Hin. rewrite HUsedE.
      assert (He : In e (map snd (concat (relabel order 1 (map (map snd) sv))))).
      { apply in_map_iff. exists (k, e). split; [reflexivity | exact Hin]. }
      rewrite concat_map, relabel_snd, <- concat_map in He.
      apply in_map_iff in He. destruct He as [x [Hx Hin']]. subst e.
      assert (1 <= rank order x <= Z.of_nat (length order)); [|lia].
      apply rank_pos_in. apply discovery_order_In. exact Hin'.
    + intros e He. rewrite HUsedE in He.
      specialize (Hnew (Z.to_nat (e - 1))).
      replace (Z.of_nat (Z.to_nat (e - 1)) + 1) with e in Hnew by lia.
      unfold SetEnd in Hnew. rewrite Hnew by lia.
      apply (wf_ents _ _ Hwf). apply (ei_range _ _ _ _ Hinv).
      apply nth_In. lia.
    + pose proof (wf_chain_nodup _ _ Hwf) as Hcn.
      apply Forall_forall. intros c' Hin'.
      assert (Hin2 : In (map snd c')
                (map (map snd) (relabel order 1 (map (map snd) sv))))
        by (apply in_map; exact Hin').
      rewrite relabel_snd in Hin2. apply in_map_iff in Hin2.
      destruct Hin2 as [c0 [Hc0 Hin0]]. rewrite <- Hc0.
      apply in_map_iff in Hin0. destruct Hin0 as [sc [Hsc Hinsc]]. subst c0.
      rewrite Forall_forall in Hcn. specialize (Hcn sc Hinsc).
      apply NoDup_map_NoDup_ForallPairs; [|exact Hcn].
      intros a b Ha Hb Hab. apply (rank_inj order); [|exact Hab].
      assert (1 <= rank order a <= Z.of_nat (length order)); [|lia].
      apply rank_pos_in. apply discovery_order_In.
      apply in_concat. exists (map snd sc). split; [|exact Ha].
      apply in_map. exact Hinsc.
  - intros e ent He Hl. unfold set_References, set_Entities in He, Hl.
    grid_simpl. unfold SetEnd in He. cbn [Used] in He. rewrite HUsedE in He.
    specialize (Hnew (Z.to_nat (e - 1))).
    replace (Z.of_nat (Z.to_nat (e - 1)) + 1) with e in Hnew by lia.
    rewrite Hnew in Hl by lia.
    refine (Hcl _ ent _ Hl). apply (ei_range _ _ _ _ Hinv). apply nth_In. lia.
  - unfold set_References, set_Entities, SetEnd. grid_simpl. exact HUsedE.
  - exact Hnew.
  - exact HG.
  - exact HD.
  - exact HI.
Qed.

(** *** More fuel does not change a result *)

Lemma foldM_mono : forall (A S : Type) (f f' : S -> A -> option S) l s r,
  (forall s a r, f s a = Some r -> f' s a = Some r) ->
  foldM f l s = Some r -> foldM f' l s = Some r.
Proof.
  intros A S f f' l. induction l as [|a l IH]; intros s r Hf Hrun; simpl in *.
  - exact Hrun.
  - apply bind_Some in Hrun. destruct Hrun as [s' [Hs' Hrun]].
    rewrite (Hf _ _ _ Hs'). simpl. apply IH; assumption.
Qed.

Lemma Optimize_chain_mono : forall fuel fuel' Cell First i st r,
  (fuel <= fuel')%nat ->
  Optimize_chain fuel Cell First i st = Some r ->
  Optimize_chain fuel' Cell First i st = Some r.
Proof.
  induction fuel as [|fuel IH]; intros fuel' Cell First i st r Hle Hrun.
  - simpl in Hrun. destruct (i =? 0) eqn:E; [|discriminate].
    destruct fuel'; simpl; rewrite E; exact Hrun.
  - destruct fuel' as [|fuel']; [lia|]. simpl in *.
    destruct (i =? 0); [exact Hrun|]. destruct st as [g L].
    apply bind_Some in Hrun. destruct Hrun as [Reference [HR Hrun]].
    rewrite HR. cbn [bind].
    apply bind_Some in Hrun. destruct Hrun as [Entity [HE Hrun]].
    rewrite HE. cbn [bind].
    destruct (Optimize_copy g L (Ref Reference) Entity) as [[g1 L1] Entity1].
    apply bind_Some in Hrun. destruct Hrun as [g2 [Hg2 Hrun]].
    rewrite Hg2. cbn [bind]. apply IH; [lia | exact Hrun].
Qed.

Lemma Optimize_mono : forall fuel fuel' g g',
  (fuel <= fuel')%nat ->
  Optimize fuel g = Some g' -> Optimize fuel' g = Some g'.
Proof.
  intros fuel fuel' g g' Hle Hrun. unfold Optimize in *.
  apply bind_Some in Hrun. destruct Hrun as [[g1 L] [Hfold Hrun]].
  assert (Hcell : forall s a r, Optimize_cell fuel s a = Some r ->
                                Optimize_cell fuel' s a = Some r).
  { intros s a r H. unfold Optimize_cell in *.
    apply bind_Some in H. destruct H as [i [Hi H]]. rewrite Hi. cbn [bind].
    eapply Optimize_chain_mono; eassumption. }
  rewrite (foldM_mono _ _ _ _ _ _ _ Hcell Hfold). exact Hrun.
Qed.

(** *** Reachable grids are well formed *)

Lemma Insert_corners : forall g e g',
  Insert g e = Some g' ->
  exists Start End,
    PosToCell g (lower_corner e) = Some Start /\
    PosToCell g (upper_corner e) = Some End.
Proof.
  intros g e g' HI. unfold Insert in HI.
  apply bind_Some in HI. destruct HI as [[Index ents] [HGet HI]].
  apply bind_Some in HI. destruct HI as [Start [HS HI]].
  apply bind_Some in HI. destruct HI as [End [HE HI]].
  exists Start, End.
  rewrite (PosToCell_geometry g _ (lower_corner e)) in HS by reflexivity.
  rewrite (PosToCell_geometry g _ (upper_corner e)) in HE by reflexivity.
  split; assumption.
Qed.

Lemma reachable_wf : forall g,
  reachable g -> exists sv, wf g sv /\ scratch_clear g.
Proof.
  intros g Hr. induction Hr as [gc cd Hg | g e g' Hr IH He Hroom HI
                                | fuel g r Hr IH HT].
  - eexists. split; [apply wf_new; exact Hg|].
    intros e ent He. simpl in He. lia.
  - destruct IH as [sv [Hwf Hcl]].
    destruct (Insert_corners _ _ _ HI) as [Start [End [HS HE]]].
    destruct (Insert_wf g sv e Start End Hwf Hroom HS HE)
      as [g2 [sv2 [HI2 [Hwf2 [_ [Hload [HU [Hold _]]]]]]]].
    rewrite HI in HI2. inversion HI2; subst g2.
    exists sv2. split; [exact Hwf2|].
    intros i ent Hi Hl. rewrite HU in Hi.
    destruct (Z.eq_dec i (Used (Entities g))) as [->|Hne].
    + rewrite Hload in Hl. inversion Hl; subst. exact He.
    + rewrite Hold in Hl by lia. apply (Hcl i ent); [lia | exact Hl].
  - destruct IH as [sv [Hwf Hcl]].
    unfold Tick in HT. apply bind_Some in HT. destruct HT as [g1 [HO HT]].
    apply bind_Some in HT. destruct HT as [c [_ HT]].
    inversion HT; subst r. cbn [snd grid_after].
    destruct (Optimize_wf g sv (Nat.max fuel (Z.to_nat (Used (References g))))
                Hwf Hcl) as [g2 [HO2 [Hwf2 [Hcl2 _]]]]; [lia|].
    rewrite (Optimize_mono fuel _ g g1) in HO2 by (lia || exact HO).
    inversion HO2; subst g2. eexists. split; eassumption.
Qed.

(** *** Runs with room *)

Lemma insert_room_has_room : forall g, insert_room g -> has_room g.
Proof. intros g [HE HR]. unfold has_room. lia. Qed.

Lemma bounded_reachable : forall g, bounded g -> reachable g.
Proof.
  intros g Hb. induction Hb as [gc cd Hg | g e g' Hb IH He Hroom HI
                                | fuel g r Hb IH Hroom HT].
  - apply reach_new. exact Hg.
  - apply (reach_Insert g e g' IH He); [|exact HI].
    apply insert_room_has_room. exact Hroom.
  - exact (reach_Tick fuel g r IH HT).
Qed.

Lemma bounded_wf : forall g,
  bounded g -> exists sv, wf g sv /\ scratch_clear g.
Proof. intros g Hb. apply reachable_wf. apply bounded_reachable. exact Hb. Qed.

(** ** The scan of Tick *)

Lemma wrap32_succ : forall a, wrap32 (wrap32 a + 1) = wrap32 (a + 1).
Proof. intro a. unfold wrap32. apply Z.add_mod_idemp_l. lia. Qed.

Lemma Tick_inner_spec : forall g G sc fuel j m,
  chain (List (References g)) j sc -> (length sc <= fuel)%nat ->
  Tick_inner fuel g G j (wrap32 m)
  = Some (wrap32 (m + Z.of_nat
            (length (filter (fun r2 => negb (r2 <? G)) (map snd sc))))).
Proof.
  intros g G sc. induction sc as [|[k e] sc IH]; intros fuel j m Hc Hfuel.
  - unfold chain in Hc. simpl in Hc. subst j. simpl.
    rewrite Z.add_0_r. destruct fuel; reflexivity.
  - unfold chain in Hc. simpl in Hc.
    destruct Hc as [Hj [Hk [nx [Hm Hrest]]]]. subst j.
    destruct fuel as [|fuel]; [simpl in Hfuel; lia|].
    cbn [Tick_inner].
    replace (k =? 0) with false by (symmetry; apply Z.eqb_neq; exact Hk).
    apply load_Full in Hm. rewrite Hm. cbn [bind Next Ref map snd filter].
    destruct (e <? G); cbn [negb].
    + apply IH; [exact Hrest | simpl in Hfuel; lia].
    + rewrite wrap32_succ. rewrite (IH fuel nx (m + 1) Hrest)
        by (simpl in Hfuel; lia).
      cbn [length]. f_equal. f_equal. lia.
Qed.

Lemma list_max_nonneg : forall c, 0 <= list_max c.
Proof. induction c as [|r c IH]; simpl; lia. Qed.

Lemma Tick_chain_spec : forall g G sc fuel i lm m,
  chain (List (References g)) i sc -> (length sc <= fuel)%nat -> 0 <= lm ->
  Tick_chain fuel g G i (lm, wrap32 m)
  = Some (Z.max lm (list_max (map snd sc)),
          wrap32 (m + Z.of_nat (length (chain_pairs G (map snd sc))))).
Proof.
  intros g G sc. induction sc as [|[k e] sc IH]; intros fuel i lm m Hc Hfuel Hlm.
  - unfold chain in Hc. simpl in Hc. subst i. cbn [map list_max fold_right
      chain_pairs length]. rewrite Z.add_0_r, Z.max_l by lia.
    destruct fuel; reflexivity.
  - unfold chain in Hc. simpl in Hc.
    destruct Hc as [Hi [Hk [nx [Hm Hrest]]]]. subst i.
    destruct fuel as [|fuel]; [simpl in Hfuel; lia|].
    cbn [Tick_chain].
    replace (k =? 0) with false by (symmetry; apply Z.eqb_neq; exact Hk).
    apply load_Full in Hm. rewrite Hm.
    cbn [bind Next Ref map snd chain_pairs].
    rewrite std_max_u32_max.
    pose proof (list_max_nonneg (map snd sc)) as Hnn.
    assert (Hmax : Z.max (Z.max lm e) (list_max (map snd sc))
                   = Z.max lm (list_max (e :: map snd sc)))
      by (simpl; lia).
    destruct (e <=? G).
    + rewrite (IH fuel nx (Z.max lm e) m Hrest) by (simpl in Hfuel; lia).
      rewrite Hmax. reflexivity.
    + rewrite (Tick_inner_spec g G sc (S fuel) nx m Hrest)
        by (simpl in Hfuel; lia).
      cbn [bind].
      rewrite (IH fuel nx (Z.max lm e) _ Hrest) by (simpl in Hfuel; lia).
      rewrite Hmax. unfold counted_with.
      rewrite length_app, length_map. f_equal. f_equal. f_equal. lia.
Qed.

Lemma Tick_chain_zero : forall fuel g G st, Tick_chain fuel g G 0 st = Some st.
Proof. intros. destruct fuel; reflexivity. Qed.

Lemma Tick_cells_spec : forall g fuel sv2 hs2 hs1 G m,
  Cells g = hs1 ++ hs2 ->
  Forall2 (chain (List (References g))) hs2 sv2 ->
  (forall c, In c sv2 -> (length c <= fuel)%nat) ->
  0 <= G ->
  exists G',
    0 <= G' /\
    foldM (Tick_cell fuel g)
      (map Z.of_nat (seq (length hs1) (length hs2))) (G, wrap32 m)
    = Some (G', wrap32 (m + Z.of_nat
                      (length (view_pairs G (map (map snd) sv2))))).
Proof.
  intros g fuel sv2. induction sv2 as [|c sv2 IH];
    intros hs2 hs1 G m HC HF Hfuel HG.
  - inversion HF; subst. exists G. simpl. rewrite Z.add_0_r. split;
      [exact HG | reflexivity].
  - inversion HF as [|h c' hs2' sv2' Hc HF']; subst.
    destruct (IH hs2' (hs1 ++ [h]) (Z.max G (list_max (map snd c)))
                (m + Z.of_nat (length (chain_pairs G (map snd c)))))
      as [G' [HG' Hrun]].
    { rewrite <- app_assoc. exact HC. }
    { exact HF'. }
    { intros c' Hin. apply Hfuel. right. exact Hin. }
    { lia. }
    exists G'. split; [exact HG'|].
    cbn [length seq map foldM]. unfold Tick_cell at 1.
    rewrite (read_cell_table g hs1 h hs2' HC). cbn [bind].
    rewrite (Tick_chain_spec g G c fuel h 0 m Hc)
      by (try lia; apply Hfuel; left; reflexivity).
    cbn [bind]. rewrite std_max_u32_max.
    rewrite (Z.max_r 0) by apply list_max_nonneg.
    rewrite length_app in Hrun. cbn [length] in Hrun.
    replace (length hs1 + 1)%nat with (S (length hs1)) in Hrun by lia.
    rewrite Hrun. cbn [map view_pairs]. rewrite length_app.
    f_equal. f_equal. f_equal. lia.
Qed.

(** On a well-formed grid the scan ends, and its count is the number of
    pairs in [scan_pairs], reduced to 32 bits. *)
Lemma Tick_scan_wf : forall g sv fuel,
  wf g sv -> Used (References g) <= Z.of_nat fuel ->
  Tick_scan fuel g
  = Some (wrap32 (Z.of_nat (length (scan_pairs (view g))))).
Proof.
  intros g sv fuel Hwf Hfuel. unfold Tick_scan.
  rewrite (cell_addrs_split g (wf_end _ _ Hwf)), foldM_app.
  destruct (Tick_cells_spec g fuel sv (Cells g) [] 0 0) as [G' [HG' Hrun]];
    try reflexivity; try lia.
  { exact (wf_chains _ _ Hwf). }
  { intros c Hin. apply length_concat_le in Hin.
    pose proof (wf_count _ _ Hwf). lia. }
  cbn [length] in Hrun. change (wrap32 0) with 0 in Hrun.
  rewrite Hrun. cbn [bind foldM]. unfold Tick_cell.
  rewrite read_cell_past, (wf_past _ _ Hwf). cbn [bind].
  rewrite Tick_chain_zero. cbn [bind].
  rewrite (view_wf g sv Hwf). reflexivity.
Qed.

(** ** Pairs of entities that share a cell *)



Lemma norm_sym : forall a b, norm (a, b) = norm (b, a).
Proof. intros. unfold norm. simpl. f_equal; lia. Qed.

Lemma all_pairs_In : forall c p,
  In p (all_pairs c) -> exists a b, p = norm (a, b) /\ In a c /\ In b c.
Proof.
  induction c as [|r rest IH]; intros p Hin; simpl in Hin; [destruct Hin|].
  apply in_app_iff in Hin. destruct Hin as [Hin|Hin].
  - apply in_map_iff in Hin. destruct Hin as [b [Hp Hb]].
    exists r, b. simpl. auto.
  - destruct (IH p Hin) as [a [b [Hp [Ha Hb]]]].
    exists a, b. simpl. auto.
Qed.










(** ** Order of the new indices *)

Lemma rank_app_late : forall seen l b,
  rank seen b = 0 -> rank (seen ++ l) b <> 0 ->
  Z.of_nat (length seen) < rank (seen ++ l) b.
Proof.
  induction seen as [|x seen IH]; intros l b Hz Hnz; simpl in *.
  - pose proof (rank_range l b). lia.
  - destruct (b =? x); [discriminate|].
    destruct (rank seen b =? 0) eqn:E0.
    + apply Z.eqb_eq in E0.
      destruct (rank (seen ++ l) b =? 0) eqn:E1; [contradiction|].
      apply Z.eqb_neq in E1. specialize (IH l b E0 E1). lia.
    + pose proof (rank_range seen b). apply Z.eqb_neq in E0. lia.
Qed.

(** An entity met in a cell scanned before the first cell that holds [b]
    gets a smaller new index than [b]. *)
Lemma discovery_order_monotone : forall v1 c v2 a b,
  In a (concat v1) -> In b c -> ~ In b (concat v1) ->
  rank (discovery_order (v1 ++ c :: v2)) a
  < rank (discovery_order (v1 ++ c :: v2)) b.
Proof.
  intros v1 c v2 a b Ha Hb Hnb. unfold discovery_order.
  rewrite concat_app, discover_app.
  set (seen1 := discover [] (concat v1)).
  destruct (discover_extends (concat (c :: v2)) seen1) as [l Hl].
  rewrite Hl.
  assert (Ha1 : In a seen1) by (apply discover_In; right; exact Ha).
  assert (Hb1 : rank seen1 b = 0).
  { apply rank_zero_iff. intro Hin. apply discover_In in Hin.
    destruct Hin as [[]|Hin]. contradiction. }
  pose proof (rank_pos_in seen1 a Ha1) as Hra.
  rewrite (rank_app_old seen1 l a) by lia.
  assert (Hb2 : rank (seen1 ++ l) b <> 0).
  { intro Hz. apply rank_zero_iff in Hz. apply Hz. rewrite <- Hl.
    apply discover_In. right. simpl. apply in_or_app. left. exact Hb. }
  pose proof (rank_app_late seen1 l b Hb1 Hb2). lia.
Qed.

(** *** Compacting twice *)

Lemma rank_map : forall (f : Z -> Z) seen e,
  (forall x, In x seen -> f x = f e -> x = e) ->
  rank (map f seen) (f e) = rank seen e.
Proof.
  intros f seen e. induction seen as [|x seen IH]; intro Hinj; simpl;
    [reflexivity|].
  rewrite IH by (intros y Hy; apply Hinj; right; exact Hy).
  destruct (e =? x) eqn:E.
  - apply Z.eqb_eq in E. subst. rewrite Z.eqb_refl. reflexivity.
  - apply Z.eqb_neq in E.
    replace (f e =? f x) with false; [reflexivity|].
    symmetry. apply Z.eqb_neq. intro Heq. apply E. symmetry.
    apply Hinj; [left; reflexivity | symmetry; exact Heq].
Qed.

Lemma discover_map : forall (f : Z -> Z) c seen,
  (forall x y, In x (seen ++ c) -> In y (seen ++ c) -> f x = f y -> x = y) ->
  discover (map f seen) (map f c) = map f (discover seen c).
Proof.
  intros f c. induction c as [|e c IH]; intros seen Hinj; simpl;
    [reflexivity|].
  rewrite rank_map.
  2:{ intros x Hx. apply Hinj; apply in_or_app;
        [left; exact Hx | right; left; reflexivity]. }
  destruct (rank seen e =? 0).
  - rewrite <- IH.
    + rewrite map_app. reflexivity.
    + intros x y Hx Hy. apply Hinj.
      * rewrite <- app_assoc in Hx. exact Hx.
      * rewrite <- app_assoc in Hy. exact Hy.
  - apply IH. intros x y Hx Hy. apply Hinj.
    + apply in_app_iff in Hx. apply in_or_app. simpl. tauto.
    + apply in_app_iff in Hy. apply in_or_app. simpl. tauto.
Qed.

Lemma map_rank_self : forall l p,
  NoDup (p ++ l) ->
  map (rank (p ++ l)) l = zseq (Z.of_nat (length p) + 1) (length l).
Proof.
  induction l as [|x l IH]; intros p Hnd; [reflexivity|].
  cbn [map length zseq]. f_equal.
  - assert (Hx : rank p x = 0).
    { apply rank_zero_iff. intro Hin.
      apply NoDup_remove_2 in Hnd. apply Hnd. apply in_or_app. left.
      exact Hin. }
    change (p ++ x :: l) with (p ++ [x] ++ l). rewrite app_assoc.
    rewrite rank_app_old; rewrite (rank_app_new p x Hx); lia.
  - change (p ++ x :: l) with (p ++ [x] ++ l) in *. rewrite app_assoc in *.
    rewrite (IH (p ++ [x]) Hnd). rewrite length_app. simpl.
    f_equal. lia.
Qed.

Lemma rank_zseq : forall n s x,
  s <= x < s + Z.of_nat n -> rank (zseq s n) x = x - s + 1.
Proof.
  induction n as [|n IH]; intros s x Hx; [lia|].
  cbn [zseq rank]. destruct (x =? s) eqn:E.
  - apply Z.eqb_eq in E. lia.
  - apply Z.eqb_neq in E. rewrite (IH (s + 1) x) by lia.
    replace (x - (s + 1) + 1 =? 0) with false
      by (symmetry; apply Z.eqb_neq; lia).
    lia.
Qed.

Lemma nth_zseq : forall n s i,
  (i < n)%nat -> nth i (zseq s n) 0 = s + Z.of_nat i.
Proof.
  induction n as [|n IH]; intros s i Hi; [lia|].
  destruct i as [|i]; simpl zseq; cbn [nth]; [lia|].
  rewrite IH by lia. lia.
Qed.

(** The discovery order of a compacted view is [1, 2, ..., m]. *)
Lemma discovery_order_compacted : forall v,
  discovery_order (map (map (rank (discovery_order v))) v)
  = zseq 1 (length (discovery_order v)).
Proof.
  intro v. set (order := discovery_order v).
  unfold discovery_order at 1. rewrite <- concat_map.
  change (@nil Z) with (map (rank order) []).
  rewrite discover_map.
  - fold (discovery_order v). fold order.
    apply (map_rank_self order []). apply discovery_order_NoDup.
  - intros x y Hx _. simpl in Hx. apply rank_inj.
    apply discovery_order_In in Hx. fold order in Hx.
    pose proof (rank_pos_in order x Hx). lia.
Qed.

Lemma relabel_compacted : forall v,
  let v1 := map (map (rank (discovery_order v))) v in
  map (map (rank (discovery_order v1))) v1 = v1.
Proof.
  intros v v1. unfold v1 at 1. rewrite discovery_order_compacted.
  rewrite <- (map_id v1) at 2. apply map_ext_in. intros c Hc.
  rewrite <- (map_id c) at 2. apply map_ext_in. intros x Hx.
  unfold v1 in Hc. apply in_map_iff in Hc. destruct Hc as [c0 [Hc0 Hin0]].
  subst c. apply in_map_iff in Hx. destruct Hx as [x0 [Hx0 Hin1]]. subst x.
  assert (Hord : In x0 (discovery_order v)).
  { apply discovery_order_In. apply in_concat. exists c0. auto. }
  pose proof (rank_pos_in _ _ Hord) as Hr.
  rewrite rank_zseq by lia. lia.
Qed.

(** ** Tick on a well-formed grid *)

Lemma relabel_concat_length : forall order v s,
  length (concat (relabel order s v)) = length (concat v).
Proof.
  intros. rewrite <- (length_map fst), relabel_fst. apply zseq_length.
Qed.

Lemma view_refs_range : forall g sv e,
  wf g sv -> In e (concat (view g)) -> 1 <= e < Used (Entities g).
Proof.
  intros g sv e Hwf He. rewrite (view_wf g sv Hwf), <- concat_map in He.
  apply in_map_iff in He. destruct He as [[k e0] [He0 Hin]].
  simpl in He0. subst e0. exact (wf_refs _ _ Hwf k e Hin).
Qed.

Lemma Tick_of_wf : forall g sv fuel,
  wf g sv -> scratch_clear g -> Used (References g) <= Z.of_nat fuel ->
  exists t,
    Optimize fuel g = Some t /\
    Tick fuel g
    = Some (tt, {| grid_after := t;
                   printed := cout_line
                     (wrap32 (Z.of_nat (length (scan_pairs (view t))))) |}) /\
    wf t (relabel (discovery_order (view g)) 1 (view g)) /\
    view t = map (map (rank (discovery_order (view g)))) (view g) /\
    Used (Entities t) = 1 + Z.of_nat (length (discovery_order (view g))) /\
    (forall i, (i < length (discovery_order (view g)))%nat ->
       load (Entities t) (Z.of_nat i + 1)
       = load (Entities g) (nth i (discovery_order (view g)) 0)) /\
    Used (References t) = Used (References g).
Proof.
  intros g sv fuel Hwf Hcl Hfuel.
  destruct (Optimize_wf g sv fuel Hwf Hcl Hfuel)
    as [t [HO [Hwf' [_ [HU [Hnew _]]]]]].
  rewrite <- (view_wf g sv Hwf) in *.
  assert (HUR : Used (References t) = Used (References g)).
  { rewrite (wf_count _ _ Hwf'), relabel_concat_length, (wf_count _ _ Hwf).
    rewrite (view_wf g sv Hwf), <- concat_map, length_map. reflexivity. }
  exists t. conj; try assumption.
  - unfold Tick. rewrite HO. cbn [bind].
    rewrite (Tick_scan_wf t _ fuel Hwf') by lia. reflexivity.
  - rewrite (view_wf t _ Hwf'). apply relabel_snd.
Qed.

(** ** Concrete grids *)

Lemma has_room_b_true : forall g, has_room_b g = true -> has_room g.
Proof.
  intros g Hb. unfold has_room_b in Hb. apply andb_prop in Hb.
  destruct Hb as [H1 H2]. apply Z.ltb_lt in H1. apply Z.ltb_lt in H2.
  split; assumption.
Qed.

Lemma insert_all_reachable : forall es g g',
  reachable g -> insert_all g es = Some g' -> reachable g'.
Proof.
  induction es as [|e es IH]; intros g g' Hr Hrun; simpl in Hrun.
  - inversion Hrun; subst. exact Hr.
  - destruct ((Copied e =? 0) && has_room_b g) eqn:E; [|discriminate].
    apply andb_prop in E. destruct E as [Hc Hroom].
    apply Z.eqb_eq in Hc. apply has_room_b_true in Hroom.
    apply bind_Some in Hrun. destruct Hrun as [g1 [HI Hrun]].
    apply (IH g1 g'); [|exact Hrun].
    eapply reach_Insert; eassumption.
Qed.

Lemma grid_2x2_reachable : reachable grid_2x2.
Proof. apply reach_new. unfold geometry_ok. simpl. lia. Qed.

Lemma grid_tall_wide_reachable : reachable grid_tall_wide.
Proof.
  apply (insert_all_reachable [tall; wide] grid_2x2);
    [exact grid_2x2_reachable | vm_compute; reflexivity].
Qed.

Lemma grid_wide_tall_reachable : reachable grid_wide_tall.
Proof.
  apply (insert_all_reachable [wide; tall] grid_2x2);
    [exact grid_2x2_reachable | vm_compute; reflexivity].
Qed.

Lemma grid_2x2_bounded : bounded grid_2x2.
Proof. apply bounded_new. unfold geometry_ok. simpl. lia. Qed.

Lemma grid_2x2_insert_room : insert_room grid_2x2.
Proof. split; [vm_compute; reflexivity | vm_compute; discriminate]. Qed.

Lemma grid_tall_bounded : bounded grid_tall.
Proof.
  apply (bounded_Insert grid_2x2 tall);
    [exact grid_2x2_bounded | reflexivity | exact grid_2x2_insert_room
     | vm_compute; reflexivity].
Qed.

Lemma grid_wide_bounded : bounded grid_wide.
Proof.
  apply (bounded_Insert grid_2x2 wide);
    [exact grid_2x2_bounded | reflexivity | exact grid_2x2_insert_room
     | vm_compute; reflexivity].
Qed.

Lemma grid_tall_wide_bounded : bounded grid_tall_wide.
Proof.
  apply (bounded_Insert grid_tall wide);
    [exact grid_tall_bounded | reflexivity | | vm_compute; reflexivity].
  split; [vm_compute; reflexivity | vm_compute; discriminate].
Qed.

Lemma grid_wide_tall_bounded : bounded grid_wide_tall.
Proof.
  apply (bounded_Insert grid_wide tall);
    [exact grid_wide_bounded | reflexivity | | vm_compute; reflexivity].
  split; [vm_compute; reflexivity | vm_compute; discriminate].
Qed.

Lemma grid_tall_wide_tick_room : tick_room grid_tall_wide.
Proof. split; vm_compute; reflexivity. Qed.

Lemma grid_wide_tall_tick_room : tick_room grid_wide_tall.
Proof. split; vm_compute; reflexivity. Qed.

(** ** Insertion *)

Lemma Forall2_nth : forall (A B : Type) (R : A -> B -> Prop) l1 l2 k d1 d2,
  Forall2 R l1 l2 -> (k < length l1)%nat -> R (nth k l1 d1) (nth k l2 d2).
Proof.
  intros A B R l1 l2 k d1 d2 HF. revert k.
  induction HF as [|a b l1 l2 Hab HF IH]; intros k Hk; simpl in Hk; [lia|].
  destruct k as [|k]; simpl; [exact Hab | apply IH; lia].
Qed.

(** C5.  On a grid reached with room, and with room for one more
    [Insert]: for an entity whose corners fall in cells [Start] and [End],
    [Insert] stores the entity at the next entity index and, in every
    cell of the table that lies in the span, puts one fresh link record
    naming that index in front of the chain (its [Next] is the old head and
    the head now points to it); the chain and head of every other cell are
    unchanged. *)
Theorem Insert_links_every_cell_of_span : forall g e Start End,
  bounded g -> insert_room g ->
  PosToCell g (lower_corner e) = Some Start ->
  PosToCell g (upper_corner e) = Some End ->
  exists g',
    Insert g e = Some g' /\
    load (Entities g') (Used (Entities g)) = Some e /\
    length (Cells g') = length (Cells g) /\
    forall k, (k < length (Cells g))%nat ->
      (in_span g Start End (Z.of_nat k) ->
         nth k (view g') [] = Used (Entities g) :: nth k (view g) [] /\
         ~ In (Used (Entities g)) (nth k (view g) []) /\
         exists r,
           load (References g') (nth k (Cells g') 0) = Some r /\
           Ref r = Used (Entities g) /\
           Next r = nth k (Cells g) 0 /\
           Used (References g) <= nth k (Cells g') 0) /\
      (~ in_span g Start End (Z.of_nat k) ->
         nth k (view g') [] = nth k (view g) [] /\
         nth k (Cells g') 0 = nth k (Cells g) 0).
Proof.
  intros g e Start End Hb Hroom' HS HE.
  pose proof (insert_room_has_room g Hroom') as Hroom.
  destruct (bounded_wf g Hb) as [sv [Hwf _]].
  destruct (Insert_wf g sv e Start End Hwf Hroom HS HE)
    as [g' [sv' [HI [Hwf' [[Hlen Hl] [Hload _]]]]]].
  exists g'. split; [exact HI|]. split; [exact Hload|].
  pose proof (Forall2_length (wf_chains _ _ Hwf)) as HlenC.
  pose proof (Forall2_length (wf_chains _ _ Hwf')) as HlenC'.
  split; [congruence|].
  intros k Hk. rewrite (view_wf g sv Hwf), (view_wf g' sv' Hwf').
  change (@nil Z) with (map (@snd Z Z) []). rewrite !map_nth.
  assert (Hc : chain (List (References g)) (nth k (Cells g) 0) (nth k sv []))
    by (apply Forall2_nth; [exact (wf_chains _ _ Hwf) | exact Hk]).
  assert (Hc' : chain (List (References g')) (nth k (Cells g') 0)
                  (nth k sv' []))
    by (apply Forall2_nth; [exact (wf_chains _ _ Hwf') | lia]).
  destruct (Hl k) as [Hin Hout]; [lia|]. split.
  - intro Hspan. destruct (Hin Hspan) as [s [Hs Hnth]].
    rewrite Hnth in *. simpl map. split; [reflexivity|]. split.
    + intro Hmem. apply in_map_iff in Hmem.
      destruct Hmem as [[s0 e0] [He0 Hmem]]. simpl in He0. subst e0.
      apply in_nth_concat in Hmem. apply (wf_refs _ _ Hwf) in Hmem. lia.
    + unfold chain in Hc'. simpl in Hc'.
      destruct Hc' as [Hhead [Hs0 [nx [Hm Hrest]]]].
      exists {| Next := nx; Ref := Used (Entities g) |}.
      rewrite Hhead. split; [apply load_Full; exact Hm|].
      split; [reflexivity|]. split; [|exact Hs].
      simpl. rewrite (chain_head _ _ _ Hrest), (chain_head _ _ _ Hc).
      reflexivity.
  - intro Hspan. rewrite (Hout Hspan) in *. split; [reflexivity|].
    rewrite (chain_head _ _ _ Hc'), (chain_head _ _ _ Hc). reflexivity.
Qed.

Lemma Insert_links_every_cell_of_span_witness :
  bounded grid_2x2 /\ insert_room grid_2x2 /\
  PosToCell grid_2x2 (lower_corner tall) = Some {| CX := 1; CY := 0 |} /\
  PosToCell grid_2x2 (upper_corner tall) = Some {| CX := 1; CY := 1 |} /\
  exists g',
    Insert grid_2x2 tall = Some g' /\
    load (Entities g') 1 = Some tall /\
    nth 2 (view g') [] = [1] /\ nth 0 (view g') [] = [].
Proof.
  assert (H1 : bounded grid_2x2) by exact grid_2x2_bounded.
  assert (H2 : insert_room grid_2x2) by exact grid_2x2_insert_room.
  assert (H3 : PosToCell grid_2x2 (lower_corner tall)
               = Some {| CX := 1; CY := 0 |}) by (vm_compute; reflexivity).
  assert (H4 : PosToCell grid_2x2 (upper_corner tall)
               = Some {| CX := 1; CY := 1 |}) by (vm_compute; reflexivity).
  refine (conj H1 (conj H2 (conj H3 (conj H4 _)))).
  destruct (Insert_links_every_cell_of_span grid_2x2 tall _ _ H1 H2 H3 H4)
    as [g' [HI [Hload [_ Hcells]]]].
  exists g'. split; [exact HI|]. split; [exact Hload|]. split.
  - destruct (Hcells 2%nat) as [Hin _]; [vm_compute; lia|].
    destruct Hin as [Hview _]; [|exact Hview].
    exists 1, 0. vm_compute. intuition discriminate.
  - destruct (Hcells 0%nat) as [_ Hout]; [vm_compute; lia|].
    destruct Hout as [Hview _]; [|exact Hview].
    intros [x [y [Hx [Hy Hk]]]]. simpl in Hx, Hy, Hk. lia.
Defined.

(** ** Compaction *)

(** C3.  On a grid reached with room, and with room for a [Tick],
    [Optimize] ends (given fuel for the longest chain) and renames the
    entities that some chain names by their rank in the order of first
    discovery: the new arena holds exactly one record per such entity, the
    record it had before; every chain keeps its length and order under the
    renaming; and an entity met in a cell scanned before the first cell
    that holds [b] gets a smaller index than [b]. *)
Theorem Optimize_keeps_entities_in_discovery_order : forall g fuel,
  bounded g -> tick_room g -> Used (References g) <= Z.of_nat fuel ->
  exists g',
    Optimize fuel g = Some g' /\
    NoDup (discovery_order (view g)) /\
    (forall e, In e (discovery_order (view g)) <-> In e (concat (view g))) /\
    Used (Entities g') = 1 + Z.of_nat (length (discovery_order (view g))) /\
    (forall e, In e (concat (view g)) ->
       1 <= rank (discovery_order (view g)) e < Used (Entities g') /\
       (exists ent, load (Entities g) e = Some ent) /\
       load (Entities g') (rank (discovery_order (view g)) e)
       = load (Entities g) e) /\
    (forall a b, In a (concat (view g)) ->
       rank (discovery_order (view g)) a = rank (discovery_order (view g)) b ->
       a = b) /\
    (forall i, 1 <= i < Used (Entities g') -> In i (concat (view g'))) /\
    view g' = map (map (rank (discovery_order (view g)))) (view g) /\
    (forall v1 c v2 a b,
       view g = v1 ++ c :: v2 ->
       In a (concat v1) -> In b c -> ~ In b (concat v1) ->
       rank (discovery_order (view g)) a < rank (discovery_order (view g)) b).
Proof.
  intros g fuel Hb Hroom Hfuel.
  destruct (bounded_wf g Hb) as [sv [Hwf Hcl]].
  destruct (Optimize_wf g sv fuel Hwf Hcl Hfuel)
    as [g' [HO [Hwf' [_ [HU [Hnew _]]]]]].
  rewrite <- (view_wf g sv Hwf) in *.
  set (order := discovery_order (view g)) in *.
  assert (Hview : view g' = map (map (rank order)) (view g))
    by (rewrite (view_wf g' _ Hwf'); apply relabel_snd).
  assert (Hrk : forall e, In e (concat (view g)) ->
            1 <= rank order e <= Z.of_nat (length order)).
  { intros e He. apply rank_pos_in. apply discovery_order_In. exact He. }
  exists g'. conj.
  - exact HO.
  - apply discovery_order_NoDup.
  - apply discovery_order_In.
  - exact HU.
  - intros e He. pose proof (Hrk e He) as Hre. split; [lia|].
    split.
    + rewrite (view_wf g sv Hwf), <- concat_map in He.
      apply in_map_iff in He. destruct He as [[k e0] [He0 Hin]].
      simpl in He0. subst e0. apply (wf_ents _ _ Hwf).
      exact (wf_refs _ _ Hwf k e Hin).
    + specialize (Hnew (Z.to_nat (rank order e - 1))).
      replace (Z.of_nat (Z.to_nat (rank order e - 1)) + 1)
        with (rank order e) in Hnew by lia.
      rewrite Hnew by lia. rewrite rank_nth by lia. reflexivity.
  - intros a b Ha Hab. apply (rank_inj order); [|exact Hab].
    specialize (Hrk a Ha). lia.
  - intros i Hi. rewrite HU in Hi. rewrite Hview, <- concat_map.
    apply in_map_iff. exists (nth (Z.to_nat (i - 1)) order 0). split.
    + rewrite nth_rank; [lia | apply discovery_order_NoDup | lia].
    + apply discovery_order_In. fold order. apply nth_In. lia.
  - exact Hview.
  - intros v1 c v2 a b Hv. unfold order. rewrite Hv.
    apply discovery_order_monotone.
Qed.

Lemma Optimize_keeps_entities_in_discovery_order_witness :
  bounded grid_tall_wide /\ tick_room grid_tall_wide /\
  Used (References grid_tall_wide) <= Z.of_nat 8 /\
  view grid_tall_wide = [[2]; []; [2; 1]; [1]] /\
  exists g',
    Optimize 8 grid_tall_wide = Some g' /\
    Used (Entities g') = 3 /\
    view g' = [[1]; []; [1; 2]; [2]].
Proof.
  assert (H1 : bounded grid_tall_wide) by exact grid_tall_wide_bounded.
  assert (H0 : tick_room grid_tall_wide) by exact grid_tall_wide_tick_room.
  assert (H2 : Used (References grid_tall_wide) <= Z.of_nat 8)
    by (vm_compute; discriminate).
  refine (conj H1 (conj H0 (conj H2 (conj _ _)))); [vm_compute; reflexivity|].
  destruct (Optimize_keeps_entities_in_discovery_order grid_tall_wide 8
              H1 H0 H2)
    as [g' [HO [_ [_ [HU [_ [_ [_ [Hview _]]]]]]]]].
  exists g'. split; [exact HO|]. split.
  - rewrite HU. vm_compute. reflexivity.
  - rewrite Hview. vm_compute. reflexivity.
Defined.

(** *** The scratch field after a pass *)

Lemma Optimize_copy_clear : forall g L e Entity g1 L1 Entity1,
  new_clear L -> Optimize_copy g L e Entity = (g1, L1, Entity1) ->
  new_clear L1.
Proof.
  intros g L e Entity g1 L1 Entity1 Hcl Hcopy. unfold Optimize_copy in Hcopy.
  destruct (Copied Entity =? 0) eqn:E.
  - apply Z.eqb_eq in E. inversion Hcopy; subst. intros i ent Hl.
    cbn [NewEntities] in Hl.
    destruct (Z.eq_dec i (CurrentEntity L)) as [->|Hne].
    + rewrite load_store_same in Hl. inversion Hl; subst. exact E.
    + rewrite load_store_other in Hl by exact Hne. exact (Hcl i ent Hl).
  - inversion Hcopy; subst. exact Hcl.
Qed.

Lemma Optimize_chain_clear : forall fuel Cell First i g L g' L',
  new_clear L -> Optimize_chain fuel Cell First i (g, L) = Some (g', L') ->
  new_clear L'.
Proof.
  induction fuel as [|fuel IH]; intros Cell First i g L g' L' Hcl Hrun;
    cbn [Optimize_chain] in Hrun.
  - destruct (i =? 0); [|discriminate]. inversion Hrun; subst. exact Hcl.
  - destruct (i =? 0); [inversion Hrun; subst; exact Hcl|].
    apply bind_Some in Hrun. destruct Hrun as [Reference [_ Hrun]].
    apply bind_Some in Hrun. destruct Hrun as [Entity [_ Hrun]].
    destruct (Optimize_copy g L (Ref Reference) Entity)
      as [[g1 L1] Entity1] eqn:Hcopy.
    apply bind_Some in Hrun. destruct Hrun as [g2 [_ Hrun]].
    apply IH in Hrun; [exact Hrun|].
    intros j ent Hl. cbn [NewEntities] in Hl.
    exact (Optimize_copy_clear _ _ _ _ _ _ _ Hcl Hcopy j ent Hl).
Qed.

Lemma foldM_inv : forall (A S : Type) (P : S -> Prop)
    (f : S -> A -> option S) l s s',
  (forall s a s', P s -> f s a = Some s' -> P s') ->
  P s -> foldM f l s = Some s' -> P s'.
Proof.
  intros A S P f l. induction l as [|a l IH]; intros s s' Hstep HP Hrun;
    simpl in Hrun.
  - inversion Hrun; subst. exact HP.
  - apply bind_Some in Hrun. destruct Hrun as [s1 [Hs1 Hrun]].
    apply (IH s1 s' Hstep); [|exact Hrun]. exact (Hstep s a s1 HP Hs1).
Qed.

(** C10.  Whatever grid [Optimize] is run on, when it ends every record
    found in the rebuilt entity arena has [Copied = 0]: a record is copied
    only while its [Copied] is still zero, and before the old record's
    [Copied] is assigned.  On a grid reached with room, and with room for
    a [Tick], the pass does end (given fuel for the longest chain), and
    every index it has handed out holds such a record. *)
Theorem Optimize_leaves_Copied_zero :
  (forall fuel g g',
     Optimize fuel g = Some g' ->
     forall i ent, load (Entities g') i = Some ent -> Copied ent = 0) /\
  (forall g fuel,
     bounded g -> tick_room g -> Used (References g) <= Z.of_nat fuel ->
     exists g',
       Optimize fuel g = Some g' /\
       forall i, 1 <= i < Used (Entities g') ->
         exists ent, load (Entities g') i = Some ent /\ Copied ent = 0).
Proof.
  assert (Hany : forall fuel g g',
            Optimize fuel g = Some g' ->
            forall i ent, load (Entities g') i = Some ent -> Copied ent = 0).
  { intros fuel g g' HO i ent Hl. unfold Optimize in HO.
    apply bind_Some in HO. destruct HO as [[g1 L] [Hfold HO]].
    inversion HO; subst g'. clear HO.
    cbn [set_References set_Entities Entities] in Hl.
    assert (Hcl : new_clear (snd (g1, L))).
    { refine (foldM_inv _ _ (fun s => new_clear (snd s)) _ _ _ _ _ _ Hfold).
      - intros [g2 L2] Cell [g3 L3] Hcl Hcell. unfold Optimize_cell in Hcell.
        apply bind_Some in Hcell. destruct Hcell as [h [_ Hchain]].
        exact (Optimize_chain_clear _ _ _ _ _ _ _ _ Hcl Hchain).
      - intros j e Hj. cbn in Hj. discriminate. }
    exact (Hcl i ent Hl). }
  split; [exact Hany|].
  intros g fuel Hb Hroom Hfuel.
  destruct (bounded_wf g Hb) as [sv [Hwf Hcl]].
  destruct (Optimize_wf g sv fuel Hwf Hcl Hfuel) as [g' [HO [Hwf' _]]].
  exists g'. split; [exact HO|].
  intros i Hi. destruct (wf_ents _ _ Hwf' i Hi) as [ent Hl].
  exists ent. split; [exact Hl|]. exact (Hany fuel g g' HO i ent Hl).
Qed.

Lemma Optimize_leaves_Copied_zero_witness :
  bounded grid_tall_wide /\ tick_room grid_tall_wide /\
  Used (References grid_tall_wide) <= Z.of_nat 8 /\
  exists g',
    Optimize 8 grid_tall_wide = Some g' /\
    load (Entities g') 1 = Some wide /\ load (Entities g') 2 = Some tall /\
    Copied wide = 0 /\ Copied tall = 0 /\
    forall i, 1 <= i < Used (Entities g') ->
      exists ent, load (Entities g') i = Some ent /\ Copied ent = 0.
Proof.
  assert (Hr : bounded grid_tall_wide) by exact grid_tall_wide_bounded.
  assert (Ht : tick_room grid_tall_wide) by exact grid_tall_wide_tick_room.
  assert (Hf : Used (References grid_tall_wide) <= Z.of_nat 8)
    by (vm_compute; discriminate).
  refine (conj Hr (conj Ht (conj Hf _))).
  destruct (proj2 Optimize_leaves_Copied_zero grid_tall_wide 8%nat Hr Ht Hf)
    as [g' [HO Hall]].
  exists g'.
  assert (HO' : Optimize 8 grid_tall_wide
                = Some (or_else (Optimize 8 grid_tall_wide) grid_2x2))
    by (vm_compute; reflexivity).
  assert (Hg : g' = or_else (Optimize 8 grid_tall_wide) grid_2x2)
    by congruence.
  assert (H1 : load (Entities g') 1 = Some wide)
    by (rewrite Hg; vm_compute; reflexivity).
  assert (H2 : load (Entities g') 2 = Some tall)
    by (rewrite Hg; vm_compute; reflexivity).
  refine (conj HO (conj H1 (conj H2 (conj _ (conj _ Hall))))).
  - exact (proj1 Optimize_leaves_Copied_zero 8%nat grid_tall_wide g' HO 1 wide H1).
  - exact (proj1 Optimize_leaves_Copied_zero 8%nat grid_tall_wide g' HO 2 tall H2).
Defined.

(** ** Ticking twice *)

(** The chains that compaction builds depend on the old view only through
    the renamed view. *)
Lemma relabel_same : forall o1 o2 v1 v2 s,
  map (map (rank o1)) v1 = map (map (rank o2)) v2 ->
  relabel o1 s v1 = relabel o2 s v2.
Proof.
  intros o1 o2 v1. induction v1 as [|c1 v1 IH]; intros v2 s Heq;
    destruct v2 as [|c2 v2]; simpl in Heq; try discriminate; [reflexivity|].
  inversion Heq as [[Hc Hv]]. simpl.
  assert (Hlen : length c1 = length c2)
    by (rewrite <- (length_map (rank o1) c1), Hc; apply length_map).
  unfold relabel_chain. rewrite Hc, Hlen. f_equal. apply IH. exact Hv.
Qed.

Lemma chains_same_heads : forall m1 m2 hs1 hs2 sv,
  Forall2 (chain m1) hs1 sv -> Forall2 (chain m2) hs2 sv -> hs1 = hs2.
Proof.
  intros m1 m2 hs1 hs2 sv H1. revert hs2.
  induction H1 as [|h1 c hs1 sv Hc1 H1 IH]; intros hs2 H2;
    inversion H2 as [|h2 c' hs2' sv' Hc2 H2']; subst; [reflexivity|].
  f_equal.
  - rewrite (chain_head _ _ _ Hc1), (chain_head _ _ _ Hc2). reflexivity.
  - apply IH. exact H2'.
Qed.

(** C8.  On a grid reached with room, and with room for a [Tick], two
    calls of [Tick] in a row both end, print the same count, and the second
    compaction changes nothing that can be reached: same cell heads, same
    chains in the same order, same entity records at the same indices.  The
    first [Tick] leaves room for the second: it does not raise [Used] in
    either arena. *)
Theorem Tick_twice_same_count : forall g fuel,
  bounded g -> tick_room g -> Used (References g) <= Z.of_nat fuel ->
  exists r1 r2 c,
    Tick fuel g = Some r1 /\
    Tick fuel (grid_after (snd r1)) = Some r2 /\
    Tick_scan fuel (grid_after (snd r1)) = Some c /\
    Tick_scan fuel (grid_after (snd r2)) = Some c /\
    printed (snd r1) = cout_line c /\
    printed (snd r2) = cout_line c /\
    view (grid_after (snd r2)) = view (grid_after (snd r1)) /\
    Cells (grid_after (snd r2)) = Cells (grid_after (snd r1)) /\
    Used (Entities (grid_after (snd r2)))
      = Used (Entities (grid_after (snd r1))) /\
    (forall i, 1 <= i < Used (Entities (grid_after (snd r1))) ->
       load (Entities (grid_after (snd r2))) i
       = load (Entities (grid_after (snd r1))) i) /\
    tick_room (grid_after (snd r1)).
Proof.
  intros g fuel Hb Hroom Hfuel.
  destruct (bounded_wf g Hb) as [sv [Hwf Hcl]].
  destruct (Optimize_wf g sv fuel Hwf Hcl Hfuel)
    as [g1 [HO1 [Hwf1 [Hcl1 [HU1 _]]]]].
  set (v := map (map snd) sv) in *.
  set (order := discovery_order v) in *.
  assert (Hfuel1 : Used (References g1) <= Z.of_nat fuel).
  { rewrite (wf_count _ _ Hwf1), relabel_concat_length.
    unfold v. rewrite <- concat_map, length_map.
    rewrite <- (wf_count _ _ Hwf). exact Hfuel. }
  destruct (Optimize_wf g1 _ fuel Hwf1 Hcl1 Hfuel1)
    as [g2 [HO2 [Hwf2 [_ [HU2 [Hnew2 _]]]]]].
  rewrite relabel_snd in *.
  set (v1 := map (map (rank order)) v) in *.
  assert (Hv1 : map (map (rank (discovery_order v1))) v1 = v1)
    by apply relabel_compacted.
  assert (Hsame : relabel (discovery_order v1) 1 v1 = relabel order 1 v)
    by (apply relabel_same; exact Hv1).
  rewrite Hsame in Hwf2.
  assert (Hview1 : view g1 = v1)
    by (rewrite (view_wf g1 _ Hwf1); apply relabel_snd).
  assert (Hview2 : view g2 = v1)
    by (rewrite (view_wf g2 _ Hwf2); apply relabel_snd).
  pose proof (Tick_scan_wf g1 _ fuel Hwf1 Hfuel1) as Hscan1.
  assert (Hfuel2 : Used (References g2) <= Z.of_nat fuel)
    by (rewrite (wf_count _ _ Hwf2), <- (wf_count _ _ Hwf1); exact Hfuel1).
  pose proof (Tick_scan_wf g2 _ fuel Hwf2 Hfuel2) as Hscan2.
  rewrite Hview2 in Hscan2. rewrite Hview1 in Hscan1.
  set (c := wrap32 (Z.of_nat (length (scan_pairs v1)))) in *.
  assert (Hroom1 : tick_room g1).
  { destruct Hroom as [HrE HrR]. split.
    - assert (Hle : Z.of_nat (length order)
                    <= Z.max 0 (Used (Entities g) - 1)).
      { apply NoDup_bounded_length; [apply discovery_order_NoDup|].
        intros e He. apply discovery_order_In in He.
        apply (view_refs_range g sv e Hwf).
        rewrite (view_wf g sv Hwf). exact He. }
      pose proof (wf_usedE _ _ Hwf). lia.
    - rewrite (wf_count _ _ Hwf1), relabel_concat_length.
      unfold v. rewrite <- concat_map, length_map.
      rewrite <- (wf_count _ _ Hwf). exact HrR. }
  exists (tt, {| grid_after := g1; printed := cout_line c |}),
         (tt, {| grid_after := g2; printed := cout_line c |}), c.
  cbn [snd grid_after printed].
  assert (Hord1 : discovery_order v1 = zseq 1 (length order))
    by apply discovery_order_compacted.
  conj; try reflexivity; try assumption.
  - unfold Tick. rewrite HO1. cbn [bind]. rewrite Hscan1. reflexivity.
  - unfold Tick. rewrite HO2. cbn [bind]. rewrite Hscan2. reflexivity.
  - congruence.
  - exact (chains_same_heads _ _ _ _ _ (wf_chains _ _ Hwf2)
             (wf_chains _ _ Hwf1)).
  - rewrite HU2, HU1, Hord1, zseq_length. reflexivity.
  - intros i Hi. rewrite HU1 in Hi.
    specialize (Hnew2 (Z.to_nat (i - 1))).
    replace (Z.of_nat (Z.to_nat (i - 1)) + 1) with i in Hnew2 by lia.
    rewrite Hnew2 by (rewrite Hord1, zseq_length; lia).
    rewrite Hord1, nth_zseq by lia. f_equal. lia.
Qed.

Lemma Tick_twice_same_count_witness :
  bounded grid_wide_tall /\ tick_room grid_wide_tall /\
  Used (References grid_wide_tall) <= Z.of_nat 8 /\
  exists r1 r2,
    Tick 8 grid_wide_tall = Some r1 /\
    Tick 8 (grid_after (snd r1)) = Some r2 /\
    printed (snd r2) = printed (snd r1) /\
    view (grid_after (snd r2)) = view (grid_after (snd r1)).
Proof.
  assert (H1 : bounded grid_wide_tall) by exact grid_wide_tall_bounded.
  assert (H0 : tick_room grid_wide_tall) by exact grid_wide_tall_tick_room.
  assert (H2 : Used (References grid_wide_tall) <= Z.of_nat 8)
    by (vm_compute; discriminate).
  refine (conj H1 (conj H0 (conj H2 _))).
  destruct (Tick_twice_same_count grid_wide_tall 8 H1 H0 H2)
    as [r1 [r2 [c [HT1 [HT2 [_ [_ [Hp1 [Hp2 [Hv _]]]]]]]]]].
  exists r1, r2. split; [exact HT1|]. split; [exact HT2|].
  split; [congruence | exact Hv].
Defined.

(** ** What the scan counts *)

Lemma all_pairs_both : forall c a b,
  In a c -> In b c -> a <> b -> In (norm (a, b)) (all_pairs c).
Proof.
  induction c as [|r rest IH]; intros a b Ha Hb Hne; [destruct Ha|].
  simpl. apply in_or_app.
  destruct Ha as [->|Ha]; destruct Hb as [->|Hb].
  - contradiction.
  - left. apply in_map_iff. exists b. auto.
  - left. apply in_map_iff. exists a. split; [apply norm_sym | exact Ha].
  - right. apply IH; assumption.
Qed.

Lemma all_pairs_distinct : forall c p,
  NoDup c -> In p (all_pairs c) ->
  exists a b, p = norm (a, b) /\ In a c /\ In b c /\ a <> b.
Proof.
  induction c as [|r rest IH]; intros p Hnd Hin; simpl in Hin;
    [destruct Hin|].
  inversion Hnd as [|r' rest' Hr Hnd']; subst.
  apply in_app_iff in Hin. destruct Hin as [Hin|Hin].
  - apply in_map_iff in Hin. destruct Hin as [b [Hp Hb]].
    exists r, b. simpl. conj; auto. intro Heq. subst. contradiction.
  - destruct (IH p Hnd' Hin) as [a [b [Hp [Ha [Hb Hne]]]]].
    exists a, b. simpl. auto.
Qed.

(** The list [cooccurring_pairs] holds each unordered pair of distinct
    entities that share a cell, once, smaller index first. *)
Lemma cooccurring_pairs_spec : forall v a b,
  Forall (fun c => NoDup c) v ->
  (In (a, b) (cooccurring_pairs v) <->
   a < b /\ exists c, In c v /\ In a c /\ In b c).
Proof.
  intros v a b Hnd. unfold cooccurring_pairs. rewrite nodup_In, in_concat.
  split.
  - intros [l [Hl Hin]]. apply in_map_iff in Hl. destruct Hl as [c [<- Hc]].
    rewrite Forall_forall in Hnd.
    destruct (all_pairs_distinct c _ (Hnd c Hc) Hin)
      as [x [y [Hp [Hx [Hy Hne]]]]].
    unfold norm in Hp. simpl in Hp. inversion Hp; subst.
    split; [lia|]. exists c. split; [exact Hc|].
    destruct (Z.le_ge_cases x y).
    + rewrite Z.min_l, Z.max_r by lia. auto.
    + rewrite Z.min_r, Z.max_l by lia. auto.
  - intros [Hlt [c [Hc [Ha Hb]]]]. exists (all_pairs c).
    split; [apply in_map; exact Hc|].
    replace (a, b) with (norm (a, b))
      by (unfold norm; simpl; f_equal; lia).
    apply all_pairs_both; [exact Ha | exact Hb | lia].
Qed.











(** C1.  The scan loses a pair by the order of a chain.  [tall] and
    [wide] share cell (1,0), and they are the only two entities: one pair
    co-occurs.  With [wide] inserted first the chain of the shared cell
    names [tall] first and [Tick] prints 1.  With [tall] inserted first
    the same chain names [wide] first; [wide] is at the watermark that
    cell (0,0) has left, so the outer loop skips it, and the inner loop
    started from [tall] has nothing behind it: [Tick] prints 0. *)
Lemma Tick_scan_misses_a_pair :
  (exists g1,
     Optimize 8 grid_tall_wide = Some g1 /\
     view g1 = [[1]; []; [1; 2]; [2]] /\
     cooccurring_pairs (view g1) = [(1, 2)] /\
     Tick_scan 8 g1 = Some 0) /\
  (exists g2,
     Optimize 8 grid_wide_tall = Some g2 /\
     view g2 = [[1]; []; [2; 1]; [2]] /\
     cooccurring_pairs (view g2) = [(1, 2)] /\
     Tick_scan 8 g2 = Some 1) /\
  option_map (fun r => printed (snd r)) (Tick 8 grid_tall_wide)
    = Some (cout_line 0) /\
  option_map (fun r => printed (snd r)) (Tick 8 grid_wide_tall)
    = Some (cout_line 1).
Proof.
  split; [|split; [|split]].
  - exists (or_else (Optimize 8 grid_tall_wide) grid_2x2).
    split; [vm_compute; reflexivity|].
    split; [vm_compute; reflexivity|].
    split; vm_compute; reflexivity.
  - exists (or_else (Optimize 8 grid_wide_tall) grid_2x2).
    split; [vm_compute; reflexivity|].
    split; [vm_compute; reflexivity|].
    split; vm_compute; reflexivity.
  - vm_compute. reflexivity.
  - vm_compute. reflexivity.
Qed.

(** ** What Tick hands back *)

(** C2, as the code has it.  On a grid reached with room, and with room
    for a [Tick], [Tick] runs [Optimize], scans the compacted grid, and
    prints the count followed by [" registered broad collisions"]; its
    result is the unit value of a [void] method. *)
Theorem Tick_compacts_then_prints_count : forall g fuel,
  bounded g -> tick_room g -> Used (References g) <= Z.of_nat fuel ->
  exists g1 c,
    Optimize fuel g = Some g1 /\
    Tick_scan fuel g1 = Some c /\
    Tick fuel g = Some (tt, {| grid_after := g1; printed := cout_line c |}).
Proof.
  intros g fuel Hb Hroom Hfuel.
  destruct (bounded_wf g Hb) as [sv [Hwf Hcl]].
  destruct (Tick_of_wf g sv fuel Hwf Hcl Hfuel)
    as [g1 [HO [HT [Hwf1 [_ [_ [_ HUR]]]]]]].
  exists g1. eexists. split; [exact HO|]. split; [|exact HT].
  apply (Tick_scan_wf g1 _ fuel Hwf1). lia.
Qed.

Lemma Tick_compacts_then_prints_count_witness :
  bounded grid_wide_tall /\ tick_room grid_wide_tall /\
  Used (References grid_wide_tall) <= Z.of_nat 8 /\
  exists g1 c,
    Optimize 8 grid_wide_tall = Some g1 /\
    Tick_scan 8 g1 = Some c /\
    Tick 8 grid_wide_tall
      = Some (tt, {| grid_after := g1; printed := cout_line c |}).
Proof.
  assert (H1 : bounded grid_wide_tall) by exact grid_wide_tall_bounded.
  assert (H0 : tick_room grid_wide_tall) by exact grid_wide_tall_tick_room.
  assert (H2 : Used (References grid_wide_tall) <= Z.of_nat 8)
    by (vm_compute; discriminate).
  exact (conj H1 (conj H0 (conj H2
           (Tick_compacts_then_prints_count grid_wide_tall 8 H1 H0 H2)))).
Defined.

(** C2, as stated, fails: the two grids below have different counts, and
    [Tick] hands the same value back for both; the count only goes to the
    output. *)
Lemma Tick_result_is_not_the_count :
  exists ra rb,
    Tick 8 grid_tall_wide = Some ra /\ Tick 8 grid_wide_tall = Some rb /\
    printed (snd ra) = cout_line 0 /\ printed (snd rb) = cout_line 1 /\
    fst ra = fst rb.
Proof.
  destruct (Tick 8 grid_tall_wide) as [ra|] eqn:Ha;
    [|vm_compute in Ha; discriminate].
  destruct (Tick 8 grid_wide_tall) as [rb|] eqn:Hb;
    [|vm_compute in Hb; discriminate].
  exists ra, rb. split; [reflexivity|]. split; [reflexivity|].
  assert (Hpa : option_map (fun r => printed (snd r)) (Tick 8 grid_tall_wide)
                = Some (cout_line 0)) by (vm_compute; reflexivity).
  assert (Hpb : option_map (fun r => printed (snd r)) (Tick 8 grid_wide_tall)
                = Some (cout_line 1)) by (vm_compute; reflexivity).
  rewrite Ha in Hpa. rewrite Hb in Hpb. simpl in Hpa, Hpb.
  inversion Hpa. inversion Hpb.
  destruct ra as [[] ea], rb as [[] eb]. simpl. auto.
Qed.

(** ** The cell table and the two cell loops *)

(** C4.  The table has [CellCountX * CellCountY] entries (as a 32-bit
    product), and the addresses that the cell loops of [Optimize] and [Tick]
    visit include [CellsEnd], which is not an entry of the table: what the
    loops do depends on the word stored after it. *)
Theorem cell_loops_visit_CellsEnd :
  (forall gc cd raw,
     Z.of_nat (length (Cells (UGrid_new gc cd raw)))
       = wrap32 (CX gc * CY gc) /\
     CellsEnd (UGrid_new gc cd raw)
       = Z.of_nat (length (Cells (UGrid_new gc cd raw))) /\
     In (CellsEnd (UGrid_new gc cd raw)) (cell_addrs (UGrid_new gc cd raw)) /\
     nth_error (Cells (UGrid_new gc cd raw))
               (Z.to_nat (CellsEnd (UGrid_new gc cd raw))) = None /\
     read_cell (UGrid_new gc cd raw) (CellsEnd (UGrid_new gc cd raw))
       = Some (raw (wrap32 (CX gc * CY gc)))) /\
  Cells (grid_1x1_over 7) = Cells (grid_1x1_over 0) /\
  cell_addrs (grid_1x1_over 7) = [0; 1] /\
  Tick_scan 4 (grid_1x1_over 0) = Some 0 /\
  Tick_scan 4 (grid_1x1_over 7) = None /\
  Optimize 4 (grid_1x1_over 7) = None.
Proof.
  split; [|repeat split; vm_compute; reflexivity].
  intros gc cd raw.
  pose proof (wrap32_range (CX gc * CY gc)) as Hw.
  assert (Hlen : Z.of_nat (length (Cells (UGrid_new gc cd raw)))
                 = wrap32 (CX gc * CY gc)).
  { unfold UGrid_new. cbn [Cells]. rewrite length_map, length_seq. lia. }
  assert (Hend : CellsEnd (UGrid_new gc cd raw) = wrap32 (CX gc * CY gc))
    by reflexivity.
  conj.
  - exact Hlen.
  - rewrite Hend, Hlen. reflexivity.
  - unfold cell_addrs. rewrite Hend. apply in_map_iff.
    exists (Z.to_nat (wrap32 (CX gc * CY gc))). split; [lia|].
    apply in_seq. lia.
  - apply nth_error_None. rewrite Hend. lia.
  - rewrite Hend, <- Hlen. rewrite read_cell_past. cbn [Past UGrid_new].
    rewrite Hlen. reflexivity.
Qed.

(** ** Construction *)

(** C9, as the code has it.  The constructor checks nothing: for any
    counts and dimensions it yields a grid whose table has
    [CellCountX * CellCountY] (mod 2^32) entries and whose inverse
    dimensions are [1.0f / dimension]; a zero count gives an empty table and
    a zero dimension an infinite inverse. *)
Theorem UGrid_new_takes_any_geometry : forall gc cd raw,
  GridCells (UGrid_new gc cd raw) = gc /\
  CellDim (UGrid_new gc cd raw) = cd /\
  Z.of_nat (length (Cells (UGrid_new gc cd raw))) = wrap32 (CX gc * CY gc) /\
  InverseCellDim (UGrid_new gc cd raw)
    = {| W := f32_div f32_one (W cd); H := f32_div f32_one (H cd) |} /\
  (wrap32 (CX gc * CY gc) = 0 -> Cells (UGrid_new gc cd raw) = []) /\
  (forall s, W cd = S754_zero s ->
     W (InverseCellDim (UGrid_new gc cd raw)) = S754_infinity s) /\
  (forall s, H cd = S754_zero s ->
     H (InverseCellDim (UGrid_new gc cd raw)) = S754_infinity s).
Proof.
  intros gc cd raw.
  pose proof (wrap32_range (CX gc * CY gc)) as Hw.
  conj; try reflexivity.
  - unfold UGrid_new. cbn [Cells]. rewrite length_map, length_seq. lia.
  - intro Hz. unfold UGrid_new. cbn [Cells]. rewrite Hz. reflexivity.
  - intros s Hs. unfold UGrid_new. cbn [InverseCellDim W]. rewrite Hs.
    destruct s; reflexivity.
  - intros s Hs. unfold UGrid_new. cbn [InverseCellDim H]. rewrite Hs.
    destruct s; reflexivity.
Qed.

(** C9, as stated, fails: zero counts and zero dimensions are accepted, and
    give a grid with an empty table and infinite inverse dimensions. *)
Lemma UGrid_new_accepts_zero_geometry :
  Cells (UGrid_new {| CX := 0; CY := 0 |}
                   {| W := f32_zero; H := f32_zero |} grid_zero) = [] /\
  CellsEnd (UGrid_new {| CX := 0; CY := 0 |}
                      {| W := f32_zero; H := f32_zero |} grid_zero) = 0 /\
  InverseCellDim (UGrid_new {| CX := 0; CY := 0 |}
                            {| W := f32_zero; H := f32_zero |} grid_zero)
    = {| W := S754_infinity false; H := S754_infinity false |}.
Proof. repeat split; vm_compute; reflexivity. Qed.

(** ** Positions to cells *)

Lemma scaled_negative : forall x inv,
  f32_ltb x f32_zero = true -> is_finite inv = true ->
  f32_to_u32 (f32_mul (std_max_f32 x f32_zero) inv) = Some 0.
Proof.
  intros x inv Hneg Hfin. unfold std_max_f32. rewrite Hneg.
  destruct inv; try discriminate; reflexivity.
Qed.

(** Where the conversion is defined [PosToCell] clamps.  On a grid with at
    least one cell per axis, [PosToCell] has a result exactly when both
    scaled coordinates ([max(coordinate, 0)] times the inverse cell size)
    convert to [uint32_t]; the result is then the truncated value clamped
    to [CellCount - 1] and lies in the table; and a negative coordinate
    maps to cell 0 on its axis when the inverse cell size is finite. *)
Theorem PosToCell_clamps_when_defined : forall g P,
  geometry_ok (GridCells g) ->
  (forall c, PosToCell g P = Some c <->
     exists x y,
       f32_to_u32 (scaled_X g P) = Some x /\
       f32_to_u32 (scaled_Y g P) = Some y /\
       c = {| CX := Z.min (CX (GridCells g) - 1) x;
              CY := Z.min (CY (GridCells g) - 1) y |}) /\
  (forall c, PosToCell g P = Some c ->
     0 <= CX c <= CX (GridCells g) - 1 /\
     0 <= CY c <= CY (GridCells g) - 1) /\
  (f32_ltb (X P) f32_zero = true ->
   is_finite (W (InverseCellDim g)) = true ->
   f32_to_u32 (scaled_X g P) = Some 0) /\
  (f32_ltb (Y P) f32_zero = true ->
   is_finite (H (InverseCellDim g)) = true ->
   f32_to_u32 (scaled_Y g P) = Some 0).
Proof.
  intros g P Hgeom. pose proof Hgeom as [Hx [Hy Hxy]].
  assert (Hwx : wrap32 (CX (GridCells g) - 1) = CX (GridCells g) - 1)
    by (apply wrap32_small; nia).
  assert (Hwy : wrap32 (CY (GridCells g) - 1) = CY (GridCells g) - 1)
    by (apply wrap32_small; nia).
  conj.
  - intro c. unfold PosToCell. fold (scaled_X g P). fold (scaled_Y g P).
    split.
    + intro HP. apply bind_Some in HP. destruct HP as [x [Hfx HP]].
      apply bind_Some in HP. destruct HP as [y [Hfy HP]].
      exists x, y. rewrite Hwx, Hwy, !std_min_u32_min in HP.
      inversion HP. auto.
    + intros [x [y [Hfx [Hfy ->]]]]. rewrite Hfx, Hfy. cbn [bind].
      rewrite Hwx, Hwy, !std_min_u32_min. reflexivity.
  - intros c HP. exact (PosToCell_range g P c Hgeom HP).
  - apply scaled_negative.
  - apply scaled_negative.
Qed.

Lemma PosToCell_clamps_when_defined_witness :
  geometry_ok (GridCells grid_2x2) /\
  PosToCell grid_2x2 {| X := f32_of_Z (-3); Y := f32_of_Z 25 |}
    = Some {| CX := 0; CY := 1 |} /\
  0 <= 0 <= CX (GridCells grid_2x2) - 1 /\
  0 <= 1 <= CY (GridCells grid_2x2) - 1.
Proof.
  assert (H1 : geometry_ok (GridCells grid_2x2))
    by (unfold geometry_ok; simpl; lia).
  assert (H2 : PosToCell grid_2x2 {| X := f32_of_Z (-3); Y := f32_of_Z 25 |}
               = Some {| CX := 0; CY := 1 |}) by (vm_compute; reflexivity).
  refine (conj H1 (conj H2 _)).
  exact (proj1 (proj2 (PosToCell_clamps_when_defined grid_2x2 _ H1)) _ H2).
Defined.

(** C6.  The lower clamp is taken on the float, before the conversion; the
    upper clamp is taken on the converted integer.  So a finite position
    far outside the grid is not clamped into the last cell: its scaled
    coordinate, here 109951164416, does not fit [uint32_t] and the
    conversion that comes before [std::min] has no defined result.  The
    same holds for a coordinate that is not a number, which [std::max]
    hands on unchanged. *)
Lemma PosToCell_undefined_far_outside :
  PosToCell grid_2x2 {| X := f32_of_Z (2 ^ 40); Y := f32_of_Z 5 |} = None /\
  f32_trunc (scaled_X grid_2x2 {| X := f32_of_Z (2 ^ 40); Y := f32_of_Z 5 |})
    = Some 109951164416 /\
  PosToCell grid_2x2 {| X := S754_nan; Y := f32_of_Z 5 |} = None /\
  PosToCell grid_2x2 {| X := f32_of_Z 1000; Y := f32_of_Z 5 |}
    = Some {| CX := 1; CY := 0 |}.
Proof. repeat split; vm_compute; reflexivity. Qed.

(** ** Index zero *)

Lemma Get_no_free : forall (T : Type) (O : Overlay T) (l : UGridList T),
  Free l = 0 ->
  exists l', Get l = Some (Used l, l') /\
             Used l' = wrap32 (Used l + 1) /\ Free l' = 0.
Proof.
  intros T O l HF. unfold Get. rewrite HF. simpl.
  destruct (Used l =? Size l); eexists; (split; [reflexivity|]);
    simpl; auto.
Qed.

(** After [n] calls of [Get] on a new arena, [Used] is [n + 1]. *)
Lemma arena_after_Gets : forall (T : Type) (O : Overlay T) n,
  0 <= n -> n + 1 < 2 ^ 32 ->
  exists l : UGridList T,
    arena_reachable l /\ Used l = n + 1 /\ Free l = 0.
Proof.
  intros T O n Hn. pattern n. apply natlike_ind; [| |exact Hn].
  - intros _. exists UGridList_new. split; [constructor|]. split; reflexivity.
  - intros m Hm IH Hlt. destruct IH as [l [Hreach [HU HF]]]; [lia|].
    destruct (Get_no_free T O l HF) as [l' [HGet [HU' HF']]].
    exists l'. split; [eapply arena_Get; eassumption|]. split; [|exact HF'].
    rewrite HU', HU. apply wrap32_small. lia.
Qed.




(** ** The free list of an arena *)

Lemma Get_n_app : forall (T : Type) (O : Overlay T) n m (l : UGridList T),
  Get_n (n + m) l
  = '(a, l1) <- Get_n n l ;;
    '(b, l2) <- Get_n m l1 ;;
    Some (a ++ b, l2).
Proof.
  intros T O n m. induction n as [|n IH]; intro l; simpl.
  - destruct (Get_n m l) as [[b l2]|]; reflexivity.
  - destruct (Get l) as [[i l1]|]; simpl; [|reflexivity].
    rewrite IH. destruct (Get_n n l1) as [[a l2]|]; simpl; [|reflexivity].
    destruct (Get_n m l2) as [[b l3]|]; reflexivity.
Qed.

Lemma arena_ok_fits :
  forall (T : Type) (O : Overlay T) (l : UGridList T),
    arena_ok l -> 1 <= Used l <= Size l.
Proof.
  intros T O l Hok. induction Hok as [|l i l' Hok IH Hlt HGet
                                      |l i Hok IH Hi|l i v Hok IH Hi].
  - simpl. lia.
  - unfold Get in HGet. destruct (Free l =? 0); cbn [negb] in HGet.
    + inversion HGet; subst; clear HGet. cbn [Used Size].
      destruct (Used l =? Size l) eqn:E.
      * apply Z.eqb_eq in E. cbn [grow Used Size].
        rewrite Z.shiftl_mul_pow2 by lia. change (2 ^ 1) with 2.
        rewrite !wrap32_small by lia.
        replace (Size l * 2) with (2 * Size l) by lia.
        assert (Hlor : Z.lor (2 * Size l) 1 = 2 * Size l + 1).
        { rewrite <- Z.lxor_lor, <- Z.add_nocarry_lxor; try reflexivity;
            change 1 with (Z.ones 1); rewrite Z.land_ones by lia;
            change (2 ^ 1) with 2; rewrite Z.mul_comm; apply Z.mod_mul; lia. }
        rewrite Hlor. lia.
      * apply Z.eqb_neq in E. rewrite wrap32_small by lia. lia.
    + apply bind_Some in HGet. destruct HGet as [w [_ HGet]].
      inversion HGet; subst. cbn [Used Size]. exact IH.
  - exact IH.
  - exact IH.
Qed.

Lemma Get_n_ok : forall (T : Type) (O : Overlay T) n (l : UGridList T),
  arena_ok l -> Free l = 0 -> Used l + Z.of_nat n <= 2 ^ 31 ->
  exists idxs l',
    Get_n n l = Some (idxs, l') /\ arena_ok l' /\ Free l' = 0 /\
    Used l' = Used l + Z.of_nat n.
Proof.
  intros T O n. induction n as [|n IH]; intros l Hok HF Hroom.
  - exists [], l. simpl. repeat split; try assumption. lia.
  - pose proof (arena_ok_fits T O l Hok) as Hfit.
    rewrite Nat2Z.inj_succ in Hroom.
    destruct (Get_fresh T O l HF) as [l1 [HGet [HU1 [HF1 _]]]];
      [lia | lia |].
    assert (Hok1 : arena_ok l1)
      by (apply (ok_Get l (Used l) l1 Hok); [lia | exact HGet]).
    destruct (IH l1 Hok1 HF1) as [idxs [l2 [HG [Hok2 [HF2 HU2]]]]]; [lia|].
    exists (Used l :: idxs), l2. cbn [Get_n]. rewrite HGet. cbn [bind].
    rewrite HG. cbn [bind]. repeat split; try assumption. lia.
Qed.

Lemma arena_after_ok : forall (T : Type) (O : Overlay T) n,
  Z.of_nat n < 2 ^ 31 ->
  arena_ok (arena_after T n) /\ Free (arena_after T n) = 0 /\
  Used (arena_after T n) = 1 + Z.of_nat n.
Proof.
  intros T O n Hn.
  destruct (Get_n_ok T O n UGridList_new) as [idxs [l [HG [Hok [HF HU]]]]];
    [apply ok_new | reflexivity | cbn [Used UGridList_new]; lia |].
  unfold arena_after. rewrite HG. repeat split; assumption.
Qed.

(** X1.  The free list is a stack.  Take an arena as a caller has it and
    distinct indices of slots of its storage ([1 <= i < Used], which lies
    within the capacity): after [Ret] of these indices, as many calls of
    [Get] hand the same indices back, last returned first, touch no other
    slot, and leave [Free], [Used] and [Size] as they were before the
    first [Ret]. *)
Theorem Ret_then_Get_is_a_stack :
  forall (T : Type) (O : Overlay T) (idxs : list Z) (l : UGridList T),
    arena_ok l ->
    NoDup idxs -> Forall (fun i => 1 <= i < Used l) idxs ->
    exists l',
      Get_n (length idxs) (Ret_all l idxs) = Some (rev idxs, l') /\
      Free l' = Free l /\ Used l' = Used l /\ Size l' = Size l /\
      (forall j, ~ In j idxs -> List l' j = List l j) /\
      (forall j, In j idxs -> load l' j = None) /\
      Used l <= Size l.
Proof.
  intros T O idxs l Hok0.
  pose proof (arena_ok_fits T O l Hok0) as Hfit0.
  cut (NoDup idxs -> Forall (fun i => 1 <= i < Used l) idxs ->
       exists l',
         Get_n (length idxs) (Ret_all l idxs) = Some (rev idxs, l') /\
         Free l' = Free l /\ Used l' = Used l /\ Size l' = Size l /\
         (forall j, ~ In j idxs -> List l' j = List l j) /\
         (forall j, In j idxs -> load l' j = None)).
  { intros Hcut Hnd Hin.
    destruct (Hcut Hnd Hin) as [l' [H1 [H2 [H3 [H4 [H5 H6]]]]]].
    exists l'. repeat split; try assumption. lia. }
  clear Hfit0. revert l Hok0.
  induction idxs as [|i idxs IH]; intros l Hcap Hnd Hin.
  - exists l. simpl. repeat split; try reflexivity. intros j [].
  - inversion Hnd as [|? ? Hni Hnd']; subst.
    inversion Hin as [|? ? Hi Hin']; subst.
    destruct (IH (Ret l i) (ok_Ret l i Hcap Hi) Hnd' Hin')
      as [l1 [HG [HF [HU [HS [Hout Hfree]]]]]].
    change (Ret_all l (i :: idxs)) with (Ret_all (Ret l i) idxs).
    replace (length (i :: idxs)) with (length idxs + 1)%nat
      by (simpl; lia).
    rewrite Get_n_app, HG. cbn [bind Get_n].
    assert (Hslot : List l1 i = Link (Free l)).
    { rewrite (Hout i Hni). simpl. unfold upd. rewrite Z.eqb_refl.
      reflexivity. }
    unfold Get. simpl in HF. rewrite HF.
    replace (i =? 0) with false by (symmetry; apply Z.eqb_neq; lia).
    cbn [negb]. unfold load_link. rewrite Hslot. cbn [bind].
    eexists. split; [reflexivity|]. cbn [Free Used Size List].
    split; [reflexivity|]. split; [exact HU|]. split; [exact HS|]. split.
    + intros j Hj. rewrite Hout by (intro; apply Hj; right; assumption).
      simpl. unfold upd.
      replace (j =? i) with false; [reflexivity|].
      symmetry. apply Z.eqb_neq. intro. apply Hj. left. congruence.
    + intros j [->|Hj].
      * unfold load. cbn [List]. rewrite Hslot. reflexivity.
      * unfold load. cbn [List]. specialize (Hfree j Hj).
        unfold load in Hfree. exact Hfree.
Qed.

Lemma Ret_then_Get_is_a_stack_witness :
  Used (arena_after UGridReference 4) = 5 /\
  Size (arena_after UGridReference 4) = 7 /\
  exists l',
    Get_n 3 (Ret_all (arena_after UGridReference 4) [3; 1; 2])
    = Some ([2; 1; 3], l') /\
    Free l' = 0 /\ Used l' = 5.
Proof.
  assert (HU : Used (arena_after UGridReference 4) = 5) by reflexivity.
  assert (HS : Size (arena_after UGridReference 4) = 7) by reflexivity.
  assert (Hcap : arena_ok (arena_after UGridReference 4))
    by (apply arena_after_ok; simpl; lia).
  assert (Hnd : NoDup [3; 1; 2]).
  { repeat constructor; simpl; intuition discriminate. }
  assert (Hin : Forall (fun i => 1 <= i < Used (arena_after UGridReference 4))
                  [3; 1; 2]).
  { rewrite HU. repeat constructor; lia. }
  destruct (Ret_then_Get_is_a_stack UGridReference _ [3; 1; 2]
              (arena_after UGridReference 4) Hcap Hnd Hin)
    as [l' [HG [HF [HU' _]]]].
  split; [exact HU|]. split; [exact HS|].
  exists l'. split; [exact HG|]. split; [exact HF|]. rewrite HU'. exact HU.
Defined.

(** X2.  Nothing guards against returning an index twice.  Take an arena
    as a caller has it and the index of a slot of its storage
    ([1 <= i < Used], which lies within the capacity): after two calls of
    [Ret] with that index, every later [Get] hands out that index again
    and leaves the arena as it is. *)
Theorem Ret_twice_hands_out_one_index_forever :
  forall (T : Type) (O : Overlay T) (l : UGridList T) i n,
    arena_ok l -> 1 <= i < Used l ->
    i < Size l /\
    Get_n n (Ret (Ret l i) i) = Some (repeat i n, Ret (Ret l i) i).
Proof.
  intros T O l i n Hok Hi.
  pose proof (arena_ok_fits T O l Hok) as Hfit. split; [lia|].
  induction n as [|n IH]; [reflexivity|].
  cbn [Get_n repeat].
  assert (HG : Get (Ret (Ret l i) i) = Some (i, Ret (Ret l i) i)).
  { unfold Get. cbn [Ret Free List Used Size].
    replace (i =? 0) with false by (symmetry; apply Z.eqb_neq; lia).
    cbn [negb]. unfold load_link, Ret. cbn [List Free]. unfold upd.
    rewrite Z.eqb_refl. reflexivity. }
  rewrite HG. cbn [bind]. rewrite IH. reflexivity.
Qed.

Lemma Ret_twice_hands_out_one_index_forever_witness :
  Used (arena_after UGridEntity 4) = 5 /\
  Size (arena_after UGridEntity 4) = 7 /\
  Get_n 4 (Ret (Ret (arena_after UGridEntity 4) 3) 3)
  = Some ([3; 3; 3; 3], Ret (Ret (arena_after UGridEntity 4) 3) 3).
Proof.
  assert (HU : Used (arena_after UGridEntity 4) = 5) by reflexivity.
  assert (HS : Size (arena_after UGridEntity 4) = 7) by reflexivity.
  split; [exact HU|]. split; [exact HS|].
  apply (Ret_twice_hands_out_one_index_forever UGridEntity _
           (arena_after UGridEntity 4) 3 4).
  - apply arena_after_ok. simpl. lia.
  - rewrite HU. lia.
Defined.

(** ** Capacity of an arena *)

Lemma lor_even_1 : forall m, Z.lor (2 * m) 1 = 2 * m + 1.
Proof.
  intro m. rewrite <- Z.lxor_lor, <- Z.add_nocarry_lxor; try reflexivity.
  - change 1 with (Z.ones 1). rewrite Z.land_ones by lia.
    change (2 ^ 1) with 2. rewrite Z.mul_comm. apply Z.mod_mul. lia.
  - change 1 with (Z.ones 1). rewrite Z.land_ones by lia.
    change (2 ^ 1) with 2. rewrite Z.mul_comm. apply Z.mod_mul. lia.
Qed.

(** The capacity after [Size = (Size << 1) | 1]. *)
Lemma grow_Size : forall (T : Type) (l : UGridList T) k,
  1 <= k <= 32 -> Size l = 2 ^ k - 1 ->
  Size (grow l) = 2 ^ Z.min (k + 1) 32 - 1.
Proof.
  intros T l k Hk HS. unfold grow. cbn [Size]. rewrite HS.
  rewrite Z.shiftl_mul_pow2 by lia. change (2 ^ 1) with 2.
  destruct (Z.eq_dec k 32) as [->|Hne].
  - reflexivity.
  - replace (Z.min (k + 1) 32) with (k + 1) by lia.
    assert (Hp : 2 ^ (k + 1) = 2 * 2 ^ k)
      by (rewrite Z.pow_add_r by lia; change (2 ^ 1) with 2; lia).
    assert (Hle : 2 ^ (k + 1) <= 2 ^ 32)
      by (apply Z.pow_le_mono_r; lia).
    assert (Hpos : 2 <= 2 ^ k)
      by (change 2 with (2 ^ 1) at 1; apply Z.pow_le_mono_r; lia).
    rewrite wrap32_small by lia.
    replace ((2 ^ k - 1) * 2) with (2 * (2 ^ k - 1)) by lia.
    rewrite lor_even_1. lia.
Qed.

Lemma all_ones_range : forall s, all_ones s -> 1 <= s <= 2 ^ 32 - 1.
Proof.
  intros s [k [Hk ->]].
  assert (2 ^ 1 <= 2 ^ k) by (apply Z.pow_le_mono_r; lia).
  assert (2 ^ k <= 2 ^ 32) by (apply Z.pow_le_mono_r; lia).
  change (2 ^ 1) with 2 in *. lia.
Qed.

Lemma arena_reachable_capacity :
  forall (T : Type) (O : Overlay T) (l : UGridList T),
    arena_reachable l -> all_ones (Size l) /\ 0 <= Used l <= Size l.
Proof.
  intros T O l Hr. induction Hr as [|l i l' Hr IH HGet|l i Hr IH|l i v Hr IH].
  - split; [exists 1; split; [lia | reflexivity] | simpl; lia].
  - destruct IH as [[k [Hk HS]] HU]. unfold Get in HGet.
    destruct (Free l =? 0); cbn [negb] in HGet.
    + inversion HGet; subst; clear HGet. cbn [Size Used].
      destruct (Used l =? Size l) eqn:E.
      * apply Z.eqb_eq in E. rewrite (grow_Size T l k Hk HS).
        cbn [grow Used]. split.
        -- exists (Z.min (k + 1) 32). split; [lia | reflexivity].
        -- unfold wrap32.
           pose proof (Z.mod_pos_bound (Used l + 1) (2 ^ 32)) as Hm.
           split; [lia|].
           destruct (Z.eq_dec k 32) as [->|Hne].
           ++ rewrite E, HS. vm_compute. discriminate.
           ++ replace (Z.min (k + 1) 32) with (k + 1) by lia.
              assert (Hp : 2 ^ (k + 1) = 2 * 2 ^ k)
                by (rewrite Z.pow_add_r by lia; change (2 ^ 1) with 2; lia).
              assert (Hle : 2 ^ (k + 1) <= 2 ^ 32)
                by (apply Z.pow_le_mono_r; lia).
              rewrite Z.mod_small by lia. lia.
      * apply Z.eqb_neq in E. split; [exists k; split; assumption|].
        pose proof (all_ones_range _ (ex_intro _ k (conj Hk HS))) as Hr'.
        rewrite wrap32_small by lia. lia.
    + apply bind_Some in HGet. destruct HGet as [w [_ HGet]].
      inversion HGet; subst. cbn [Size Used].
      split; [exists k; split; assumption | exact HU].
  - exact IH.
  - exact IH.
Qed.

(** X3.  In an arena used through [Get], [Ret] and assignments, the
    capacity is always of the form [2^k - 1] and [Used] never exceeds it; a
    slot handed out from fresh storage lies inside the storage that [Get]
    leaves, as long as fewer than [2^32 - 1] slots are in use.  At
    [Used = 2^32 - 1] the capacity cannot grow any more: [Get] hands out
    index [2^32 - 1] of a storage of [2^32 - 1] slots, and [Used] wraps to
    0. *)
Theorem Get_fresh_slot_is_inside_capacity :
  forall (T : Type) (O : Overlay T),
    (forall l : UGridList T,
       arena_reachable l ->
       all_ones (Size l) /\ 0 <= Used l <= Size l /\
       forall i l',
         Get l = Some (i, l') -> Free l = 0 -> Used l < 2 ^ 32 - 1 ->
         i = Used l /\ 0 <= i < Size l' /\
         (Size l' = Size l \/ Size l' = 2 * Size l + 1)) /\
    (exists l l' : UGridList T,
       arena_reachable l /\ Free l = 0 /\
       Get l = Some (2 ^ 32 - 1, l') /\
       Size l' = 2 ^ 32 - 1 /\ Used l' = 0).
Proof.
  intros T O. split.
  - intros l Hr.
    destruct (arena_reachable_capacity T O l Hr) as [Hones HU].
    split; [exact Hones|]. split; [exact HU|].
    intros i l' HGet HF Hlt. unfold Get in HGet. rewrite HF in HGet.
    cbn [Z.eqb negb] in HGet. inversion HGet; subst; clear HGet.
    cbn [Size]. destruct (Used l =? Size l) eqn:E.
    + apply Z.eqb_eq in E. destruct Hones as [k [Hk HS]].
      rewrite (grow_Size T l k Hk HS). cbn [grow Used].
      split; [reflexivity|].
      assert (Hne : k <> 32) by (intros ->; rewrite E, HS in Hlt; lia).
      replace (Z.min (k + 1) 32) with (k + 1) by lia.
      assert (Hp : 2 ^ (k + 1) = 2 * 2 ^ k)
        by (rewrite Z.pow_add_r by lia; change (2 ^ 1) with 2; lia).
      split; [lia|]. right. lia.
    + apply Z.eqb_neq in E. split; [reflexivity|]. split; [lia|].
      left. reflexivity.
  - destruct (arena_after_Gets T O (2 ^ 32 - 2)) as [l [Hr [HU HF]]];
      [lia | lia |].
    destruct (arena_reachable_capacity T O l Hr) as [Hones HUS].
    pose proof (all_ones_range _ Hones) as Hrange.
    assert (HS : Size l = 2 ^ 32 - 1) by lia.
    exists l. eexists. split; [exact Hr|]. split; [exact HF|].
    unfold Get. rewrite HF. cbn [Z.eqb negb].
    replace (Used l =? Size l) with true
      by (symmetry; apply Z.eqb_eq; lia).
    cbn [grow Used Size List Free]. rewrite HU, HS.
    split; [reflexivity|]. split; reflexivity.
Qed.

Lemma Get_fresh_slot_is_inside_capacity_witness :
  all_ones (Size (@UGridList_new UGridReference)) /\
  exists l',
    Get (@UGridList_new UGridReference) = Some (1, l') /\
    1 < Size l' /\ Size l' = 3.
Proof.
  assert (Hr : arena_reachable (@UGridList_new UGridReference))
    by constructor.
  destruct (proj1 (Get_fresh_slot_is_inside_capacity UGridReference _)
              UGridList_new Hr) as [Hones [_ Hget]].
  split; [exact Hones|].
  destruct (Get (@UGridList_new UGridReference)) as [[i l']|] eqn:HGet;
    [|vm_compute in HGet; discriminate].
  destruct (Hget i l' eq_refl) as [Hi [Hin Hsz]];
    [reflexivity | vm_compute; reflexivity |].
  assert (HS : Size l' = 3)
    by (vm_compute in HGet; inversion HGet; reflexivity).
  exists l'. simpl in Hi. subst i. split; [reflexivity|].
  split; [apply Hin | exact HS].
Defined.

Lemma Get_fits : forall (T : Type) (O : Overlay T) (l : UGridList T) i l',
  Get l = Some (i, l') -> Free l = 0 -> fits l -> Used l < 2 ^ 31 ->
  fits l' /\ Size l <= Size l' <= 2 * Size l + 1.
Proof.
  intros T O l i l' HGet HF [HU0 HUS] Hlt. unfold Get in HGet.
  rewrite HF in HGet. cbn [Z.eqb negb] in HGet.
  inversion HGet; subst; clear HGet. unfold fits. cbn [Used Size].
  destruct (Used l =? Size l) eqn:E.
  - apply Z.eqb_eq in E. cbn [grow Used Size].
    rewrite Z.shiftl_mul_pow2 by lia. change (2 ^ 1) with 2.
    rewrite !wrap32_small by lia.
    replace (Size l * 2) with (2 * Size l) by lia.
    rewrite lor_even_1. lia.
  - apply Z.eqb_neq in E. rewrite wrap32_small by lia. lia.
Qed.

(** ** Records put into an arena *)

Lemma zseq_cons : forall s n, zseq s (S n) = s :: zseq (s + 1) n.
Proof. reflexivity. Qed.

(** X4.  Take an arena as a caller has it, whose free list is empty.
    Records put into it by
    [Index = Get(); List[Index] = v], as long as [Used] stays at or below
    [2^31], get consecutive indices from [Used] on, and each of them is
    read back at its index after all the reallocations in between; the
    slots in use before are not touched, and [Used] stays within the
    capacity, so every record is written inside the storage. *)
Theorem push_all_keeps_every_record :
  forall (T : Type) (O : Overlay T) (vs : list T) (l : UGridList T),
    arena_ok l -> Free l = 0 ->
    Used l + Z.of_nat (length vs) <= 2 ^ 31 ->
    exists l',
      push_all l vs = Some (zseq (Used l) (length vs), l') /\
      Used l' = Used l + Z.of_nat (length vs) /\ Free l' = 0 /\
      arena_ok l' /\ Used l' <= Size l' /\
      (forall k, (k < length vs)%nat ->
         load l' (Used l + Z.of_nat k) = nth_error vs k) /\
      (forall j, 0 <= j < Used l -> List l' j = List l j).
Proof.
  intros T O vs. induction vs as [|v vs IH]; intros l Hok HF Hroom;
    pose proof (arena_ok_fits T O l Hok) as HU.
  - exists l. simpl. split; [reflexivity|]. split; [lia|].
    split; [exact HF|]. split; [exact Hok|]. split; [lia|].
    split; [intros k Hk; lia | reflexivity].
  - cbn [length] in Hroom. rewrite Nat2Z.inj_succ in Hroom.
    destruct (Get_fresh T O l HF) as [l1 [HGet [HU1 [HF1 Hold1]]]];
      [lia | lia |].
    assert (Hok1 : arena_ok (store l1 (Used l) v)).
    { apply ok_store; [|lia].
      apply (ok_Get l (Used l) l1 Hok); [lia | exact HGet]. }
    destruct (IH (store l1 (Used l) v) Hok1)
      as [l2 [Hpush [HU2 [HF2 [Hok2 [Hcap2 [Hnew Hold2]]]]]]];
      cbn [store Free Used Size]; [exact HF1 | lia |].
    cbn [store Used] in HU2, Hnew, Hold2, Hpush.
    exists l2. cbn [push_all]. rewrite HGet. cbn [bind].
    rewrite Hpush. cbn [bind]. rewrite HU1. split; [reflexivity|].
    split; [cbn [length]; lia|]. split; [exact HF2|].
    split; [exact Hok2|]. split; [exact Hcap2|]. split.
    + intros [|k] Hk.
      * cbn [nth_error]. unfold load. rewrite Hold2 by lia.
        cbn [List store]. unfold upd. rewrite Z.add_0_r, Z.eqb_refl.
        reflexivity.
      * cbn [nth_error]. rewrite <- Hnew by (cbn [length] in Hk; lia).
        f_equal. lia.
    + intros j Hj. rewrite Hold2 by lia. cbn [List store]. unfold upd.
      replace (j =? Used l) with false
        by (symmetry; apply Z.eqb_neq; lia).
      apply Hold1. exact Hj.
Qed.

Lemma push_all_keeps_every_record_witness :
  exists l',
    push_all UGridList_new
      [ {| Next := 0; Ref := 7 |}; {| Next := 1; Ref := 8 |};
        {| Next := 2; Ref := 9 |}; {| Next := 3; Ref := 10 |} ]
    = Some ([1; 2; 3; 4], l') /\
    Used l' = 5 /\ Used l' <= Size l' /\
    load l' 1 = Some {| Next := 0; Ref := 7 |} /\
    load l' 4 = Some {| Next := 3; Ref := 10 |}.
Proof.
  destruct (push_all_keeps_every_record UGridReference _
              [ {| Next := 0; Ref := 7 |}; {| Next := 1; Ref := 8 |};
                {| Next := 2; Ref := 9 |}; {| Next := 3; Ref := 10 |} ]
              UGridList_new)
    as [l' [Hpush [HU [_ [_ [Hcap [Hnew _]]]]]]];
    [constructor | reflexivity | simpl; lia |].
  exists l'. split; [exact Hpush|]. split; [exact HU|].
  split; [exact Hcap|]. split.
  - exact (Hnew 0%nat ltac:(simpl; lia)).
  - exact (Hnew 3%nat ltac:(simpl; lia)).
Defined.

(** ** Slots that Insert takes *)

Lemma write_cell_frame : forall g k v g',
  write_cell g k v = Some g' ->
  References g' = References g /\ Entities g' = Entities g /\
  GridCells g' = GridCells g.
Proof.
  intros g k v g' Hw. unfold write_cell in Hw.
  destruct ((0 <=? k) && (k <? Z.of_nat (length (Cells g)))).
  - inversion Hw; subst. repeat split.
  - destruct (k =? Z.of_nat (length (Cells g))); [|discriminate].
    inversion Hw; subst. repeat split.
Qed.

Lemma link_step_refl : forall Index g,
  Free (References g) = 0 -> link_step Index g g 0.
Proof.
  intros Index g HF. constructor; auto; try lia; intros s Hs; lia.
Qed.

Lemma link_step_trans : forall Index g1 g2 g3 n m,
  0 <= Used (References g1) -> 0 <= n -> 0 <= m ->
  link_step Index g1 g2 n -> link_step Index g2 g3 m ->
  link_step Index g1 g3 (n + m).
Proof.
  intros Index g1 g2 g3 n m HU Hn Hm H12 H23.
  pose proof (ls_used _ _ _ _ H12) as HU2.
  pose proof (ls_used _ _ _ _ H23) as HU3.
  constructor.
  - rewrite (ls_ents _ _ _ _ H23). exact (ls_ents _ _ _ _ H12).
  - rewrite (ls_geom _ _ _ _ H23). exact (ls_geom _ _ _ _ H12).
  - exact (ls_free _ _ _ _ H23).
  - lia.
  - intros s Hs. rewrite (ls_old _ _ _ _ H23) by lia.
    apply (ls_old _ _ _ _ H12). exact Hs.
  - intros s Hs.
    destruct (Z_lt_ge_dec s (Used (References g2))) as [Hlt|Hge].
    + destruct (ls_new _ _ _ _ H12 s) as [r [Hl Hr]]; [lia|].
      exists r. split; [|exact Hr]. unfold load in *.
      rewrite (ls_old _ _ _ _ H23) by lia. exact Hl.
    + apply (ls_new _ _ _ _ H23). lia.
  - intros Hf Hb. apply (ls_fits _ _ _ _ H23); [|lia].
    apply (ls_fits _ _ _ _ H12); [exact Hf | lia].
Qed.

Lemma Insert_link_step : forall g Cell Index g',
  Insert_link g Cell Index = Some g' ->
  Free (References g) = 0 -> 0 <= Used (References g) ->
  Used (References g) + 1 < 2 ^ 32 ->
  link_step Index g g' 1.
Proof.
  intros g Cell Index g' HI HF HU Hroom. unfold Insert_link in HI.
  destruct (Get_fresh _ _ (References g) HF HU Hroom)
    as [refs [HGet [HU1 [HF1 Hold]]]].
  rewrite HGet in HI. cbn [bind] in HI.
  apply bind_Some in HI. destruct HI as [head [_ Hw]].
  apply write_cell_frame in Hw. destruct Hw as [HR [HE HG]].
  constructor; rewrite ?HR, ?HE, ?HG; cbn [set_References Entities
    References GridCells store Free Used List]; auto.
  - intros s Hs. unfold upd.
    replace (s =? Used (References g)) with false
      by (symmetry; apply Z.eqb_neq; lia).
    apply Hold. exact Hs.
  - intros s Hs. assert (s = Used (References g)) by lia. subst s.
    eexists. split; [apply load_store_same | reflexivity].
  - intros Hf Hb. apply (Get_fits _ _ _ _ _ HGet HF Hf). lia.
Qed.

Lemma Insert_Y_step : forall n g Xc Yc EndY Index g',
  Insert_Y n g Xc Yc EndY Index = Some g' ->
  Free (References g) = 0 -> 0 <= Used (References g) ->
  0 <= Yc -> EndY + 1 < 2 ^ 32 ->
  Used (References g) + Z.max 0 (EndY - Yc + 1) < 2 ^ 32 ->
  link_step Index g g' (Z.max 0 (EndY - Yc + 1)).
Proof.
  induction n as [|n IH]; intros g Xc Yc EndY Index g' HI HF HU HY HE Hroom;
    cbn [Insert_Y] in HI; destruct (Yc <=? EndY) eqn:E;
    try discriminate.
  - apply Z.leb_gt in E. inversion HI; subst.
    replace (Z.max 0 (EndY - Yc + 1)) with 0 by lia.
    apply link_step_refl. exact HF.
  - apply Z.leb_le in E. apply bind_Some in HI.
    destruct HI as [g1 [H1 HI]].
    assert (Hs1 : link_step Index g g1 1)
      by (apply (Insert_link_step _ _ _ _ H1); [assumption | assumption | lia]).
    rewrite wrap32_small in HI by lia.
    assert (Hs2 : link_step Index g1 g' (Z.max 0 (EndY - (Yc + 1) + 1))).
    { apply (IH _ _ _ _ _ _ HI).
      - exact (ls_free _ _ _ _ Hs1).
      - rewrite (ls_used _ _ _ _ Hs1). lia.
      - lia.
      - exact HE.
      - rewrite (ls_used _ _ _ _ Hs1). lia. }
    replace (Z.max 0 (EndY - Yc + 1))
      with (1 + Z.max 0 (EndY - (Yc + 1) + 1)) by lia.
    apply (link_step_trans Index g g1 g'); try assumption; lia.
  - apply Z.leb_gt in E. inversion HI; subst.
    replace (Z.max 0 (EndY - Yc + 1)) with 0 by lia.
    apply link_step_refl. exact HF.
Qed.

Lemma Insert_X_step : forall n g Xc EndX StartY EndY Index g',
  Insert_X n g Xc EndX StartY EndY Index = Some g' ->
  Free (References g) = 0 -> 0 <= Used (References g) ->
  0 <= Xc -> EndX + 1 < 2 ^ 32 -> 0 <= StartY -> EndY + 1 < 2 ^ 32 ->
  Used (References g)
    + Z.max 0 (EndX - Xc + 1) * Z.max 0 (EndY - StartY + 1) < 2 ^ 32 ->
  link_step Index g g'
    (Z.max 0 (EndX - Xc + 1) * Z.max 0 (EndY - StartY + 1)).
Proof.
  induction n as [|n IH];
    intros g Xc EndX StartY EndY Index g' HI HF HU HX HEX HY HEY Hroom;
    cbn [Insert_X] in HI; destruct (Xc <=? EndX) eqn:E;
    try discriminate.
  - apply Z.leb_gt in E. inversion HI; subst.
    replace (Z.max 0 (EndX - Xc + 1)) with 0 by lia.
    apply link_step_refl. exact HF.
  - apply Z.leb_le in E. apply bind_Some in HI.
    destruct HI as [g1 [H1 HI]].
    set (h := Z.max 0 (EndY - StartY + 1)) in *.
    assert (Hh : 0 <= h) by (unfold h; lia).
    assert (Hsplit : Z.max 0 (EndX - Xc + 1) * h
                     = h + Z.max 0 (EndX - (Xc + 1) + 1) * h) by nia.
    assert (Hrest : 0 <= Z.max 0 (EndX - (Xc + 1) + 1) * h) by nia.
    assert (Hs1 : link_step Index g g1 h).
    { apply (Insert_Y_step _ _ _ _ _ _ _ H1); try assumption. fold h. lia. }
    rewrite wrap32_small in HI by lia.
    assert (Hs2 : link_step Index g1 g'
                    (Z.max 0 (EndX - (Xc + 1) + 1) * h)).
    { apply (IH _ _ _ _ _ _ _ HI); try assumption.
      - exact (ls_free _ _ _ _ Hs1).
      - rewrite (ls_used _ _ _ _ Hs1). lia.
      - lia.
      - rewrite (ls_used _ _ _ _ Hs1). fold h. lia. }
    rewrite Hsplit.
    apply (link_step_trans Index g g1 g'); assumption.
  - apply Z.leb_gt in E. inversion HI; subst.
    replace (Z.max 0 (EndX - Xc + 1)) with 0 by lia.
    apply link_step_refl. exact HF.
Qed.

Lemma span_cells_le : forall g Start End,
  geometry_ok (GridCells g) ->
  0 <= CX Start <= CX (GridCells g) - 1 ->
  0 <= CY Start <= CY (GridCells g) - 1 ->
  0 <= CX End <= CX (GridCells g) - 1 ->
  0 <= CY End <= CY (GridCells g) - 1 ->
  0 <= span_cells Start End <= CX (GridCells g) * CY (GridCells g).
Proof.
  intros g Start End [Hx [Hy Hxy]] HSX HSY HEX HEY. unfold span_cells.
  set (w := Z.max 0 (CX End - CX Start + 1)).
  set (h := Z.max 0 (CY End - CY Start + 1)).
  assert (Hw : 0 <= w <= CX (GridCells g)) by (unfold w; lia).
  assert (Hh : 0 <= h <= CY (GridCells g)) by (unfold h; lia).
  split; [nia|]. apply Z.mul_le_mono_nonneg; lia.
Qed.

(** What [Insert] leaves when it has a result, read off its loops. *)
Lemma Insert_steps : forall g sv e Start End g',
  wf g sv -> has_room g ->
  PosToCell g (lower_corner e) = Some Start ->
  PosToCell g (upper_corner e) = Some End ->
  Insert g e = Some g' ->
  exists g1 ents,
    Get (Entities g) = Some (Used (Entities g), ents) /\
    Entities g' = store ents (Used (Entities g)) e /\
    Entities g1 = Entities g' /\ References g1 = References g /\
    Cells g1 = Cells g /\ CellsEnd g1 = CellsEnd g /\ Past g1 = Past g /\
    GridCells g1 = GridCells g /\ CellDim g1 = CellDim g /\
    InverseCellDim g1 = InverseCellDim g /\
    Insert_X (Z.to_nat (CX End - CX Start + 1)) g1
             (CX Start) (CX End) (CY Start) (CY End) (Used (Entities g))
    = Some g' /\
    link_step (Used (Entities g)) g1 g' (span_cells Start End).
Proof.
  intros g sv e Start End g' Hwf Hroom HS HE HI.
  pose proof Hroom as [HroomE HroomR].
  pose proof (wf_usedE _ _ Hwf) as HUE.
  pose proof (wf_geom _ _ Hwf) as Hgeom.
  destruct (PosToCell_range g _ Start Hgeom HS) as [HSX HSY].
  destruct (PosToCell_range g _ End Hgeom HE) as [HEX HEY].
  pose proof (span_cells_le g Start End Hgeom HSX HSY HEX HEY) as Hspan.
  pose proof Hgeom as [Hgx [Hgy Hgxy]].
  assert (Hcx : CX (GridCells g) < 2 ^ 32) by nia.
  assert (Hcy : CY (GridCells g) < 2 ^ 32) by nia.
  unfold Insert in HI.
  destruct (Get_fresh _ _ (Entities g) (wf_freeE _ _ Hwf))
    as [ents [HGet _]]; [lia | lia |].
  rewrite HGet in HI. cbn [bind] in HI.
  set (g1 := set_Entities g (store ents (Used (Entities g)) e)) in *.
  change (PosToCell g1 _) with (PosToCell g1 (lower_corner e)) in HI at 1.
  rewrite (PosToCell_geometry g g1 (lower_corner e)), HS in HI
    by reflexivity.
  cbn [bind] in HI.
  change (PosToCell g1 _) with (PosToCell g1 (upper_corner e)) in HI.
  rewrite (PosToCell_geometry g g1 (upper_corner e)), HE in HI
    by reflexivity.
  cbn [bind] in HI.
  assert (Hstep : link_step (Used (Entities g)) g1 g' (span_cells Start End)).
  { unfold span_cells.
    apply (Insert_X_step _ _ _ _ _ _ _ _ HI); cbn [g1 set_Entities References];
      try lia.
    - exact (wf_freeR _ _ Hwf).
    - pose proof (wf_count _ _ Hwf). lia.
    - pose proof (wf_cells _ _ Hwf) as Hc. pose proof (wf_end _ _ Hwf) as He.
      unfold span_cells in Hspan. lia. }
  exists g1, ents. pose proof (ls_ents _ _ _ _ Hstep) as HE1.
  conj; try reflexivity; try assumption.
  symmetry. exact HE1.
Qed.

(** X5.  On a grid reached with room, and with room for one more [Insert],
    [Insert] of an entity whose corners fall in cells [Start] and [End]
    takes exactly one entity slot and one link slot per cell of the span
    (none when [End] lies before [Start] on an axis); every record stored
    before stays where it was, and each new link record names the new
    entity. *)
Theorem Insert_takes_one_link_slot_per_cell : forall g e Start End,
  bounded g -> insert_room g ->
  PosToCell g (lower_corner e) = Some Start ->
  PosToCell g (upper_corner e) = Some End ->
  exists g',
    Insert g e = Some g' /\
    Used (Entities g') = Used (Entities g) + 1 /\
    Used (References g') = Used (References g) + span_cells Start End /\
    (forall i, 1 <= i < Used (Entities g) ->
       load (Entities g') i = load (Entities g) i) /\
    (forall s, 1 <= s < Used (References g) ->
       load (References g') s = load (References g) s) /\
    (forall s, Used (References g) <= s < Used (References g') ->
       exists r, load (References g') s = Some r /\
                 Ref r = Used (Entities g)).
Proof.
  intros g e Start End Hb Hroom' HS HE.
  pose proof (insert_room_has_room g Hroom') as Hroom.
  destruct (bounded_wf g Hb) as [sv [Hwf _]].
  destruct (Insert_wf g sv e Start End Hwf Hroom HS HE)
    as [g' [sv' [HI [_ [_ [_ [HU [Hold _]]]]]]]].
  destruct (Insert_steps g sv e Start End g' Hwf Hroom HS HE HI)
    as [g1 [ents [_ [_ [_ [HR1 [_ [_ [_ [_ [_ [_ [_ Hstep]]]]]]]]]]]]].
  exists g'. split; [exact HI|]. split; [exact HU|].
  rewrite <- HR1. split; [exact (ls_used _ _ _ _ Hstep)|].
  split; [exact Hold|]. split.
  - intros s Hs. unfold load. rewrite (ls_old _ _ _ _ Hstep) by lia.
    reflexivity.
  - exact (ls_new _ _ _ _ Hstep).
Qed.

Lemma Insert_takes_one_link_slot_per_cell_witness :
  exists g',
    Insert grid_2x2 tall = Some g' /\
    Used (Entities g') = 2 /\ Used (References g') = 3.
Proof.
  assert (H1 : bounded grid_2x2) by exact grid_2x2_bounded.
  assert (H2 : insert_room grid_2x2) by exact grid_2x2_insert_room.
  assert (H3 : PosToCell grid_2x2 (lower_corner tall)
               = Some {| CX := 1; CY := 0 |}) by (vm_compute; reflexivity).
  assert (H4 : PosToCell grid_2x2 (upper_corner tall)
               = Some {| CX := 1; CY := 1 |}) by (vm_compute; reflexivity).
  destruct (Insert_takes_one_link_slot_per_cell grid_2x2 tall _ _ H1 H2 H3 H4)
    as [g' [HI [HUE [HUR _]]]].
  exists g'. split; [exact HI|]. split; [exact HUE | exact HUR].
Defined.

(** ** An entity whose span is empty *)

Lemma Insert_Y_empty : forall n g Xc Yc EndY Index,
  EndY < Yc -> Insert_Y n g Xc Yc EndY Index = Some g.
Proof.
  intros n g Xc Yc EndY Index Hlt.
  destruct n; cbn [Insert_Y];
    replace (Yc <=? EndY) with false by (symmetry; apply Z.leb_gt; exact Hlt);
    reflexivity.
Qed.

Lemma Insert_X_empty : forall n g Xc EndX StartY EndY Index g',
  Insert_X n g Xc EndX StartY EndY Index = Some g' ->
  EndX < Xc \/ EndY < StartY -> g' = g.
Proof.
  induction n as [|n IH]; intros g Xc EndX StartY EndY Index g' HI Hempty;
    cbn [Insert_X] in HI; destruct (Xc <=? EndX) eqn:E; try discriminate;
    try (inversion HI; reflexivity).
  apply Z.leb_le in E. destruct Hempty as [Hx|Hy]; [lia|].
  rewrite Insert_Y_empty in HI by exact Hy. cbn [bind] in HI.
  apply IH in HI; [exact HI | right; exact Hy].
Qed.

(** X6.  On a grid reached with room, and with room for one more [Insert]
    and a [Tick] after it: [Insert] of an entity whose upper corner falls
    in a cell before the cell of its lower corner (a negative extent)
    stores the record and links it into no cell.  The next [Tick] then
    prints the same count and leaves the same cell heads, chains and
    entity records as if the entity had never been inserted: the record is
    dropped by the compaction. *)
Theorem Insert_with_empty_span_is_dropped_by_Tick :
  forall g e Start End fuel,
    bounded g -> insert_room g -> Used (Entities g) + 1 < 2 ^ 31 ->
    Copied e = 0 ->
    PosToCell g (lower_corner e) = Some Start ->
    PosToCell g (upper_corner e) = Some End ->
    CX End < CX Start \/ CY End < CY Start ->
    Used (References g) <= Z.of_nat fuel ->
    exists g' r r',
      Insert g e = Some g' /\
      load (Entities g') (Used (Entities g)) = Some e /\
      Used (Entities g') = Used (Entities g) + 1 /\
      References g' = References g /\ Cells g' = Cells g /\
      Tick fuel g = Some r /\ Tick fuel g' = Some r' /\
      printed (snd r') = printed (snd r) /\
      view (grid_after (snd r')) = view (grid_after (snd r)) /\
      Cells (grid_after (snd r')) = Cells (grid_after (snd r)) /\
      Used (Entities (grid_after (snd r')))
        = Used (Entities (grid_after (snd r))) /\
      (forall i, 1 <= i < Used (Entities (grid_after (snd r))) ->
         load (Entities (grid_after (snd r'))) i
         = load (Entities (grid_after (snd r))) i).
Proof.
  intros g e Start End fuel Hb Hroom' Hnext He HS HE Hempty Hfuel.
  pose proof (insert_room_has_room g Hroom') as Hroom.
  pose proof (bounded_reachable g Hb) as Hr.
  destruct (reachable_wf g Hr) as [sv [Hwf Hcl]].
  destruct (Insert_wf g sv e Start End Hwf Hroom HS HE)
    as [g' [sv0 [HI [_ [_ [Hload [HU [Hold _]]]]]]]].
  destruct (Insert_steps g sv e Start End g' Hwf Hroom HS HE HI)
    as [g1 [ents [_ [_ [_ [HR1 [HC1 [_ [_ [_ [_ [_ [HX _]]]]]]]]]]]]].
  apply Insert_X_empty in HX; [|lia]. subst g1.
  assert (Hview : view g' = view g)
    by (unfold view; rewrite HR1, HC1; reflexivity).
  assert (Hr' : reachable g') by (eapply reach_Insert; eassumption).
  destruct (reachable_wf g' Hr') as [sv' [Hwf' Hcl']].
  destruct (Tick_of_wf g sv fuel Hwf Hcl Hfuel)
    as [t [_ [HT [Hwt [Hvt [HUt [Hnt _]]]]]]].
  destruct (Tick_of_wf g' sv' fuel Hwf' Hcl')
    as [t' [_ [HT' [Hwt' [Hvt' [HUt' [Hnt' _]]]]]]];
    [rewrite HR1; exact Hfuel|].
  rewrite Hview in *.
  assert (Hvv : view t' = view t) by congruence.
  exists g'. eexists. eexists.
  split; [exact HI|]. split; [exact Hload|]. split; [exact HU|].
  split; [exact HR1|]. split; [exact HC1|].
  split; [exact HT|]. split; [exact HT'|]. cbn [snd printed grid_after].
  split; [rewrite Hvv; reflexivity|]. split; [exact Hvv|]. split.
  { exact (chains_same_heads _ _ _ _ _ (wf_chains _ _ Hwt')
             (wf_chains _ _ Hwt)). }
  split; [congruence|].
  intros i Hi. rewrite HUt in Hi.
  specialize (Hnt (Z.to_nat (i - 1))). specialize (Hnt' (Z.to_nat (i - 1))).
  replace (Z.of_nat (Z.to_nat (i - 1)) + 1) with i in Hnt, Hnt' by lia.
  rewrite Hnt, Hnt' by lia. apply Hold.
  apply (view_refs_range g sv _ Hwf). apply discovery_order_In.
  apply nth_In. lia.
Qed.

Lemma Insert_with_empty_span_is_dropped_by_Tick_witness :
  exists g' r r',
    Insert grid_tall_wide inverted = Some g' /\
    load (Entities g') (Used (Entities grid_tall_wide)) = Some inverted /\
    Tick 8 grid_tall_wide = Some r /\ Tick 8 g' = Some r' /\
    printed (snd r') = printed (snd r) /\
    Used (Entities (grid_after (snd r'))) = 3.
Proof.
  assert (H1 : bounded grid_tall_wide) by exact grid_tall_wide_bounded.
  assert (H2 : insert_room grid_tall_wide)
    by (split; [vm_compute; reflexivity | vm_compute; discriminate]).
  assert (H8 : Used (Entities grid_tall_wide) + 1 < 2 ^ 31)
    by (vm_compute; reflexivity).
  assert (H3 : Copied inverted = 0) by reflexivity.
  assert (H4 : PosToCell grid_tall_wide (lower_corner inverted)
               = Some {| CX := 1; CY := 0 |}) by (vm_compute; reflexivity).
  assert (H5 : PosToCell grid_tall_wide (upper_corner inverted)
               = Some {| CX := 0; CY := 0 |}) by (vm_compute; reflexivity).
  assert (H6 : CX {| CX := 0; CY := 0 |} < CX {| CX := 1; CY := 0 |} \/
               CY {| CX := 0; CY := 0 |} < CY {| CX := 1; CY := 0 |})
    by (left; simpl; lia).
  assert (H7 : Used (References grid_tall_wide) <= Z.of_nat 8)
    by (vm_compute; discriminate).
  destruct (Insert_with_empty_span_is_dropped_by_Tick grid_tall_wide inverted
              _ _ 8%nat H1 H2 H8 H3 H4 H5 H6 H7)
    as [g' [r [r' [HI [Hl [_ [_ [_ [HT [HT' [Hp [_ [_ [HU _]]]]]]]]]]]]]].
  exists g', r, r'. split; [exact HI|]. split; [exact Hl|].
  split; [exact HT|]. split; [exact HT'|]. split; [exact Hp|].
  rewrite HU.
  assert (Hc : match Tick 8 grid_tall_wide with
               | Some r0 => Used (Entities (grid_after (snd r0)))
               | None => 0
               end = 3) by (vm_compute; reflexivity).
  rewrite HT in Hc. exact Hc.
Defined.

(** ** Used and Size *)

(** X7.  [Insert] keeps [Used] within the capacity of both arenas, as long
    as both stay below [2^31] slots: when [Used] reaches [Size], [Get]
    makes the capacity [2 * Size + 1] before it hands out the slot. *)
Theorem Insert_keeps_Used_within_Size : forall g e g',
  reachable g -> has_room g -> Insert g e = Some g' ->
  fits (Entities g) -> fits (References g) ->
  Used (Entities g) < 2 ^ 31 -> Used (References g) + CellsEnd g <= 2 ^ 31 ->
  fits (Entities g') /\ fits (References g') /\
  Size (Entities g) <= Size (Entities g') <= 2 * Size (Entities g) + 1.
Proof.
  intros g e g' Hr Hroom HI HfE HfR HbE HbR.
  destruct (reachable_wf g Hr) as [sv [Hwf _]].
  destruct (Insert_corners _ _ _ HI) as [Start [End [HS HE]]].
  destruct (Insert_steps g sv e Start End g' Hwf Hroom HS HE HI)
    as [g1 [ents [HGet [HE' [_ [HR1 [_ [HCE [_ [_ [_ [_ [_ Hstep]]]]]]]]]]]]].
  pose proof (wf_geom _ _ Hwf) as Hgeom.
  destruct (PosToCell_range g _ Start Hgeom HS) as [HSX HSY].
  destruct (PosToCell_range g _ End Hgeom HE) as [HEX HEY].
  pose proof (span_cells_le g Start End Hgeom HSX HSY HEX HEY) as Hspan.
  pose proof (wf_cells _ _ Hwf) as Hc. pose proof (wf_end _ _ Hwf) as Hend.
  destruct (Get_fits _ _ _ _ _ HGet (wf_freeE _ _ Hwf) HfE HbE)
    as [HfE' HSE'].
  split; [|split].
  - rewrite HE'. exact HfE'.
  - apply (ls_fits _ _ _ _ Hstep); rewrite HR1; [exact HfR | lia].
  - rewrite HE'. exact HSE'.
Qed.

Lemma Insert_keeps_Used_within_Size_witness :
  exists g',
    Insert grid_tall_wide inverted = Some g' /\
    fits (Entities g') /\ fits (References g').
Proof.
  assert (H1 : reachable grid_tall_wide) by exact grid_tall_wide_reachable.
  assert (H2 : has_room grid_tall_wide) by (split; vm_compute; reflexivity).
  assert (H3 : fits (Entities grid_tall_wide))
    by (unfold fits; split; vm_compute; discriminate).
  assert (H4 : fits (References grid_tall_wide))
    by (unfold fits; split; vm_compute; discriminate).
  assert (H5 : Used (Entities grid_tall_wide) < 2 ^ 31)
    by (vm_compute; reflexivity).
  assert (H6 : Used (References grid_tall_wide) + CellsEnd grid_tall_wide
               <= 2 ^ 31) by (vm_compute; discriminate).
  destruct (Insert grid_tall_wide inverted) as [g'|] eqn:HI;
    [|vm_compute in HI; discriminate].
  exists g'. split; [reflexivity|].
  destruct (Insert_keeps_Used_within_Size grid_tall_wide inverted g'
              H1 H2 HI H3 H4 H5 H6) as [HE [HR _]].
  split; assumption.
Defined.

(** The capacities of the new arenas do not change while [Optimize]
    walks. *)
Lemma Optimize_chain_Size : forall fuel Cell First i g L g' L',
  Optimize_chain fuel Cell First i (g, L) = Some (g', L') ->
  Size (NewEntities L') = Size (NewEntities L) /\
  Size (NewReferences L') = Size (NewReferences L).
Proof.
  induction fuel as [|fuel IH]; intros Cell First i g L g' L' Hrun;
    cbn [Optimize_chain] in Hrun.
  - destruct (i =? 0); [|discriminate]. inversion Hrun; subst. auto.
  - destruct (i =? 0); [inversion Hrun; subst; auto|].
    apply bind_Some in Hrun. destruct Hrun as [Reference [_ Hrun]].
    apply bind_Some in Hrun. destruct Hrun as [Entity [_ Hrun]].
    destruct (Optimize_copy g L (Ref Reference) Entity)
      as [[g1 L1] Entity1] eqn:Hcopy.
    apply bind_Some in Hrun. destruct Hrun as [g2 [_ Hrun]].
    apply IH in Hrun. cbn [NewEntities NewReferences store Size] in Hrun.
    assert (HL1 : Size (NewEntities L1) = Size (NewEntities L) /\
                  Size (NewReferences L1) = Size (NewReferences L)).
    { unfold Optimize_copy in Hcopy.
      destruct (Copied Entity =? 0); inversion Hcopy; subst; auto. }
    destruct Hrun as [H1 H2]. destruct HL1 as [H3 H4]. split; congruence.
Qed.

Lemma Optimize_Size : forall fuel g t,
  Optimize fuel g = Some t ->
  Size (Entities t)
    = Z.min (Size (Entities g)) (wrap32 (Used (Entities g) * 2)) /\
  Size (References t)
    = Z.min (Size (References g)) (wrap32 (Used (References g) * 2)).
Proof.
  intros fuel g t HO. unfold Optimize in HO.
  apply bind_Some in HO. destruct HO as [[g1 L] [Hfold HO]].
  inversion HO; subst t. clear HO.
  cbn [set_References set_Entities Entities References SetEnd Size].
  rewrite <- !std_min_u32_min.
  change (std_min_u32 (Size (Entities g)) (wrap32 (Used (Entities g) * 2)))
    with (Size (UGridList_copy (Entities g))).
  change (std_min_u32 (Size (References g))
            (wrap32 (Used (References g) * 2)))
    with (Size (UGridList_copy (References g))).
  refine (foldM_inv _ _
            (fun s => Size (NewEntities (snd s))
                      = Size (UGridList_copy (Entities g)) /\
                      Size (NewReferences (snd s))
                      = Size (UGridList_copy (References g)))
            _ _ _ _ _ _ Hfold).
  - intros [g2 L2] Cell [g3 L3] [H1 H2] Hcell. unfold Optimize_cell in Hcell.
    apply bind_Some in Hcell. destruct Hcell as [h [_ Hchain]].
    apply Optimize_chain_Size in Hchain. cbn [snd] in *.
    destruct Hchain as [H3 H4]. split; congruence.
  - split; reflexivity.
Qed.

(** *** Used stays within Size along a run with room *)

Lemma Insert_fits : forall g sv e g',
  wf g sv -> insert_room g -> Insert g e = Some g' ->
  fits (Entities g) -> fits (References g) ->
  fits (Entities g') /\ fits (References g').
Proof.
  intros g sv e g' Hwf Hroom' HI HfE HfR.
  pose proof (insert_room_has_room g Hroom') as Hroom.
  destruct Hroom' as [HbE HbR].
  destruct (Insert_corners _ _ _ HI) as [Start [End [HS HE]]].
  destruct (Insert_steps g sv e Start End g' Hwf Hroom HS HE HI)
    as [g1 [ents [HGet [HE' [_ [HR1 [_ [HCE [_ [_ [_ [_ [_ Hstep]]]]]]]]]]]]].
  pose proof (wf_geom _ _ Hwf) as Hgeom.
  destruct (PosToCell_range g _ Start Hgeom HS) as [HSX HSY].
  destruct (PosToCell_range g _ End Hgeom HE) as [HEX HEY].
  pose proof (span_cells_le g Start End Hgeom HSX HSY HEX HEY) as Hspan.
  pose proof (wf_cells _ _ Hwf) as Hc. pose proof (wf_end _ _ Hwf) as Hend.
  destruct (Get_fits _ _ _ _ _ HGet (wf_freeE _ _ Hwf) HfE HbE)
    as [HfE' _].
  split.
  - rewrite HE'. exact HfE'.
  - apply (ls_fits _ _ _ _ Hstep); rewrite HR1; [exact HfR | lia].
Qed.

Lemma Optimize_fits : forall g sv fuel t,
  wf g sv -> scratch_clear g -> tick_room g -> Optimize fuel g = Some t ->
  fits (Entities g) -> fits (References g) ->
  Used (References t) = Used (References g) /\
  1 <= Used (Entities t) <= Used (Entities g) /\
  fits (Entities t) /\ Size (Entities t) <= Size (Entities g) /\
  fits (References t) /\ Size (References t) <= Size (References g).
Proof.
  intros g sv fuel t Hwf Hcl [HbE HbR] HO [HE0 HES] [HR0 HRS].
  destruct (Tick_of_wf g sv (Nat.max fuel (Z.to_nat (Used (References g))))
              Hwf Hcl) as [t' [HO' [_ [_ [_ [HUt [_ HURt]]]]]]]; [lia|].
  rewrite (Optimize_mono fuel _ g t) in HO' by (lia || exact HO).
  inversion HO'; subst t'. clear HO'.
  destruct (Optimize_Size fuel g t HO) as [HSE HSR].
  pose proof (wf_usedE _ _ Hwf) as HUE.
  assert (Hle : Z.of_nat (length (discovery_order (view g)))
                <= Z.max 0 (Used (Entities g) - 1)).
  { apply NoDup_bounded_length; [apply discovery_order_NoDup|].
    intros e He. apply discovery_order_In in He.
    exact (view_refs_range g sv e Hwf He). }
  rewrite wrap32_small in HSE by lia. rewrite wrap32_small in HSR by lia.
  unfold fits. rewrite HSE, HSR, HURt. lia.
Qed.

Lemma bounded_fits : forall g,
  bounded g -> fits (Entities g) /\ fits (References g).
Proof.
  intros g Hb. induction Hb as [gc cd Hg | g e g' Hb IH He Hroom HI
                                | fuel g r Hb IH Hroom HT].
  - split; unfold fits; simpl; lia.
  - destruct IH as [HfE HfR]. destruct (bounded_wf g Hb) as [sv [Hwf _]].
    exact (Insert_fits g sv e g' Hwf Hroom HI HfE HfR).
  - destruct IH as [HfE HfR]. destruct (bounded_wf g Hb) as [sv [Hwf Hcl]].
    unfold Tick in HT. apply bind_Some in HT. destruct HT as [g1 [HO HT]].
    apply bind_Some in HT. destruct HT as [c [_ HT]].
    inversion HT; subst r. cbn [snd grid_after].
    destruct (Optimize_fits g sv fuel g1 Hwf Hcl Hroom HO HfE HfR)
      as [_ [_ [H1 [_ [H2 _]]]]].
    split; assumption.
Qed.

(** X13.  Along a run with room [Used] stays within [Size] in both
    arenas, and every index that the grid holds names a slot of the
    block: the entities that the chains name lie below the capacity of the
    entity arena, and the cell heads below the capacity of the link
    arena. *)
Theorem bounded_run_stays_within_capacity : forall g,
  bounded g ->
  fits (Entities g) /\ fits (References g) /\
  (forall e, In e (concat (view g)) -> 1 <= e < Size (Entities g)) /\
  (forall k, (k < length (Cells g))%nat ->
     0 <= nth k (Cells g) 0 < Size (References g)).
Proof.
  intros g Hb. destruct (bounded_fits g Hb) as [[HE0 HES] [HR0 HRS]].
  destruct (bounded_wf g Hb) as [sv [Hwf _]].
  pose proof (wf_count _ _ Hwf) as Hcount.
  split; [split; assumption|]. split; [split; assumption|]. split.
  - intros e He. pose proof (view_refs_range g sv e Hwf He). lia.
  - intros k Hk.
    assert (Hc : chain (List (References g)) (nth k (Cells g) 0)
                   (nth k sv []))
      by (apply Forall2_nth; [exact (wf_chains _ _ Hwf) | exact Hk]).
    pose proof (chain_head _ _ _ Hc) as Hhead.
    destruct (nth k sv []) as [|[s0 e] c] eqn:Enth.
    + rewrite Hhead. lia.
    + assert (Hin : In (s0, e) (concat sv)).
      { apply (in_nth_concat _ _ sv k). rewrite Enth. left. reflexivity. }
      pose proof (wf_slots _ _ Hwf s0 e Hin) as Hrange.
      rewrite Hhead. lia.
Qed.

Lemma bounded_run_stays_within_capacity_witness :
  fits (Entities grid_tall_wide) /\ fits (References grid_tall_wide) /\
  Size (Entities grid_tall_wide) = 3 /\
  Size (References grid_tall_wide) = 7.
Proof.
  destruct (bounded_run_stays_within_capacity grid_tall_wide
              grid_tall_wide_bounded) as [HE [HR _]].
  split; [exact HE|]. split; [exact HR|].
  split; vm_compute; reflexivity.
Defined.

(** X8.  On a grid reached with room, and with room for a [Tick],
    [Optimize] ends and keeps every link record (the link arena has as
    many slots in use as before), never has more entity slots in use than
    before, and gives each new arena the capacity [min(Size, Used * 2)] of
    the old one, which is not more than before and enough for every slot
    that the pass has written: [Used] was within the capacity before and
    is within it after. *)
Theorem Optimize_keeps_links_and_fits_new_storage : forall g fuel,
  bounded g -> tick_room g -> Used (References g) <= Z.of_nat fuel ->
  exists t,
    Optimize fuel g = Some t /\
    Used (References t) = Used (References g) /\
    1 <= Used (Entities t) <= Used (Entities g) /\
    Size (Entities t)
      = Z.min (Size (Entities g)) (Used (Entities g) * 2) /\
    Size (References t)
      = Z.min (Size (References g)) (Used (References g) * 2) /\
    fits (Entities g) /\ fits (References g) /\
    fits (Entities t) /\ Size (Entities t) <= Size (Entities g) /\
    fits (References t) /\ Size (References t) <= Size (References g).
Proof.
  intros g fuel Hb Hroom Hfuel.
  destruct (bounded_wf g Hb) as [sv [Hwf Hcl]].
  destruct (bounded_fits g Hb) as [HfE HfR].
  destruct (Tick_of_wf g sv fuel Hwf Hcl Hfuel) as [t [HO _]].
  destruct (Optimize_Size fuel g t HO) as [HSE HSR].
  destruct (Optimize_fits g sv fuel t Hwf Hcl Hroom HO HfE HfR)
    as [HUR [HUE [HfE' [HSE' [HfR' HSR']]]]].
  destruct Hroom as [HbE HbR]. destruct HfE as [HE0 HES].
  destruct HfR as [HR0 HRS].
  rewrite wrap32_small in HSE by lia. rewrite wrap32_small in HSR by lia.
  exists t. conj; try assumption; try lia; unfold fits; lia.
Qed.

Lemma Optimize_keeps_links_and_fits_new_storage_witness :
  exists t,
    Optimize 8 grid_tall_wide = Some t /\
    Used (References t) = Used (References grid_tall_wide) /\
    Used (Entities t) <= Used (Entities grid_tall_wide) /\
    fits (Entities t) /\ fits (References t).
Proof.
  assert (H1 : bounded grid_tall_wide) by exact grid_tall_wide_bounded.
  assert (H0 : tick_room grid_tall_wide) by exact grid_tall_wide_tick_room.
  assert (H2 : Used (References grid_tall_wide) <= Z.of_nat 8)
    by (vm_compute; discriminate).
  destruct (Optimize_keeps_links_and_fits_new_storage grid_tall_wide 8
              H1 H0 H2)
    as [t [HO [HUR [HUE [_ [_ [_ [_ [HfE [_ [HfR _]]]]]]]]]]].
  exists t. split; [exact HO|]. split; [exact HUR|].
  split; [exact (proj2 HUE)|]. split; assumption.
Defined.

(** ** The layout that Optimize leaves *)

Lemma chain_row : forall mem order c s i,
  chain mem i (relabel_chain order s c) ->
  i = match c with [] => 0 | _ :: _ => s end /\
  forall j, (j < length c)%nat ->
    mem (s + Z.of_nat j)
    = Full {| Next := if (S j =? length c)%nat then 0
                      else s + Z.of_nat j + 1;
              Ref := rank order (nth j c 0) |}.
Proof.
  intros mem order c. induction c as [|e c IH]; intros s i Hc.
  - split; [exact Hc|]. intros j Hj. simpl in Hj. lia.
  - rewrite relabel_chain_cons in Hc. unfold chain in Hc. cbn [lseg] in Hc.
    destruct Hc as [Hi [Hs [nx [Hm Hrest]]]].
    destruct (IH (s + 1) nx Hrest) as [Hnx Hrows].
    split; [exact Hi|]. intros [|j] Hj.
    + rewrite Z.add_0_r, Hm. cbn [nth]. f_equal. f_equal.
      rewrite Hnx. destruct c; reflexivity.
    + cbn [length] in Hj.
      replace (s + Z.of_nat (S j)) with (s + 1 + Z.of_nat j) by lia.
      rewrite Hrows by lia. reflexivity.
Qed.

Lemma relabel_layout : forall mem order v s hs,
  Forall2 (chain mem) hs (relabel order s v) ->
  forall k, (k < length v)%nat ->
    nth k hs 0
    = match nth k v [] with
      | [] => 0
      | _ :: _ => s + Z.of_nat (length (concat (firstn k v)))
      end /\
    forall j, (j < length (nth k v []))%nat ->
      mem (s + Z.of_nat (length (concat (firstn k v))) + Z.of_nat j)
      = Full {| Next := if (S j =? length (nth k v []))%nat then 0
                        else s + Z.of_nat (length (concat (firstn k v)))
                             + Z.of_nat j + 1;
                Ref := rank order (nth j (nth k v []) 0) |}.
Proof.
  intros mem order v. induction v as [|c v IH]; intros s hs HF k Hk;
    [simpl in Hk; lia|].
  cbn [relabel] in HF. inversion HF as [|h c' hs' sv' Hc HF']; subst.
  destruct k as [|k].
  - cbn [nth firstn concat length]. rewrite Z.add_0_r.
    exact (chain_row mem order c s h Hc).
  - cbn [length] in Hk. cbn [nth firstn concat].
    destruct (IH _ _ HF' k) as [Hh Hrows]; [lia|].
    rewrite length_app, Nat2Z.inj_add.
    replace (s + (Z.of_nat (length c)
                  + Z.of_nat (length (concat (firstn k v)))))
      with (s + Z.of_nat (length c)
            + Z.of_nat (length (concat (firstn k v)))) by lia.
    split; [exact Hh | exact Hrows].
Qed.

Lemma firstn_concat_length_map : forall (f : Z -> Z) v k,
  length (concat (firstn k (map (map f) v)))
  = length (concat (firstn k v)).
Proof.
  intros f v k. rewrite firstn_map, <- concat_map, length_map. reflexivity.
Qed.

(** X9.  On a grid reached with room, and with room for a [Tick],
    [Optimize] leaves the link records stored in a row: the chain of the first cell from slot 1 on, then the chain of the
    second cell, and so on in table order.  The record at place [j] of the
    chain of cell [k] is in slot [row_start + j], names the [j]-th entity of
    the chain, and points to the next slot, or to 0 at the end of the
    chain; the head of the cell is the first of these slots, or 0 for a
    cell without entities. *)
Theorem Optimize_stores_chains_in_a_row : forall g fuel,
  bounded g -> tick_room g -> Used (References g) <= Z.of_nat fuel ->
  exists t,
    Optimize fuel g = Some t /\
    length (Cells t) = length (Cells g) /\
    length (view t) = length (Cells t) /\
    Used (References t) = 1 + Z.of_nat (length (concat (view t))) /\
    forall k, (k < length (Cells t))%nat ->
      nth k (Cells t) 0
      = match nth k (view t) [] with
        | [] => 0
        | _ :: _ => row_start (view t) k
        end /\
      forall j, (j < length (nth k (view t) []))%nat ->
        load (References t) (row_start (view t) k + Z.of_nat j)
        = Some {| Next := if (S j =? length (nth k (view t) []))%nat then 0
                          else row_start (view t) k + Z.of_nat j + 1;
                  Ref := nth j (nth k (view t) []) 0 |}.
Proof.
  intros g fuel Hb Hroom Hfuel.
  destruct (bounded_wf g Hb) as [sv [Hwf Hcl]].
  destruct (Tick_of_wf g sv fuel Hwf Hcl Hfuel)
    as [t [HO [_ [Hwt [Hvt [_ [_ HURt]]]]]]].
  set (order := discovery_order (view g)) in *.
  pose proof (Forall2_length (wf_chains _ _ Hwt)) as Hlen.
  rewrite relabel_length in Hlen.
  assert (HlenG : length (view g) = length (Cells g))
    by (unfold view; apply length_map).
  exists t. split; [exact HO|]. split; [congruence|].
  split; [unfold view; apply length_map|]. split.
  { rewrite (wf_count _ _ Hwt), relabel_concat_length, Hvt.
    rewrite <- concat_map, length_map. reflexivity. }
  intros k Hk.
  destruct (relabel_layout _ order (view g) 1 (Cells t) (wf_chains _ _ Hwt) k)
    as [Hh Hrows]; [lia|].
  unfold row_start. rewrite Hvt, firstn_concat_length_map.
  assert (Hnth : nth k (map (map (rank order)) (view g)) []
                 = map (rank order) (nth k (view g) [])).
  { change (@nil Z) with (map (rank order) []) at 1. apply map_nth. }
  rewrite Hnth, length_map. split.
  - rewrite Hh. destruct (nth k (view g) []); reflexivity.
  - intros j Hj. apply load_Full. rewrite Hrows by exact Hj.
    f_equal. f_equal.
    rewrite (nth_indep (map (rank order) (nth k (view g) [])) 0
               (rank order 0)) by (rewrite length_map; exact Hj).
    rewrite map_nth. reflexivity.
Qed.

Lemma Optimize_stores_chains_in_a_row_witness :
  exists t,
    Optimize 8 grid_tall_wide = Some t /\
    view t = [[1]; []; [1; 2]; [2]] /\
    Cells t = [1; 0; 2; 4] /\
    load (References t) 2 = Some {| Next := 3; Ref := 1 |} /\
    load (References t) 3 = Some {| Next := 0; Ref := 2 |}.
Proof.
  assert (H1 : bounded grid_tall_wide) by exact grid_tall_wide_bounded.
  assert (H0 : tick_room grid_tall_wide) by exact grid_tall_wide_tick_room.
  assert (H2 : Used (References grid_tall_wide) <= Z.of_nat 8)
    by (vm_compute; discriminate).
  destruct (Optimize_stores_chains_in_a_row grid_tall_wide 8 H1 H0 H2)
    as [t [HO [HlenC [HlenV [_ Hrows]]]]].
  assert (Hc : match Optimize 8 grid_tall_wide with
               | Some t0 => view t0 = [[1]; []; [1; 2]; [2]] /\
                            Cells t0 = [1; 0; 2; 4]
               | None => False
               end) by (vm_compute; split; reflexivity).
  rewrite HO in Hc. destruct Hc as [Hv HC].
  exists t. split; [exact HO|]. split; [exact Hv|]. split; [exact HC|].
  destruct (Hrows 2%nat) as [_ Hr2]; [rewrite HC; simpl; lia|].
  rewrite Hv in Hr2. split.
  - exact (Hr2 0%nat ltac:(simpl; lia)).
  - exact (Hr2 1%nat ltac:(simpl; lia)).
Defined.

(** ** A grid right after construction *)

Lemma read_cell_new : forall gc cd raw k,
  0 <= k <= wrap32 (CX gc * CY gc) ->
  read_cell (UGrid_new gc cd raw) k = Some (raw k).
Proof.
  intros gc cd raw k Hk. unfold read_cell, UGrid_new. cbn [Cells Past].
  rewrite length_map, length_seq, Z2Nat.id by lia.
  destruct (Z.eq_dec k (wrap32 (CX gc * CY gc))) as [->|Hne].
  - replace (wrap32 (CX gc * CY gc) <? wrap32 (CX gc * CY gc)) with false
      by (symmetry; apply Z.ltb_ge; lia).
    rewrite andb_false_r, Z.eqb_refl. reflexivity.
  - replace (0 <=? k) with true by (symmetry; apply Z.leb_le; lia).
    replace (k <? wrap32 (CX gc * CY gc)) with true
      by (symmetry; apply Z.ltb_lt; lia).
    cbn [andb]. rewrite nth_error_map, nth_error_seq.
    replace (Z.to_nat k <? Z.to_nat (wrap32 (CX gc * CY gc)))%nat with true
      by (symmetry; apply Nat.ltb_lt; lia).
    cbn [option_map Nat.add]. rewrite Z2Nat.id by lia. reflexivity.
Qed.

Lemma cell_addrs_range : forall g k,
  0 <= CellsEnd g -> In k (cell_addrs g) <-> 0 <= k <= CellsEnd g.
Proof.
  intros g k HE. unfold cell_addrs. rewrite in_map_iff. split.
  - intros [n [<- Hn]]. apply in_seq in Hn. lia.
  - intro Hk. exists (Z.to_nat k). split; [lia|]. apply in_seq. lia.
Qed.

(** Over an arena that holds no record, the cell loop of [Optimize] passes
    the cells whose word is 0 and has no result at the first other one. *)
Lemma Optimize_cells_blank : forall fuel (raw : Z -> Z) l st,
  (forall i, load (References (fst st)) i = None) ->
  (forall k, In k l -> read_cell (fst st) k = Some (raw k)) ->
  foldM (Optimize_cell fuel) l st
  = if forallb (fun k => raw k =? 0) l then Some st else None.
Proof.
  intros fuel raw l. induction l as [|a l IH]; intros st Hblank Hread;
    [reflexivity|].
  cbn [foldM forallb]. unfold Optimize_cell at 1.
  rewrite (Hread a) by (left; reflexivity). cbn [bind].
  destruct (raw a =? 0) eqn:E.
  - apply Z.eqb_eq in E. rewrite E, Optimize_chain_zero. cbn [bind andb].
    apply IH; [exact Hblank|]. intros k Hk. apply Hread. right. exact Hk.
  - cbn [andb]. destruct st as [g L]. cbn [fst] in Hblank.
    destruct fuel; cbn [Optimize_chain]; rewrite E; [reflexivity|].
    rewrite Hblank. reflexivity.
Qed.

Lemma Tick_cells_blank : forall fuel g l,
  (forall k, In k l -> read_cell g k = Some 0) ->
  foldM (Tick_cell fuel g) l (0, 0) = Some (0, 0).
Proof.
  intros fuel g l. induction l as [|a l IH]; intro Hread; [reflexivity|].
  cbn [foldM]. unfold Tick_cell at 1.
  rewrite (Hread a) by (left; reflexivity). cbn [bind].
  rewrite Tick_chain_zero. cbn [bind].
  change (std_max_u32 0 0) with 0.
  apply IH. intros k Hk. apply Hread. right. exact Hk.
Qed.

Lemma forallb_zero_false : forall (raw : Z -> Z) l k,
  In k l -> raw k <> 0 -> forallb (fun k => raw k =? 0) l = false.
Proof.
  intros raw l k Hin Hne.
  destruct (forallb (fun k0 => raw k0 =? 0) l) eqn:E; [|reflexivity].
  rewrite forallb_forall in E. specialize (E k Hin).
  apply Z.eqb_eq in E. contradiction.
Qed.

(** X10.  The constructor does not initialise the cell table.  [Tick] on a
    grid right after construction has a result only when every word of the
    fresh block, and the word after it that both cell loops read, holds 0:
    it then prints a count of 0 and leaves empty arenas.  When one of these
    words is not 0, the compaction follows it as a chain head into an arena
    that holds no record. *)
Theorem Tick_on_new_grid_needs_zeroed_storage : forall gc cd raw fuel,
  ((forall k, 0 <= k <= wrap32 (CX gc * CY gc) -> raw k = 0) ->
   exists t,
     Tick fuel (UGrid_new gc cd raw)
     = Some (tt, {| grid_after := t; printed := cout_line 0 |}) /\
     Cells t = Cells (UGrid_new gc cd raw) /\
     Used (Entities t) = 1 /\ Used (References t) = 1 /\
     forall i, load (Entities t) i = None) /\
  (forall k, 0 <= k <= wrap32 (CX gc * CY gc) -> raw k <> 0 ->
     Optimize fuel (UGrid_new gc cd raw) = None /\
     Tick fuel (UGrid_new gc cd raw) = None).
Proof.
  intros gc cd raw fuel.
  set (g := UGrid_new gc cd raw).
  assert (HE : CellsEnd g = wrap32 (CX gc * CY gc)) by reflexivity.
  assert (Hpos : 0 <= wrap32 (CX gc * CY gc))
    by (unfold wrap32; apply Z.mod_pos_bound; lia).
  set (L0 := {| NewEntities := UGridList_copy (Entities g);
                CurrentEntity := 1;
                NewReferences := UGridList_copy (References g);
                CurrentReference := 1 |}).
  assert (Hfold : foldM (Optimize_cell fuel) (cell_addrs g) (g, L0)
                  = if forallb (fun k => raw k =? 0) (cell_addrs g)
                    then Some (g, L0) else None).
  { apply Optimize_cells_blank.
    - intro i. reflexivity.
    - intros k Hk. apply cell_addrs_range in Hk; [|lia].
      apply read_cell_new. lia. }
  split.
  - intro Hzero.
    assert (Hall : forallb (fun k => raw k =? 0) (cell_addrs g) = true).
    { apply forallb_forall. intros k Hk. apply cell_addrs_range in Hk; [|lia].
      apply Z.eqb_eq. apply Hzero. lia. }
    rewrite Hall in Hfold.
    eexists. split; [|split; [|split; [|split]]].
    + unfold Tick, Optimize. fold g. fold L0. rewrite Hfold. cbn [bind].
      unfold Tick_scan.
      match goal with
      | |- context [foldM (Tick_cell fuel ?t) (cell_addrs ?t) _] =>
          change (cell_addrs t) with (cell_addrs g);
          rewrite (Tick_cells_blank fuel t (cell_addrs g))
      end.
      * cbn [bind]. reflexivity.
      * intros k Hk. apply cell_addrs_range in Hk; [|lia].
        change (read_cell g k = Some 0).
        rewrite <- (Hzero k) by lia. apply read_cell_new. lia.
    + reflexivity.
    + reflexivity.
    + reflexivity.
    + intro i. reflexivity.
  - intros k Hk Hne.
    assert (Hall : forallb (fun k => raw k =? 0) (cell_addrs g) = false).
    { apply (forallb_zero_false raw _ k); [|exact Hne].
      apply cell_addrs_range; lia. }
    rewrite Hall in Hfold.
    assert (HO : Optimize fuel g = None).
    { unfold Optimize. fold L0. rewrite Hfold. reflexivity. }
    split; [exact HO|]. unfold Tick. rewrite HO. reflexivity.
Qed.

Lemma Tick_on_new_grid_needs_zeroed_storage_witness :
  (exists t,
     Tick 1 grid_2x2
     = Some (tt, {| grid_after := t; printed := cout_line 0 |}) /\
     Used (Entities t) = 1) /\
  Tick 1 (grid_1x1_over 7) = None.
Proof.
  split.
  - destruct (proj1 (Tick_on_new_grid_needs_zeroed_storage
                       {| CX := 2; CY := 2 |}
                       {| W := f32_of_Z 10; H := f32_of_Z 10 |}
                       grid_zero 1%nat)) as [t [HT [_ [HU _]]]].
    + intros k _. reflexivity.
    + exists t. split; [exact HT | exact HU].
  - apply (proj2 (Tick_on_new_grid_needs_zeroed_storage
                    {| CX := 1; CY := 1 |}
                    {| W := f32_of_Z 16; H := f32_of_Z 16 |}
                    (fun k => if k =? 1 then 7 else 0) 1%nat) 1).
    + vm_compute. split; discriminate.
    + discriminate.
Defined.

(** ** Entities that lie in a cell *)

Lemma in_span_dec : forall g Start End k,
  1 <= CY (GridCells g) ->
  0 <= CY Start -> CY End < CY (GridCells g) ->
  in_span g Start End k \/ ~ in_span g Start End k.
Proof.
  intros g Start End k Hcy HS HE.
  set (n := CY (GridCells g)) in *.
  destruct (Z_le_dec (CX Start) (k / n)) as [H1|H1];
    [|right; intros [x [y [Hx [Hy Hk]]]]; apply H1;
      assert (k / n = x) by (symmetry; apply (Z.div_unique k n x y); lia);
      lia].
  destruct (Z_le_dec (k / n) (CX End)) as [H2|H2];
    [|right; intros [x [y [Hx [Hy Hk]]]]; apply H2;
      assert (k / n = x) by (symmetry; apply (Z.div_unique k n x y); lia);
      lia].
  destruct (Z_le_dec (CY Start) (k mod n)) as [H3|H3];
    [|right; intros [x [y [Hx [Hy Hk]]]]; apply H3;
      assert (k mod n = y) by (symmetry; apply (Z.mod_unique k n x y); lia);
      lia].
  destruct (Z_le_dec (k mod n) (CY End)) as [H4|H4];
    [|right; intros [x [y [Hx [Hy Hk]]]]; apply H4;
      assert (k mod n = y) by (symmetry; apply (Z.mod_unique k n x y); lia);
      lia].
  left. exists (k / n), (k mod n). split; [lia|]. split; [lia|].
  pose proof (Z.div_mod k n). lia.
Qed.

Lemma in_concat_nth : forall (A : Type) (x : A) (ll : list (list A)),
  In x (concat ll) -> exists k, (k < length ll)%nat /\ In x (nth k ll []).
Proof.
  intros A x ll. induction ll as [|l ll IH]; simpl; intro Hin; [destruct Hin|].
  apply in_app_or in Hin. destruct Hin as [Hin|Hin].
  - exists 0%nat. split; [lia | exact Hin].
  - destruct (IH Hin) as [k [Hk Hx]]. exists (S k). split; [lia | exact Hx].
Qed.

Lemma spanned_bounded : forall g, spanned g -> bounded g.
Proof.
  intros g Hs. induction Hs.
  - apply bounded_new. assumption.
  - eapply bounded_Insert; eassumption.
  - eapply bounded_Tick; eassumption.
Qed.

Lemma spanned_reachable : forall g, spanned g -> reachable g.
Proof. intros g Hs. apply bounded_reachable, spanned_bounded. exact Hs. Qed.

(** After a pass every index in use is named by some chain. *)
Lemma Optimize_dense : forall g sv fuel t,
  wf g sv -> scratch_clear g -> Optimize fuel g = Some t ->
  forall i, 1 <= i < Used (Entities t) -> In i (concat (view t)).
Proof.
  intros g sv fuel t Hwf Hcl HO i Hi.
  destruct (Tick_of_wf g sv (Nat.max fuel (Z.to_nat (Used (References g))))
              Hwf Hcl) as [t' [HO' [_ [_ [Hvt [HUt _]]]]]]; [lia|].
  rewrite (Optimize_mono fuel _ g t) in HO' by (lia || exact HO).
  inversion HO'; subst t'. clear HO'.
  set (order := discovery_order (view g)) in *.
  rewrite HUt in Hi. rewrite Hvt, <- concat_map.
  apply in_map_iff. exists (nth (Z.to_nat (i - 1)) order 0). split.
  - rewrite nth_rank; [lia | apply discovery_order_NoDup | lia].
  - apply discovery_order_In. fold order. apply nth_In. lia.
Qed.

Lemma spanned_all_linked : forall g,
  spanned g ->
  forall i, 1 <= i < Used (Entities g) -> In i (concat (view g)).
Proof.
  intros g Hs. induction Hs as [gc cd Hg
                                | g e Start End g' Hs IH He Hroom' HS HE HX HY HI
                                | fuel g r Hs IH Hroom HT].
  - intros i Hi. simpl in Hi. lia.
  - pose proof (spanned_reachable g Hs) as Hr.
    pose proof (insert_room_has_room g Hroom') as Hroom.
    destruct (reachable_wf g Hr) as [sv [Hwf _]].
    destruct (Insert_wf g sv e Start End Hwf Hroom HS HE)
      as [g2 [sv' [HI2 [Hwf' [[Hlen Hl] [_ [HU _]]]]]]].
    rewrite HI in HI2. inversion HI2; subst g2. clear HI2.
    pose proof (wf_geom _ _ Hwf) as Hgeom.
    destruct (PosToCell_range g _ Start Hgeom HS) as [HSX HSY].
    destruct (PosToCell_range g _ End Hgeom HE) as [HEX HEY].
    pose proof Hgeom as [Hgx [Hgy Hgxy]].
    pose proof (Forall2_length (wf_chains _ _ Hwf)) as HlenC.
    pose proof (wf_cells _ _ Hwf) as Hcells.
    intros i Hi. rewrite (view_wf g' sv' Hwf'), <- concat_map.
    destruct (Z.eq_dec i (Used (Entities g))) as [->|Hne].
    + set (k0 := CX Start * CY (GridCells g) + CY Start).
      assert (Hk0 : 0 <= k0 < Z.of_nat (length sv)) by (unfold k0; nia).
      destruct (Hl (Z.to_nat k0)) as [Hin _]; [lia|].
      rewrite Z2Nat.id in Hin by lia.
      destruct Hin as [s [_ Hnth]].
      { exists (CX Start), (CY Start). split; [lia|]. split; [lia|].
        reflexivity. }
      apply in_map_iff. exists (s, Used (Entities g)). split; [reflexivity|].
      apply (in_nth_concat _ _ sv' (Z.to_nat k0)). rewrite Hnth.
      left. reflexivity.
    + assert (Hold : In i (concat (view g))) by (apply IH; lia).
      rewrite (view_wf g sv Hwf), <- concat_map in Hold.
      apply in_map_iff in Hold. destruct Hold as [[s i0] [Hi0 Hin]].
      simpl in Hi0. subst i0.
      apply in_concat_nth in Hin. destruct Hin as [k [Hk Hin]].
      apply in_map_iff. exists (s, i). split; [reflexivity|].
      apply (in_nth_concat _ _ sv' k).
      destruct (Hl k Hk) as [Hyes Hno].
      destruct (in_span_dec g Start End (Z.of_nat k)) as [Hv|Hv]; try lia.
      * destruct (Hyes Hv) as [s' [_ Hnth]]. rewrite Hnth. right. exact Hin.
      * rewrite (Hno Hv). exact Hin.
  - pose proof (spanned_reachable g Hs) as Hr.
    destruct (reachable_wf g Hr) as [sv [Hwf Hcl]].
    unfold Tick in HT. apply bind_Some in HT. destruct HT as [g1 [HO HT]].
    apply bind_Some in HT. destruct HT as [c [_ HT]].
    inversion HT; subst r. cbn [snd grid_after].
    exact (Optimize_dense g sv fuel g1 Hwf Hcl HO).
Qed.

Lemma NoDup_exact_length : forall (l : list Z) U,
  1 <= U -> NoDup l -> (forall e, In e l <-> 1 <= e < U) ->
  Z.of_nat (length l) = U - 1.
Proof.
  intros l U HU Hnd Hiff.
  assert (Hle : Z.of_nat (length l) <= Z.max 0 (U - 1))
    by (apply NoDup_bounded_length;
        [exact Hnd | intros e He; apply Hiff; exact He]).
  assert (Hincl : incl (zseq 1 (Z.to_nat (U - 1))) l).
  { intros e He. apply zseq_In in He. apply Hiff. lia. }
  apply NoDup_incl_length in Hincl; [|apply zseq_NoDup].
  rewrite zseq_length in Hincl. lia.
Qed.

(** X11.  On a grid reached with room, and with room for a [Tick]: when
    every inserted entity has a span of at least one cell, every entity in
    the arena is named by some chain, and [Tick] drops none: the arena has as many slots in use after the compaction as
    before, and each record is found at the position of its entity in the
    order of first discovery, different entities at different indices. *)
Theorem Tick_keeps_every_entity_that_lies_in_a_cell : forall g fuel,
  spanned g -> tick_room g -> Used (References g) <= Z.of_nat fuel ->
  (forall i, 1 <= i < Used (Entities g) -> In i (concat (view g))) /\
  exists r,
    Tick fuel g = Some r /\
    Used (Entities (grid_after (snd r))) = Used (Entities g) /\
    (forall i, 1 <= i < Used (Entities g) ->
       1 <= rank (discovery_order (view g)) i < Used (Entities g) /\
       load (Entities (grid_after (snd r)))
            (rank (discovery_order (view g)) i)
       = load (Entities g) i) /\
    (forall i j, 1 <= i < Used (Entities g) ->
       rank (discovery_order (view g)) i = rank (discovery_order (view g)) j ->
       i = j).
Proof.
  intros g fuel Hs Hroom Hfuel.
  pose proof (spanned_all_linked g Hs) as Hall.
  split; [exact Hall|].
  pose proof (spanned_reachable g Hs) as Hr.
  destruct (reachable_wf g Hr) as [sv [Hwf Hcl]].
  destruct (Tick_of_wf g sv fuel Hwf Hcl Hfuel)
    as [t [_ [HT [_ [_ [HUt [Hnt _]]]]]]].
  set (order := discovery_order (view g)) in *.
  pose proof (wf_usedE _ _ Hwf) as HUE.
  assert (Hlen : Z.of_nat (length order) = Used (Entities g) - 1).
  { apply NoDup_exact_length; [lia | apply discovery_order_NoDup|].
    intro e. unfold order. rewrite discovery_order_In. split.
    - apply (view_refs_range g sv e Hwf).
    - apply Hall. }
  assert (Hrk : forall i, 1 <= i < Used (Entities g) ->
            1 <= rank order i <= Z.of_nat (length order)).
  { intros i Hi. apply rank_pos_in. apply discovery_order_In.
    apply Hall. exact Hi. }
  eexists. split; [exact HT|]. cbn [snd grid_after].
  split; [lia|]. split.
  - intros i Hi. pose proof (Hrk i Hi) as Hri. split; [lia|].
    specialize (Hnt (Z.to_nat (rank order i - 1))).
    replace (Z.of_nat (Z.to_nat (rank order i - 1)) + 1)
      with (rank order i) in Hnt by lia.
    rewrite Hnt by lia. rewrite rank_nth by lia. reflexivity.
  - intros i j Hi Hij. apply (rank_inj order); [|exact Hij].
    specialize (Hrk i Hi). lia.
Qed.

Lemma grid_tall_spanned : spanned grid_tall.
Proof.
  apply (spanned_Insert grid_2x2 tall {| CX := 1; CY := 0 |}
           {| CX := 1; CY := 1 |}).
  - apply spanned_new. unfold geometry_ok. simpl. lia.
  - reflexivity.
  - exact grid_2x2_insert_room.
  - vm_compute. reflexivity.
  - vm_compute. reflexivity.
  - simpl. lia.
  - simpl. lia.
  - vm_compute. reflexivity.
Qed.

Lemma Tick_keeps_every_entity_that_lies_in_a_cell_witness :
  In 1 (concat (view grid_tall)) /\
  exists r,
    Tick 4 grid_tall = Some r /\
    Used (Entities (grid_after (snd r))) = Used (Entities grid_tall).
Proof.
  assert (H1 : spanned grid_tall) by exact grid_tall_spanned.
  assert (H0 : tick_room grid_tall) by (split; vm_compute; reflexivity).
  assert (H2 : Used (References grid_tall) <= Z.of_nat 4)
    by (vm_compute; discriminate).
  destruct (Tick_keeps_every_entity_that_lies_in_a_cell grid_tall 4 H1 H0 H2)
    as [Hall [r [HT [HU _]]]].
  split.
  - apply Hall. vm_compute. split; [discriminate | reflexivity].
  - exists r. split; [exact HT | exact HU].
Defined.
